(** * fiducial_slam2: the map of fiducials (src/fiducial_slam2/src/map.cpp)

    A shallow embedding of [map.cpp]: the fusion primitives
    ([updateVarianceAlexey], [updateTransform]), the landmark record and its
    [Fiducial::update], the map engine ([Map::update], [updateMap],
    [updatePose], [findClosestObs], [autoInit]) and the text persistence
    ([saveMap], [loadMap]).

    - [double] is an interface [Scalar], implemented by IEEE binary64 (the
      kernel's primitive floats), which is what the program runs on.  What
      does not depend on the arithmetic is proved over the interface; the
      rest over binary64, whose numbers are measured in the reals ([value]).
    - [int] is [Z]: identities are never computed with, and the two counters
      ([frameNum], [numObs]) are taken below the point where an [int] wraps.
    - [tf2] is not part of the repository.  [Vector3] arithmetic is written
      out; matrices and quaternions are the interface [Rotations].
    - [std::map] is [gmap]; iteration is by ascending key.
    - Member functions of [Map] are functions on the record [Map]; the static
      local [originFid] of [autoInit] is a field of that record; what the
      program sends out (warnings, saved maps, broadcast transforms) is
      appended to the field [out].  ROS_INFO lines, [publishMap], the markers
      (but for the line list of the links), [lastPublished] and the
      constructor of [Observation] are left out.
    - What C++ leaves indeterminate (a default-constructed [Fiducial] or
      [tf2::Transform]) is a parameter, [indeterminate]; reading [obs[i]]
      outside the vector ends the call ([OutOfRange]). *)

From Stdlib Require Import ZArith QArith Floats Reals Lra Bool List Ascii String Lia.
From Stdlib Require Import DecimalFacts DecimalPos DecimalN DecimalZ.
From stdpp Require Import gmap sorting.
Import ListNotations.
Open Scope Z_scope.

(** ** Scalars *)

Class Scalar (D : Type) : Type := {
  dlit : Q -> D;            (* a numeric literal of the source *)
  dadd : D -> D -> D;
  dmul : D -> D -> D;
  ddiv : D -> D -> D;
  dltb : D -> D -> bool;    (* a < b *)
  deqb : D -> D -> bool     (* a == b *)
}.

Declare Scope dbl_scope.
Delimit Scope dbl_scope with D.
Infix "+" := dadd : dbl_scope.
Infix "*" := dmul : dbl_scope.
Infix "/" := ddiv : dbl_scope.
Infix "<?" := dltb : dbl_scope.
Infix "==?" := deqb (at level 70) : dbl_scope.

(** The binary64 number nearest to a rational: the quotient of two integers,
    rounded once (what the compiler does with a decimal literal, and [strtod]
    with decimal text). *)
Definition Q2float (q : Q) : float :=
  match Qnum q with
  | Z0 => PrimFloat.zero
  | Zpos n =>
      SF2Prim (SFdiv prec emax (S754_finite false n 0) (S754_finite false (Qden q) 0))
  | Zneg n =>
      SF2Prim (SFdiv prec emax (S754_finite true n 0) (S754_finite false (Qden q) 0))
  end.

#[global] Instance binary64 : Scalar float := {|
  dlit := Q2float;
  dadd := PrimFloat.add;
  dmul := PrimFloat.mul;
  ddiv := PrimFloat.div;
  dltb := PrimFloat.ltb;
  deqb := PrimFloat.eqb
|}.

(** [std::max(a, b)] is [(a < b) ? b : a]. *)
Definition dmax {D} `{Scalar D} (a b : D) : D := if (a <? b)%D then b else a.

(** ** tf2 *)

Record Vector3 (D : Type) : Type := mkVector3 { vx : D; vy : D; vz : D }.
Arguments mkVector3 {D} _ _ _.
Arguments vx {D} _.
Arguments vy {D} _.
Arguments vz {D} _.

Section Vector3.
Context {D : Type} `{Scalar D}.

(* operator*(s, v) is v * s *)
Definition vscale (s : D) (v : Vector3 D) : Vector3 D :=
  mkVector3 (vx v * s)%D (vy v * s)%D (vz v * s)%D.

Definition vadd (a b : Vector3 D) : Vector3 D :=
  mkVector3 (vx a + vx b)%D (vy a + vy b)%D (vz a + vz b)%D.

(* operator/(v, s) is v * (1.0 / s) *)
Definition vdiv (v : Vector3 D) (s : D) : Vector3 D := vscale (dlit 1 / s)%D v.

(* length2() is the dot product of the vector with itself *)
Definition length2 (v : Vector3 D) : D :=
  (vx v * vx v + vy v * vy v + vz v * vz v)%D.

End Vector3.

(** The rotation part of tf2, as far as [map.cpp] uses it. *)
Class Rotations (D : Type) : Type := {
  Matrix3x3 : Type;
  Quaternion : Type;
  mat_mul : Matrix3x3 -> Matrix3x3 -> Matrix3x3;         (* Matrix3x3 * Matrix3x3 *)
  mat_apply : Matrix3x3 -> Vector3 D -> Vector3 D;       (* the rows dotted with a vector *)
  mat_getRotation : Matrix3x3 -> Quaternion;             (* Matrix3x3::getRotation *)
  mat_setRotation : Quaternion -> Matrix3x3;             (* Matrix3x3::setRotation *)
  getRPY : Matrix3x3 -> D * D * D;                       (* Matrix3x3::getRPY *)
  setRPY : D -> D -> D -> Quaternion;                    (* Quaternion::setRPY *)
  slerp : Quaternion -> Quaternion -> D -> Quaternion;   (* q1.slerp(q2, t) *)
  normalize : Quaternion -> Quaternion                   (* Quaternion::normalize *)
}.

(** tf2 restricted to the transforms whose rotation is the identity: one
    matrix, one quaternion, roll, pitch and yaw all zero. *)
Definition TranslationsOnly (D : Type) `{Scalar D} : Rotations D := {|
  Matrix3x3 := unit;
  Quaternion := unit;
  mat_mul := fun _ _ => tt;
  mat_apply := fun _ v => v;
  mat_getRotation := fun _ => tt;
  mat_setRotation := fun _ => tt;
  getRPY := fun _ => (dlit 0, dlit 0, dlit 0);
  setRPY := fun _ _ _ => tt;
  slerp := fun _ _ _ => tt;
  normalize := fun _ => tt
|}.

Record Transform (D : Type) `{Rotations D} : Type := mkTransform {
  m_basis : Matrix3x3;
  m_origin : Vector3 D
}.
Arguments mkTransform {D _} _ _.
Arguments m_basis {D _} _.
Arguments m_origin {D _} _.

Section Transform.
Context {D : Type} `{Scalar D} `{Rotations D}.

Definition getOrigin (t : Transform D) : Vector3 D := m_origin t.
Definition setOrigin (o : Vector3 D) (t : Transform D) : Transform D :=
  mkTransform (m_basis t) o.
Definition getRotation (t : Transform D) : Quaternion := mat_getRotation (m_basis t).
Definition setRotation (q : Quaternion) (t : Transform D) : Transform D :=
  mkTransform (mat_setRotation q) (m_origin t).

(* Transform::operator* : the bases multiplied, and the first transform
   applied to the second's origin *)
Definition tmul (a b : Transform D) : Transform D :=
  mkTransform (mat_mul (m_basis a) (m_basis b))
              (vadd (mat_apply (m_basis a) (m_origin b)) (m_origin a)).

End Transform.

(** ** Fusion primitives (map.cpp 45-100) *)

Section Fusion.
Context {D : Type} `{Scalar D} `{Rotations D}.

Definition M_PI : D := dlit (314159265358979323846 # 100000000000000000000).

Definition deg2rad (deg : D) : D := (deg * M_PI / dlit 180)%D.

Definition rad2deg (rad : D) : D := (rad * dlit 180 / M_PI)%D.

Definition updateVarianceAlexey (var1 var2 : D) : D :=
  dmax (dlit 1 / (dlit 1 / var1 + dlit 1 / var2))%D (dlit (1 # 1000000)).

(* if (1) returns at once; the lines after it are never reached *)
Definition updateVarianceDavid (newMean mean1 : Vector3 D) (var1 : D)
    (mean2 : Vector3 D) (var2 : D) : D :=
  updateVarianceAlexey var1 var2.

Definition updateTransform (t1 : Transform D) (var1 : D)
    (t2 : Transform D) (var2 : D) : Transform D :=
  let o1 := getOrigin t1 in
  let o2 := getOrigin t2 in
  let t1 := setOrigin (vdiv (vadd (vscale var1 o2) (vscale var2 o1)) (var1 + var2)%D) t1 in
  let q1 := getRotation t1 in
  let q2 := getRotation t2 in
  setRotation (normalize (slerp q1 q2 (var1 / (var1 + var2))%D)) t1.

End Fusion.

(** ** Observations and fiducials (map.h, map.cpp 102-184) *)

Record Observation (D : Type) `{Rotations D} : Type := mkObservation {
  fid : Z;
  imageError : D;
  objectError : D;
  T_fidCam : Transform D;
  T_camFid : Transform D
}.
Arguments mkObservation {D _} _ _ _ _ _.
Arguments fid {D _} _.
Arguments imageError {D _} _.
Arguments objectError {D _} _.
Arguments T_fidCam {D _} _.
Arguments T_camFid {D _} _.

Record Fiducial (D : Type) `{Rotations D} : Type := mkFiducial {
  id : Z;
  numObs : Z;
  pose : Transform D;
  variance : D;
  links : gmap Z Z         (* map<int,int>: the linked ids, each mapped to 1 *)
}.
Arguments mkFiducial {D _} _ _ _ _ _.
Arguments id {D _} _.
Arguments numObs {D _} _.
Arguments pose {D _} _.
Arguments variance {D _} _.
Arguments links {D _} _.

(** What the program sends out. *)
Inductive event (D : Type) `{Rotations D} : Type :=
| WARN_no_map_entry (fid : Z)                 (* "No map entry to %d" *)
| WARN_no_fiducial_to_init                    (* "Could not find a fiducial to initialize map from" *)
| saveMap_called (fiducials : gmap Z (Fiducial D))
| sendTransform (pose : Transform D) (variance : D).
Arguments WARN_no_map_entry {D _} _.
Arguments WARN_no_fiducial_to_init {D _}.
Arguments saveMap_called {D _} _.
Arguments sendTransform {D _} _ _.

Record Map (D : Type) `{Rotations D} : Type := mkMap {
  frameNum : Z;
  isInitializingMap : bool;
  fiducials : gmap Z (Fiducial D);
  originFid : Z;           (* static int originFid = -1, in autoInit *)
  out : list (event D)
}.
Arguments mkMap {D _} _ _ _ _ _.
Arguments frameNum {D _} _.
Arguments isInitializingMap {D _} _.
Arguments fiducials {D _} _.
Arguments originFid {D _} _.
Arguments out {D _} _.

(** How a call ends: it returns, or it reads [obs[i]] outside the vector
    (undefined behaviour; the state is the one reached before the read). *)
Inductive result (D : Type) `{Rotations D} : Type :=
| Returned (m : Map D)
| OutOfRange (m : Map D) (i : Z).
Arguments Returned {D _} _.
Arguments OutOfRange {D _} _ _.

Section Engine.
Context {D : Type} `{Scalar D} `{Rotations D}.

(** The content of a default-constructed [Fiducial]: [Fiducial() {}] sets
    nothing, so every field but the (empty) [links] is indeterminate, and so
    is a default-constructed [tf2::Transform]. *)
Variable indeterminate : Fiducial D.

Definition Fiducial_default : Fiducial D :=
  mkFiducial (id indeterminate) (numObs indeterminate) (pose indeterminate)
             (variance indeterminate) ∅.

Definition Transform_default : Transform D := pose indeterminate.

(* Fiducial::Fiducial(int id, const tf2::Transform &pose, double variance) *)
Definition Fiducial_new (id : Z) (pose : Transform D) (variance : D) : Fiducial D :=
  mkFiducial id 0 pose variance ∅.

(* Fiducial::Fiducial(int id, const tf2::Quaternion &q, const tf2::Vector3 &tvec,
                      double variance): the pose starts default-constructed *)
Definition Fiducial_new_q (id : Z) (q : Quaternion) (tvec : Vector3 D)
    (variance : D) : Fiducial D :=
  let pose := setRotation q Transform_default in
  let pose := setOrigin (mkVector3 (vx tvec) (vy tvec) (vz tvec)) pose in
  mkFiducial id 0 pose variance ∅.

(* Fiducial::update; the roll, pitch and yaw it reads first are not used *)
Definition Fiducial_update (f : Fiducial D) (newPose : Transform D)
    (newVariance : D) : Fiducial D :=
  let mean1 := getOrigin (pose f) in
  let pose' := updateTransform (pose f) (variance f) newPose newVariance in
  let numObs' := numObs f + 1 in
  let mean2 := getOrigin newPose in
  let newMean := getOrigin pose' in
  let v := updateVarianceDavid newMean mean1 (variance f) mean2 newVariance in
  mkFiducial (id f) numObs' pose' v (links f).

(** [fiducials[k]]: the entry, default-constructed when there is none. *)
Definition fiducials_at (fids : gmap Z (Fiducial D)) (k : Z) : Fiducial D :=
  default Fiducial_default (fids !! k).

Definition set_variance (v : D) (f : Fiducial D) : Fiducial D :=
  mkFiducial (id f) (numObs f) (pose f) v (links f).
Definition set_numObs (n : Z) (f : Fiducial D) : Fiducial D :=
  mkFiducial (id f) n (pose f) (variance f) (links f).
Definition add_link (k : Z) (f : Fiducial D) : Fiducial D :=
  mkFiducial (id f) (numObs f) (pose f) (variance f) (<[k := 1]> (links f)).

Definition set_fiducials (fids : gmap Z (Fiducial D)) (m : Map D) : Map D :=
  mkMap (frameNum m) (isInitializingMap m) fids (originFid m) (out m).
Definition set_frameNum (n : Z) (m : Map D) : Map D :=
  mkMap n (isInitializingMap m) (fiducials m) (originFid m) (out m).
Definition set_isInitializingMap (b : bool) (m : Map D) : Map D :=
  mkMap (frameNum m) b (fiducials m) (originFid m) (out m).
Definition set_originFid (k : Z) (m : Map D) : Map D :=
  mkMap (frameNum m) (isInitializingMap m) (fiducials m) k (out m).
Definition emit (e : event D) (m : Map D) : Map D :=
  mkMap (frameNum m) (isInitializingMap m) (fiducials m) (originFid m) (out m ++ [e]).

(* saveMap(): the file is written from the current collection *)
Definition saveMap_now (m : Map D) : Map D := emit (saveMap_called (fiducials m)) m.

(** [obs[i]] for an [int] index. *)
Definition obs_at (obs : list (Observation D)) (i : Z) : option (Observation D) :=
  if i <? 0 then None else obs !! Z.to_nat i.

(** *** Map::updateMap (map.cpp 235-294) *)

(* the body of the inner loop, for o1 = obs[i] and o2 = obs[j] *)
Definition updateMap_pair (o1 o2 : Observation D) (m : Map D) : Map D :=
  (* source and dest are the same *)
  if fid o1 =? fid o2 then m
  else
    (* source not in map *)
    match fiducials m !! fid o1 with
    | None => emit (WARN_no_map_entry (fid o1)) m
    | Some f1 =>
        (* dest in map with variance of 0 *)
        if match fiducials m !! fid o2 with
           | Some f2 => (variance f2 ==? dlit 0)%D
           | None => false
           end
        then m
        else
          let T_fid1Fid2 := tmul (T_fidCam o1) (T_camFid o2) in
          let T_mapFid2 := tmul (pose f1) T_fid1Fid2 in
          let variance :=
            (objectError o1 + objectError o2
             + dmax (variance f1) (dlit (10 # 100000)))%D in
          match fiducials m !! fid o2 with
          | None =>
              saveMap_now
                (set_fiducials
                   (<[fid o2 := Fiducial_new (fid o2) T_mapFid2 variance]> (fiducials m)) m)
          | Some f2 =>
              let f := Fiducial_update f2 T_mapFid2 variance in
              let f := add_link (fid o1) f in
              let f := set_numObs (numObs f + 1) f in
              let fids := <[fid o2 := f]> (fiducials m) in
              let fids := <[fid o1 := add_link (fid o2) (fiducials_at fids (fid o1))]> fids in
              set_fiducials fids m
          end
    end.

Definition updateMap (obs : list (Observation D)) (m : Map D) : Map D :=
  fold_left
    (fun m o1 => fold_left (fun m o2 => updateMap_pair o1 o2 m) obs m)
    obs m.

(** *** Map::updatePose (map.cpp 297-385) *)

(* the body of the loop: (pose, variance) are the two locals *)
Definition updatePose_step (fids : gmap Z (Fiducial D))
    (acc : Transform D * D) (o : Observation D) : Transform D * D :=
  let '(pose_, variance_) := acc in
  match fids !! fid o with
  | Some f =>
      let p := tmul (pose f) (T_fidCam o) in
      let v := (variance f + objectError o)%D in
      if (variance_ ==? dlit 0)%D then (p, v)
      else (updateTransform pose_ variance_ p v, updateVarianceAlexey variance_ v)
  | None => acc
  end.

(** The transform the call broadcasts, with the variance it logs; [None]
    when it returns before the broadcast. *)
Definition updatePose_estimate (obs : list (Observation D)) (m : Map D)
    : option (Transform D * D) :=
  if (length obs =? 0)%nat then None
  else Some (fold_left (updatePose_step (fiducials m)) obs (Transform_default, dlit 0)).

Definition updatePose (obs : list (Observation D)) (m : Map D) : Map D :=
  match updatePose_estimate obs m with
  | None => m
  | Some (p, v) => emit (sendTransform p v) m
  end.

(** *** findClosestObs (map.cpp 387-402) *)

Definition findClosestObs (obs : list (Observation D)) : Z :=
  snd
    (fold_left
       (fun (acc : D * Z) (i : nat) =>
          let '(smallestDist, closestIdx) := acc in
          match obs !! 0%nat with          (* const Observation &o = obs[0]; *)
          | Some o =>
              let d := length2 (getOrigin (T_camFid o)) in
              if (smallestDist <? dlit 0)%D || (d <? smallestDist)%D
              then (d, Z.of_nat i)
              else acc
          | None => acc                    (* not reached: the loop runs when obs is not empty *)
          end)
       (seq 0 (length obs))
       (dlit (-1 # 1), -1)).

(** *** Map::autoInit (map.cpp 405-446) *)

(* lines 411-434 *)
Definition autoInit_origin (obs : list (Observation D)) (m : Map D) : result D :=
  if (size (fiducials m) =? 0)%nat then
    let m := set_originFid (findClosestObs obs) m in
    let m := if originFid m =? -1 then emit WARN_no_fiducial_to_init m else m in
    match obs_at obs (originFid m) with    (* const Observation &o = obs[originFid]; *)
    | None => OutOfRange m (originFid m)
    | Some o =>
        Returned
          (set_fiducials
             (<[fid o := Fiducial_new (fid o) (T_fidCam o) (objectError o)]> (fiducials m)) m)
    end
  else
    (* the loop body ends in break: it runs once, with o = obs[0], when obs is not empty *)
    match obs with
    | [] => Returned m
    | o :: _ =>
        if fid o =? originFid m then
          Returned
            (set_fiducials
               (<[originFid m :=
                    Fiducial_update (fiducials_at (fiducials m) (originFid m))
                                    (T_fidCam o) (objectError o)]> (fiducials m)) m)
        else Returned m
    end.

(* the body of the loop of lines 438-444 *)
Definition anchor_round (obs : list (Observation D)) (m : Map D) (_ : Observation D)
    : Map D :=
  match obs !! 0%nat with                  (* const Observation &o = obs[0]; *)
  | Some o =>
      if fid o =? originFid m then
        set_fiducials
          (<[originFid m :=
               set_variance (dlit 0) (fiducials_at (fiducials m) (originFid m))]>
             (fiducials m)) m
      else m
  | None => m
  end.

(* lines 435-445 *)
Definition autoInit_anchor (obs : list (Observation D)) (m : Map D) : Map D :=
  if 10 <? frameNum m then
    fold_left (anchor_round obs) obs (set_isInitializingMap false m)
  else m.

Definition autoInit (obs : list (Observation D)) (m : Map D) : result D :=
  match autoInit_origin obs m with
  | Returned m => Returned (autoInit_anchor obs m)
  | OutOfRange m i => OutOfRange m i
  end.

(** *** Map::update (map.cpp 212-232) *)

Definition update (obs : list (Observation D)) (m : Map D) : result D :=
  let m := set_frameNum (frameNum m + 1) m in
  let m :=
    if (0 <? length obs)%nat && (size (fiducials m) =? 0)%nat
    then set_isInitializingMap true m else m in
  if isInitializingMap m then autoInit obs m
  else Returned (updatePose obs (updateMap obs m)).

(** The frames of a run, one call of [update] each; a run stops at the first
    call that does not return. *)
Fixpoint run (frames : list (list (Observation D))) (m : Map D) : result D :=
  match frames with
  | [] => Returned m
  | obs :: rest =>
      match update obs m with
      | Returned m' => run rest m'
      | OutOfRange m' i => OutOfRange m' i
      end
  end.

End Engine.

(** ** The map file (map.cpp 448-534)

    Text is a list of characters.  [fprintf], [sscanf], [fgets], [getline]
    and [stoi] belong to the C and C++ libraries; they are written out for
    the conversions the two format strings use, as far as the text goes that
    [saveMap] writes.  Of the texts [%lf] accepts, the decimal ones without
    exponent, [inf] and [nan] are read ([%lf] writes no other); [int] being
    [Z], a number outside [int] is read as it stands by [%d] and by [stoi]
    (no text written from an [int] holds one).  So the theorems on what
    [loadMap] makes of a file are about the files [saveMap] wrote; those on
    the lines [fgets] reads hold for any text. *)

Abbreviation text := (list ascii).

Definition SP : ascii := " "%char.
Definition TAB : ascii := "009"%char.
Definition NL : ascii := "010"%char.

(** What [%lf] needs to know of a [double] to write it, and how the text it
    reads becomes a [double]. *)
Inductive fpclass : Type :=
| fp_nan
| fp_inf (negative : bool)
| fp_finite (negative : bool) (magnitude : Q).

Class ScalarText (D : Type) : Type := {
  dclass : D -> fpclass;
  (* sign, digits before the point, digits after the point *)
  dstrtod : bool -> Decimal.uint -> Decimal.uint -> D;
  dstrtod_inf : bool -> D;
  dstrtod_nan : D
}.

Definition float_class (x : float) : fpclass :=
  match Prim2SF x with
  | S754_zero s => fp_finite s 0
  | S754_infinity s => fp_inf s
  | S754_nan => fp_nan
  | S754_finite s m e =>
      fp_finite s (if e <? 0 then Zpos m # Z.to_pos (2 ^ (- e)) else (Zpos m * 2 ^ e) # 1)
  end.

Definition float_strtod (negative : bool) (ip fp : Decimal.uint) : float :=
  let num := Z.of_N (N.of_uint (Decimal.app ip fp)) in
  let den := Z.to_pos (10 ^ Z.of_nat (Decimal.nb_digits fp)) in
  let x := Q2float (num # den) in
  if negative then PrimFloat.opp x else x.

#[global] Instance binary64_text : ScalarText float := {|
  dclass := float_class;
  dstrtod := float_strtod;
  dstrtod_inf := fun negative => if negative then neg_infinity else infinity;
  dstrtod_nan := nan
|}.

(** *** Writing *)

Fixpoint chars_of_uint (d : Decimal.uint) : text :=
  match d with
  | Decimal.Nil => []
  | Decimal.D0 d => "0"%char :: chars_of_uint d
  | Decimal.D1 d => "1"%char :: chars_of_uint d
  | Decimal.D2 d => "2"%char :: chars_of_uint d
  | Decimal.D3 d => "3"%char :: chars_of_uint d
  | Decimal.D4 d => "4"%char :: chars_of_uint d
  | Decimal.D5 d => "5"%char :: chars_of_uint d
  | Decimal.D6 d => "6"%char :: chars_of_uint d
  | Decimal.D7 d => "7"%char :: chars_of_uint d
  | Decimal.D8 d => "8"%char :: chars_of_uint d
  | Decimal.D9 d => "9"%char :: chars_of_uint d
  end.

(* %d *)
Definition printf_d (z : Z) : text :=
  match Z.to_int z with
  | Decimal.Pos d => chars_of_uint d
  | Decimal.Neg d => "-"%char :: chars_of_uint d
  end.

(** The nearest integer, ties to even, of a rational that is not negative. *)
Definition round_half_even (q : Q) : N :=
  let n := Z.to_N (Qnum q) in
  let d := Npos (Qden q) in
  let '(k, r) := N.div_eucl n d in
  match (2 * r ?= d)%N with
  | Lt => k
  | Gt => (k + 1)%N
  | Eq => if N.even k then k else (k + 1)%N
  end.

Definition digit_uint (k : N) (rest : Decimal.uint) : Decimal.uint :=
  match k with
  | 0%N => Decimal.D0 rest
  | 1%N => Decimal.D1 rest
  | 2%N => Decimal.D2 rest
  | 3%N => Decimal.D3 rest
  | 4%N => Decimal.D4 rest
  | 5%N => Decimal.D5 rest
  | 6%N => Decimal.D6 rest
  | 7%N => Decimal.D7 rest
  | 8%N => Decimal.D8 rest
  | _ => Decimal.D9 rest
  end.

(** The six digits of a number below a million. *)
Definition six_digits (r : N) : Decimal.uint :=
  digit_uint (r / 100000 mod 10)%N
    (digit_uint (r / 10000 mod 10)%N
       (digit_uint (r / 1000 mod 10)%N
          (digit_uint (r / 100 mod 10)%N
             (digit_uint (r / 10 mod 10)%N
                (digit_uint (r mod 10)%N Decimal.Nil))))).

Definition sign_chars (negative : bool) : text :=
  if negative then ["-"%char] else [].

Section Text.
Context {D : Type} `{Scalar D} `{ScalarText D} `{Rotations D}.

(** The digits [%lf] writes for a magnitude: before the point, and the six
    after it. *)
Definition lf_digits (magnitude : Q) : Decimal.uint * Decimal.uint :=
  let n := round_half_even (magnitude * 1000000) in
  (N.to_uint (n / 1000000), six_digits (n mod 1000000)).

(* %lf: six digits after the point; a NaN is written without sign *)
Definition printf_lf (x : D) : text :=
  match dclass x with
  | fp_nan => list_ascii_of_string "nan"
  | fp_inf negative => sign_chars negative ++ list_ascii_of_string "inf"
  | fp_finite negative magnitude =>
      let '(ip, fp) := lf_digits magnitude in
      sign_chars negative ++ chars_of_uint ip ++ "."%char :: chars_of_uint fp
  end.

(** The [double] that [%lf] reads from what [%lf] wrote for [x]. *)
Definition reread (x : D) : D :=
  match dclass x with
  | fp_nan => dstrtod_nan
  | fp_inf negative => dstrtod_inf negative
  | fp_finite negative magnitude =>
      let '(ip, fp) := lf_digits magnitude in dstrtod negative ip fp
  end.

(** *** Reading *)

Definition isspace (c : ascii) : bool :=
  (c =? SP)%char || (c =? TAB)%char || (c =? NL)%char
  || (c =? "011")%char || (c =? "012")%char || (c =? "013")%char.

Fixpoint skip_ws (s : text) : text :=
  match s with
  | c :: s' => if isspace c then skip_ws s' else s
  | [] => []
  end.

Definition digit_of_char (c : ascii) : option (Decimal.uint -> Decimal.uint) :=
  if (c =? "0")%char then Some Decimal.D0
  else if (c =? "1")%char then Some Decimal.D1
  else if (c =? "2")%char then Some Decimal.D2
  else if (c =? "3")%char then Some Decimal.D3
  else if (c =? "4")%char then Some Decimal.D4
  else if (c =? "5")%char then Some Decimal.D5
  else if (c =? "6")%char then Some Decimal.D6
  else if (c =? "7")%char then Some Decimal.D7
  else if (c =? "8")%char then Some Decimal.D8
  else if (c =? "9")%char then Some Decimal.D9
  else None.

(** The longest run of digits the text starts with, and what follows it. *)
Fixpoint scan_uint (s : text) : Decimal.uint * text :=
  match s with
  | c :: s' =>
      match digit_of_char c with
      | Some digit => let '(d, rest) := scan_uint s' in (digit d, rest)
      | None => (Decimal.Nil, s)
      end
  | [] => (Decimal.Nil, [])
  end.

Definition scan_sign (s : text) : bool * text :=
  match s with
  | c :: s' =>
      if (c =? "-")%char then (true, s')
      else if (c =? "+")%char then (false, s')
      else (false, s)
  | [] => (false, [])
  end.

Fixpoint strip_prefix (p s : text) : option text :=
  match p, s with
  | [], _ => Some s
  | a :: p', c :: s' => if (a =? c)%char then strip_prefix p' s' else None
  | _ :: _, [] => None
  end.

(* %d: blanks, a sign, digits; the number is not reduced to the range of
   [int] *)
Definition scanf_d (s : text) : option (Z * text) :=
  let '(negative, s) := scan_sign (skip_ws s) in
  match scan_uint s with
  | (Decimal.Nil, _) => None
  | (d, rest) => Some (Z.of_int (if negative then Decimal.Neg d else Decimal.Pos d), rest)
  end.

(* the number after the sign: inf, nan, or digits with an optional point;
   an exponent, a hexadecimal number or [infinity] is not looked for *)
Definition scan_lf_number (negative : bool) (s : text) : option (D * text) :=
  match strip_prefix (list_ascii_of_string "inf") s with
  | Some rest => Some (dstrtod_inf negative, rest)
  | None =>
      match strip_prefix (list_ascii_of_string "nan") s with
      | Some rest => Some (dstrtod_nan, rest)
      | None =>
          let '(ip, s) := scan_uint s in
          let '(fp, s) :=
            match s with
            | c :: s' => if (c =? ".")%char then scan_uint s' else (Decimal.Nil, s)
            | [] => (Decimal.Nil, [])
            end in
          match ip, fp with
          | Decimal.Nil, Decimal.Nil => None
          | _, _ => Some (dstrtod negative ip fp, s)
          end
      end
  end.

(* %lf: blanks, a sign, a number *)
Definition scanf_lf (s : text) : option (D * text) :=
  let '(negative, s) := scan_sign (skip_ws s) in
  scan_lf_number negative s.

(* %[^\t\n]: the longest run of characters other than tab and newline;
   no blank is skipped, and an empty run is a failure *)
Fixpoint scan_not_tab_nl (s : text) : text * text :=
  match s with
  | c :: s' =>
      if (c =? TAB)%char || (c =? NL)%char then ([], s)
      else let '(run, rest) := scan_not_tab_nl s' in (c :: run, rest)
  | [] => ([], [])
  end.

Definition scanf_set (s : text) : option (text * text) :=
  match scan_not_tab_nl s with
  | ([], _) => None
  | (run, rest) => Some (run, rest)
  end.

(** The fields of a record, as [sscanf] assigns them. *)
Record record_fields : Type := mkFields {
  f_id : Z;
  f_tx : D; f_ty : D; f_tz : D;
  f_rx : D; f_ry : D; f_rz : D;
  f_var : D;
  f_numObs : Z;
  f_linkbuf : text
}.

(* sscanf(linebuf, "%d %lf %lf %lf %lf %lf %lf %lf %d %[^\t\n]s", ...) == 10:
   [Some] when all ten conversions are made *)
Definition sscanf_record (linebuf : text) : option record_fields :=
  '(id, s) ← scanf_d linebuf;
  '(tx, s) ← scanf_lf (skip_ws s);
  '(ty, s) ← scanf_lf (skip_ws s);
  '(tz, s) ← scanf_lf (skip_ws s);
  '(rx, s) ← scanf_lf (skip_ws s);
  '(ry, s) ← scanf_lf (skip_ws s);
  '(rz, s) ← scanf_lf (skip_ws s);
  '(var, s) ← scanf_lf (skip_ws s);
  '(numObs, s) ← scanf_d (skip_ws s);
  '(linkbuf, _) ← scanf_set (skip_ws s);
  Some (mkFields id tx ty tz rx ry rz var numObs linkbuf).

(* fgets(buf, n + 1, fp): at most n characters, the newline the last one *)
Fixpoint fgets (n : nat) (s : text) : text * text :=
  match n, s with
  | S n', c :: s' =>
      if (c =? NL)%char then ([c], s')
      else let '(l, rest) := fgets n' s' in (c :: l, rest)
  | _, _ => ([], s)
  end.

Definition BUFSIZE : nat := 2048.

(** The lines the loop of [loadMap] reads: [fgets(linebuf, BUFSIZE - 1, fp)]
    until it reads nothing.  Every round takes a character at least, so as
    many rounds as the file has characters are enough. *)
Fixpoint read_lines (rounds : nat) (s : text) : list text :=
  match rounds with
  | O => []
  | S rounds' =>
      match fgets (BUFSIZE - 2) s with
      | ([], _) => []
      | (linebuf, rest) => linebuf :: read_lines rounds' rest
      end
  end.

(** [getline(ss, s, ' ')] until it fails: the pieces between blanks; a last
    piece that is empty is not one. *)
Fixpoint getline_all (piece : text) (s : text) : list text :=
  match s with
  | c :: s' =>
      if (c =? SP)%char then rev piece :: getline_all [] s'
      else getline_all (c :: piece) s'
  | [] => match piece with [] => [] | _ => [rev piece] end
  end.

(* stoi: what %d reads, and an exception ([None]) where %d fails; there is
   no std::out_of_range, the number not being reduced to the range of [int] *)
Definition stoi (s : text) : option Z := fst <$> scanf_d s.

(* while (getline(ss, s, ' ')) f.links[stoi(s)] = 1; *)
Fixpoint read_links (pieces : list text) (links : gmap Z Z) : option (gmap Z Z) :=
  match pieces with
  | [] => Some links
  | s :: pieces' =>
      match stoi s with
      | Some k => read_links pieces' (<[k := 1]> links)
      | None => None
      end
  end.

Variable indeterminate : Fiducial D.

Definition set_links (l : gmap Z Z) (f : Fiducial D) : Fiducial D :=
  mkFiducial (id f) (numObs f) (pose f) (variance f) l.

(* the body of the loop of loadMap, for one line; [None] when stoi throws *)
Definition loadMap_line (fids : gmap Z (Fiducial D)) (linebuf : text)
    : option (gmap Z (Fiducial D)) :=
  match sscanf_record linebuf with
  | Some r =>
      let tvec := mkVector3 (f_tx r) (f_ty r) (f_tz r) in
      let q := setRPY (deg2rad (f_rx r)) (deg2rad (f_ry r)) (deg2rad (f_rz r)) in
      let f := Fiducial_new_q indeterminate (f_id r) q tvec (f_var r) in
      let f := set_numObs (f_numObs r) f in
      match read_links (getline_all [] (f_linkbuf r)) (links f) with
      | Some l => Some (<[f_id r := set_links l f]> fids)
      | None => None
      end
  | None => Some fids
  end.

Fixpoint loadMap_lines (lines : list text) (fids : gmap Z (Fiducial D))
    : option (gmap Z (Fiducial D)) :=
  match lines with
  | [] => Some fids
  | linebuf :: lines' =>
      match loadMap_line fids linebuf with
      | Some fids' => loadMap_lines lines' fids'
      | None => None
      end
  end.

(** [loadMap] on a file that opens, from its content. *)
Definition loadMap (file : text) (fids : gmap Z (Fiducial D))
    : option (gmap Z (Fiducial D)) :=
  loadMap_lines (read_lines (length file) file) fids.

(** The entries of a [std::map] in the order of iteration. *)
Definition key_le {A : Type} (a b : Z * A) : Prop := fst a <= fst b.

#[global] Instance key_le_dec {A : Type} (a b : Z * A) : Decision (key_le a b) :=
  Z_le_dec (fst a) (fst b).

Definition entries {A : Type} (m : gmap Z A) : list (Z * A) :=
  merge_sort key_le (map_to_list m).

(** A conversion of the format and the blank after it. *)
Definition field (s rest : text) : text := s ++ SP :: rest.

(* fprintf(fp, "%d %lf %lf %lf %lf %lf %lf %lf %d ", ...) *)
Definition fields_text (f : Fiducial D) : text :=
  let trans := getOrigin (pose f) in
  let '(rx, ry, rz) := getRPY (m_basis (pose f)) in
  field (printf_d (id f))
    (field (printf_lf (vx trans))
       (field (printf_lf (vy trans))
          (field (printf_lf (vz trans))
             (field (printf_lf (rad2deg rx))
                (field (printf_lf (rad2deg ry))
                   (field (printf_lf (rad2deg rz))
                      (field (printf_lf (variance f))
                         (field (printf_d (numObs f)) [])))))))).

(* fprintf(fp, "%d ", lit->first), for every link *)
Definition links_text (l : gmap Z Z) : text :=
  concat (map (fun e => field (printf_d (fst e)) []) (entries l)).

(* the body of the loop of saveMap: the text of one record *)
Definition record_line (f : Fiducial D) : text :=
  fields_text f ++ links_text (links f) ++ [NL].

(** What [saveMap] writes to a file that opens. *)
Definition saveMap (fids : gmap Z (Fiducial D)) : text :=
  concat (map (fun e => record_line (snd e)) (entries fids)).

(** A fiducial as it is read back from its record. *)
Definition reloaded (f : Fiducial D) : Fiducial D :=
  let trans := getOrigin (pose f) in
  let '(rx, ry, rz) := getRPY (m_basis (pose f)) in
  mkFiducial (id f) (numObs f)
    (mkTransform
       (mat_setRotation
          (setRPY (deg2rad (reread (rad2deg rx))) (deg2rad (reread (rad2deg ry)))
                  (deg2rad (reread (rad2deg rz)))))
       (mkVector3 (reread (vx trans)) (reread (vy trans)) (reread (vz trans))))
    (reread (variance f))
    ((fun _ => 1) <$> links f).

End Text.

(** A line of the file: no newline but the last character, and short enough
    for the buffer. *)
Definition buffered (line : text) : Prop :=
  exists l, line = l ++ [NL] /\ Forall (fun c => (c =? NL)%char = false) l
            /\ (length line <= BUFSIZE - 2)%nat.

(** The text ahead does not go on with a digit. *)
Definition no_digit_ahead (s : text) : Prop :=
  match s with
  | c :: _ => digit_of_char c = None
  | [] => True
  end.

(** ** The fusion of section 4.3(b), as the specification words it

    The candidates of a frame, in observation order, and their sequential
    pairwise fusion from the first one.  [updatePose] is compared with
    these. *)

Section SequentialFusion.
Context {D : Type} `{Scalar D} `{Rotations D}.

Definition candidate (fids : gmap Z (Fiducial D)) (o : Observation D)
    : option (Transform D * D) :=
  match fids !! fid o with
  | Some f => Some (tmul (pose f) (T_fidCam o), (variance f + objectError o)%D)
  | None => None
  end.

Definition candidates (fids : gmap Z (Fiducial D)) (obs : list (Observation D))
    : list (Transform D * D) :=
  omap (candidate fids) obs.

Definition fuse (acc c : Transform D * D) : Transform D * D :=
  (updateTransform (fst acc) (snd acc) (fst c) (snd c),
   updateVarianceAlexey (snd acc) (snd c)).

Definition sequentialFusion (cs : list (Transform D * D)) : option (Transform D * D) :=
  match cs with
  | [] => None
  | c :: rest => Some (fold_left fuse rest c)
  end.

(** Links point at fiducials of the map, and back. *)
Definition links_symmetric (fids : gmap Z (Fiducial D)) : Prop :=
  forall a b fa,
    fids !! a = Some fa -> is_Some (links fa !! b) ->
    exists fb, fids !! b = Some fb /\ is_Some (links fb !! a).

(** Fiducial [k] is in the map with this pose and this variance. *)
Definition placed (k : Z) (p : Transform D) (v : D) (m : Map D) : Prop :=
  exists f, fiducials m !! k = Some f /\ pose f = p /\ variance f = v.

(** The engine is initialising only with a fiducial in the map: what
    [Map::update] keeps true between frames. *)
Definition settled (m : Map D) : Prop :=
  isInitializingMap m = true -> fiducials m <> ∅.

End SequentialFusion.

(** ** Concrete data: binary64, translations only *)

Section Examples.
#[local] Existing Instance TranslationsOnly.

Definition at_xyz (x y z : Q) : Transform float :=
  mkTransform (D := float) tt (mkVector3 (Q2float x) (Q2float y) (Q2float z)).

(** Fiducial [k] seen at [x] along the first axis, with [objectError = err]. *)
Definition sees (k : Z) (x : Q) (err : Q) : Observation float :=
  mkObservation k (Q2float 0) (Q2float err) (at_xyz x 0 0) (at_xyz (- x) 0 0).

(** Some content for what the program leaves uninitialised. *)
Definition garbage : Fiducial float :=
  mkFiducial (-7) (-7) (at_xyz 9 9 9) (Q2float 9) ∅.

(** A map as the constructor leaves it when there is no map file. *)
Definition Map_new : Map float := mkMap 0 false ∅ (-1) [].

(** Scenario 3: fiducial 1 anchored at the origin, and a frame that sees
    fiducials 1 and 2. *)
Definition anchored_1 : Map float :=
  mkMap 20 false (<[1 := mkFiducial 1 0 (at_xyz 0 0 0) (Q2float 0) ∅]> ∅) 1 [].

Definition frame_1_2 : list (Observation float) :=
  [sees 1 1 (2 # 100); sees 2 3 (2 # 100)].

(** Fiducial 1 with variance 0 and fiducial 2 with variance 1/2; a frame that
    sees both, the first with [objectError = 0]. *)
Definition two_mapped : Map float :=
  mkMap 20 false
    (<[2 := mkFiducial 2 0 (at_xyz 5 0 0) (Q2float (1 # 2)) ∅]>
       (<[1 := mkFiducial 1 0 (at_xyz 0 0 0) (Q2float 0) ∅]> ∅)) 1 [].

Definition frame_exact_1 : list (Observation float) :=
  [sees 1 1 0; sees 2 3 (1 # 100)].

(** Ten frames that see fiducial 0 alone. *)
Definition ten_frames_of_0 : list (list (Observation float)) :=
  repeat [sees 0 1 (1 # 100)] 10.

(** Bootstrap at frame 11, fiducial 0 stored as origin and in the map. *)
Definition bootstrap_11 : Map float :=
  mkMap 11 true (<[0 := Fiducial_new 0 (at_xyz 1 0 0) (Q2float (1 # 100))]> ∅) 0 [].

(** Fiducial 5 at (0.1234567, -2, 0), linked to -2 and 7; fiducial 12
    without links. *)
Definition fiducial_5 : Fiducial float :=
  mkFiducial 5 3 (at_xyz (1234567 # 10000000) (-2) 0) (Q2float (1 # 100))
             (<[7 := 1]> (<[-2 := 1]> ∅)).

Definition fiducial_12 : Fiducial float :=
  mkFiducial 12 0 (at_xyz 1 0 0) (Q2float (1 # 100)) ∅.

Definition only_5 : gmap Z (Fiducial float) := {[5 := fiducial_5]}.
Definition only_12 : gmap Z (Fiducial float) := {[12 := fiducial_12]}.

End Examples.

(** ** Proof tactics *)

(** Two binary64 numbers are different when their decoded forms are
    different constructors or fields. *)
Ltac float_differs :=
  let E := fresh "E" in
  intros E; apply (f_equal Prim2SF) in E; vm_compute in E; discriminate E.

(** A case for each first digit. *)
Ltac by_digit d :=
  destruct d; simpl; try congruence; try reflexivity.

(** ** Signs of binary64 numbers *)

(** Not below zero: a zero or a finite or infinite number without the sign
    bit, or a NaN. *)
Definition not_negative (x : spec_float) : Prop :=
  match x with
  | S754_zero s | S754_infinity s | S754_finite s _ _ => s = false
  | S754_nan => True
  end.

(** ** Notions for the theorems on whole passes and runs *)

Section Notions.
Context {D : Type} `{Scalar D} `{Rotations D}.

(** Every fiducial is stored under its own id. *)
Definition keyed (fids : gmap Z (Fiducial D)) : Prop :=
  forall k f, fids !! k = Some f -> id f = k.

(** Every fiducial of the first collection is in the second one, with the
    id it had. *)
Definition kept (fids fids' : gmap Z (Fiducial D)) : Prop :=
  forall k f, fids !! k = Some f -> exists f', fids' !! k = Some f' /\ id f' = id f.

(** The calls of [saveMap] among what was sent out. *)
Definition is_saveMap (e : event D) : bool :=
  match e with
  | saveMap_called _ => true
  | _ => false
  end.

Definition saves (l : list (event D)) : nat := length (List.filter is_saveMap l).

(** Several things sent out, one after the other. *)
Definition emit_all (l : list (event D)) (m : Map D) : Map D :=
  mkMap (frameNum m) (isInitializingMap m) (fiducials m) (originFid m) (out m ++ l).

(** The warnings of a pass of [updateMap] in which no pair gets past the
    test of its source: one for every pair of observations of different
    fiducials, in the order of the two loops. *)
Definition warnings (obs : list (Observation D)) : list (event D) :=
  flat_map
    (fun o1 =>
       flat_map
         (fun o2 => if fid o1 =? fid o2 then [] else [WARN_no_map_entry (fid o1)])
         obs)
    obs.

(** The observation is of a fiducial of the map: the test of [updatePose]. *)
Definition mapped (fids : gmap Z (Fiducial D)) (o : Observation D) : bool :=
  match fids !! fid o with
  | Some _ => true
  | None => false
  end.

(** The body of the loop of [updatePose] on a candidate: the running
    estimate is replaced while its variance compares equal to 0, and fused
    after that. *)
Definition restart_or_fuse (acc c : Transform D * D) : Transform D * D :=
  if (snd acc ==? dlit 0)%D then c else fuse acc c.

(** The candidates that count: a candidate at the head of the list is
    dropped when its variance compares equal to 0 and another candidate
    follows it, and so on with what is left. *)
Fixpoint restart (cs : list (Transform D * D)) : list (Transform D * D) :=
  match cs with
  | c :: (_ :: _) as rest => if (snd c ==? dlit 0)%D then restart rest else cs
  | _ => cs
  end.

(** *** Map::publishMarker, the line list of the links (map.cpp 661-683)

    The loop over [fid.links]: the ids for which two points are pushed, and
    the points. *)
Definition links_drawn (fids : gmap Z (Fiducial D)) (f : Fiducial D) : list Z :=
  omap
    (fun e : Z * Z =>
       let ofid := fst e in
       (* only draw links in one direction *)
       if id f <? ofid then
         match fids !! ofid with
         | Some _ => Some ofid
         | None => None
         end
       else None)
    (entries (links f)).

Definition links_points (fids : gmap Z (Fiducial D)) (f : Fiducial D)
    : list (Vector3 D) :=
  flat_map
    (fun ofid =>
       match fids !! ofid with
       | Some g => [getOrigin (pose f); getOrigin (pose g)]
       | None => []
       end)
    (links_drawn fids f).

End Notions.

(** *** Map::Map (map.cpp 187-209)

    The state the constructor leaves: the counters and the mode set, and the
    collection loaded from the one file it names, which is left empty when
    the file does not open ([loadMap] returns false).  [None] when [stoi]
    throws while the file is read.  The publishers and [publishMarkers] are
    left out. *)
Definition Map_construct {D : Type} `{Scalar D} `{ScalarText D} `{Rotations D}
    (indeterminate : Fiducial D) (file : option text) : option (Map D) :=
  match file with
  | None => Some (mkMap 0 false ∅ (-1) [])
  | Some content =>
      match loadMap indeterminate content ∅ with
      | Some fids => Some (mkMap 0 false fids (-1) [])
      | None => None
      end
  end.

(** ** The numbers of binary64

    What a [double] stands for, as a real number, to measure how far the
    result of a computation in binary64 is from the number it is meant to
    be. *)

Definition bpow (e : Z) : R := powerRZ 2 e.
Arguments bpow : simpl never.

(** The number a [spec_float] stands for; 0 for what is not a number. *)
Definition SF2R (x : spec_float) : R :=
  match x with
  | S754_finite s m e => (IZR (cond_Zopp s (Zpos m)) * bpow e)%R
  | _ => 0%R
  end.

Definition value (x : float) : R := SF2R (Prim2SF x).

(** Zero or a finite number: not an infinity, not a NaN. *)
Definition is_finite (x : float) : bool :=
  match Prim2SF x with
  | S754_zero _ | S754_finite _ _ _ => true
  | _ => false
  end.

(** A normal number of sign [s] and magnitude [a]: one whose mantissa has
    all its 53 digits. *)
Definition normal (x : float) (s : bool) (a : R) : Prop :=
  exists m e,
    Prim2SF x = S754_finite s m e /\ digits2_pos m = 53%positive /\
    a = (IZR (Zpos m) * bpow e)%R.

(** [x] is [X] up to the relative error [e]. *)
Definition rel (e x X : R) : Prop := (Rabs (x - X) <= e * X)%R.


(** Zero, or a number of magnitude between [2 ^ -500] and [2 ^ 500]. *)
Definition in_range (x : float) : Prop :=
  is_finite x = true /\
  (value x = 0 \/ bpow (-500) <= Rabs (value x) <= bpow 500)%R.

(** The mean of [x1] and [x2], the first weighted by [v2] and the second by
    [v1]. *)
Definition weighted_mean (x1 x2 v1 v2 : R) : R := ((x2 * v1 + x1 * v2) / (v1 + v2))%R.

(** [r] is the weighted mean of [x1] and [x2] up to rounding: if the two
    are numbers of the same sign and of magnitude between [2 ^ -400] and
    [2 ^ 400], then [r] is a number within the relative error [2 ^ -49] of
    their weighted mean, which lies between them. *)
Definition mean_close (x1 x2 v1 v2 r : float) : Prop :=
  ((0 < value x1 /\ 0 < value x2) \/ (value x1 < 0 /\ value x2 < 0))%R ->
  (bpow (-400) <= Rabs (value x1) <= bpow 400)%R ->
  (bpow (-400) <= Rabs (value x2) <= bpow 400)%R ->
  let w := weighted_mean (value x1) (value x2) (value v1) (value v2) in
  is_finite r = true /\
  (Rabs (value r - w) <= bpow (-49) * Rabs w)%R /\
  (Rmin (value x1) (value x2) <= w <= Rmax (value x1) (value x2))%R.

(** [x'] is what [%lf] gives back for [x]: if [x] is a number of magnitude
    at most [2 ^ 52], then [x'] is a number, and it is at most 0.0000005 and
    a relative [2 ^ -51] from [x]. *)
Definition text_close (x x' : float) : Prop :=
  is_finite x = true -> (Rabs (value x) <= bpow 52)%R ->
  is_finite x' = true /\
  (Rabs (value x' - value x) <= 5 / 10000000 + bpow (-51) * Rabs (value x))%R.

(** [a'] is the angle [a] up to the round trip through degrees: if [a] is
    zero or of magnitude between [2 ^ -500] and 4, then [a'] is a number at
    most 0.00000001 from [a]. *)
Definition angle_close (a a' : float) : Prop :=
  in_range a -> (Rabs (value a) <= 4)%R ->
  is_finite a' = true /\ (Rabs (value a' - value a) <= 1 / 100000000)%R.

(** The fiducial [g] is the fiducial [f] up to the text of the map file:
    the same id, observation count and linked ids; the translation and the
    variance up to six digits after the point; and the rotation tf2 builds
    from the roll, pitch and yaw of the rotation of [f], each up to the
    round trip through degrees. *)
Definition same_up_to_text `{Rotations float} (f g : Fiducial float) : Prop :=
  id g = id f /\
  numObs g = numObs f /\
  (forall k, is_Some (links g !! k) <-> is_Some (links f !! k)) /\
  text_close (vx (getOrigin (pose f))) (vx (getOrigin (pose g))) /\
  text_close (vy (getOrigin (pose f))) (vy (getOrigin (pose g))) /\
  text_close (vz (getOrigin (pose f))) (vz (getOrigin (pose g))) /\
  text_close (variance f) (variance g) /\
  exists rx ry rz rx' ry' rz',
    getRPY (m_basis (pose f)) = (rx, ry, rz) /\
    m_basis (pose g) = mat_setRotation (setRPY rx' ry' rz') /\
    angle_close rx rx' /\ angle_close ry ry' /\ angle_close rz rz'.

(** ** More concrete data *)

Section MoreExamples.
#[local] Existing Instance TranslationsOnly.

(** Fiducials 1 and 2 in the map, neither anchored. *)
Definition two_unanchored : Map float :=
  mkMap 20 false
    (<[2 := mkFiducial 2 4 (at_xyz 5 0 0) (Q2float (1 # 2)) ∅]>
       (<[1 := mkFiducial 1 3 (at_xyz 0 0 0) (Q2float (1 # 4)) ∅]> ∅)) 1 [].

(** A frame that sees fiducials 1 and 2 and a fiducial that is new, and the
    collection [saveMap] is called with during that frame. *)
Definition frame_1_2_3 : list (Observation float) :=
  [sees 1 1 (2 # 100); sees 2 3 (2 # 100); sees 3 4 (2 # 100)].

Definition saved_by_engine : gmap Z (Fiducial float) :=
  match out (updateMap garbage frame_1_2_3 two_unanchored) with
  | saveMap_called fids :: _ => fids
  | _ => ∅
  end.

(** Fiducials 1 and 2 linked to each other. *)
Definition linked_1 : Fiducial float :=
  mkFiducial 1 3 (at_xyz 0 0 0) (Q2float (1 # 4)) (<[2 := 1]> ∅).

Definition linked_2 : Fiducial float :=
  mkFiducial 2 4 (at_xyz 5 0 0) (Q2float (1 # 2)) (<[1 := 1]> ∅).

Definition linked_pair : gmap Z (Fiducial float) :=
  <[2 := linked_2]> (<[1 := linked_1]> ∅).

(** A fiducial entered with variance 0. *)
Definition exact_0 : Fiducial float := Fiducial_new 0 (at_xyz 1 0 0) (Q2float 0).

(** Fiducial 5 with a variance of one part in ten millions. *)
Definition fiducial_5_tight : Fiducial float :=
  mkFiducial 5 3 (at_xyz 1 0 0) (Q2float (1 # 10000000)) (<[7 := 1]> ∅).

(** A pose with three coordinates of different kinds, and a variance. *)
Definition pose_tenth : Transform float := at_xyz (1 # 10) 0 (-3).

Definition one_in_300 : float := Q2float (1 # 300).



(** A second pose, whose coordinates have the signs of those of
    [pose_tenth], and a second variance. *)
Definition pose_third : Transform float := at_xyz (3 # 10) 0 (-1).

Definition one_quarter : float := Q2float (1 # 4).

(** Fiducial 5, which has links, and fiducial 12, which has none. *)
Definition saved_5_12 : gmap Z (Fiducial float) := <[12 := fiducial_12]> only_5.

End MoreExamples.

(** The entries of a map written out as insertions, one case each. *)
Ltac by_entries H :=
  repeat (apply lookup_insert_Some in H as [[<- <-]|[_ H]]; [reflexivity|]);
  try (apply lookup_singleton_Some in H as [<- <-]; reflexivity);
  try (rewrite lookup_empty in H; discriminate H).

(** A zero of either sign, or a NaN: what a product with a zero is. *)
Definition zero_or_nan (x : spec_float) : Prop :=
  match x with
  | S754_zero _ | S754_nan => True
  | _ => False
  end.

(** * Theorems *)

(** ** Bootstrap: findClosestObs and autoInit *)

(** C1 (code bug).  [findClosestObs] measures [obs[0]] in every round of its
    loop, so the index it returns does not depend on the distances: with a
    farther fiducial 1 first and a nearer fiducial 2 second it returns index
    0, and [autoInit] makes the farther fiducial 1 the first entry of the
    map. *)
Theorem findClosestObs_measures_first_only :
  let far := sees 1 2 (1 # 100) in
  let near := sees 2 1 (1 # 100) in
  (length2 (getOrigin (T_camFid near)) <? length2 (getOrigin (T_camFid far)))%D = true /\
  findClosestObs [far; near] = 0 /\
  exists m,
    autoInit garbage [far; near] Map_new = Returned m /\
    fiducials m !! 1 = Some (Fiducial_new 1 (T_fidCam far) (objectError far)) /\
    fiducials m !! 2 = None.
Proof.
  cbv zeta. split; [reflexivity|]. split; [reflexivity|].
  eexists. split; [vm_compute; reflexivity|]. split; reflexivity.
Qed.

Section Bootstrap.
Context {D : Type} `{Scalar D} `{Rotations D}.
Variable indeterminate : Fiducial D.

Lemma findClosestObs_nil : findClosestObs (D := D) [] = -1.
Proof. reflexivity. Qed.

(** Whatever follows the first observation, the index returned is 0, for
    scalars in which -1 is below 0 and the squared distance of the first
    observation is neither below 0 nor below itself. *)
Lemma findClosestObs_first_index (o : Observation D) (rest : list (Observation D)) :
  (dlit (-1 # 1) <? dlit 0)%D = true ->
  (length2 (getOrigin (T_camFid o)) <? dlit 0)%D = false ->
  (length2 (getOrigin (T_camFid o)) <? length2 (getOrigin (T_camFid o)))%D = false ->
  findClosestObs (o :: rest) = 0.
Proof.
  intros Hneg Hd0 Hdd. unfold findClosestObs.
  cbn [length seq fold_left lookup list_lookup]. rewrite Hneg. cbn [orb].
  set (d := length2 (getOrigin (T_camFid o))) in *.
  generalize (seq 1 (length rest)). intros l.
  induction l as [|i l IH]; [reflexivity|].
  cbn [fold_left]. rewrite Hd0, Hdd. exact IH.
Qed.

(** [autoInit] called on its own with an empty map and no observation logs
    its warning and goes on to read [obs[-1]].  [Map::update] does not make
    that call: see [empty_frame_on_empty_map]. *)
Lemma autoInit_nothing_seen_reads_outside
    (n : Z) (b : bool) (k : Z) (o : list (event D)) :
  autoInit indeterminate [] (mkMap n b ∅ k o)
  = OutOfRange (mkMap n b ∅ (-1) (o ++ [WARN_no_fiducial_to_init])) (-1).
Proof. reflexivity. Qed.

Lemma autoInit_origin_frameNum (obs : list (Observation D)) (m m1 : Map D) :
  autoInit_origin indeterminate obs m = Returned m1 -> frameNum m1 = frameNum m.
Proof.
  unfold autoInit_origin. intros Hr.
  destruct (size (fiducials m) =? 0)%nat.
  - destruct (obs_at obs _); [|discriminate].
    injection Hr as <-. simpl. now destruct (findClosestObs obs =? -1).
  - destruct obs as [|o rest]; [now injection Hr as <-|].
    destruct (fid o =? originFid m); now injection Hr as <-.
Qed.

Lemma anchor_rounds_keep (obs l : list (Observation D)) (m : Map D) :
  originFid (fold_left (anchor_round indeterminate obs) l m) = originFid m /\
  isInitializingMap (fold_left (anchor_round indeterminate obs) l m) = isInitializingMap m.
Proof.
  revert m. induction l as [|x l IH]; intros m; [easy|].
  simpl. destruct (IH (anchor_round indeterminate obs m x)) as [-> ->].
  unfold anchor_round. destruct (obs !! 0%nat) as [o|]; [|easy].
  now destruct (fid o =? originFid m).
Qed.

Lemma anchor_rounds_not_seen (obs l : list (Observation D)) (m : Map D) :
  (forall o, obs !! 0%nat = Some o -> fid o <> originFid m) ->
  fiducials (fold_left (anchor_round indeterminate obs) l m) = fiducials m.
Proof.
  revert m. induction l as [|x l IH]; intros m Hno; [easy|].
  simpl.
  assert (E : anchor_round indeterminate obs m x = m).
  { unfold anchor_round. destruct (obs !! 0%nat) as [o|] eqn:Ho; [|easy].
    destruct (Z.eqb_spec (fid o) (originFid m)) as [Heq|]; [|easy].
    now destruct (Hno o eq_refl). }
  rewrite E. now apply IH.
Qed.

Lemma anchor_rounds_seen (obs l : list (Observation D)) (m : Map D) (o : Observation D) :
  obs !! 0%nat = Some o -> fid o = originFid m ->
  (exists f, fiducials m !! originFid m = Some f /\ variance f = dlit 0) \/ l <> [] ->
  exists f, fiducials (fold_left (anchor_round indeterminate obs) l m) !! originFid m = Some f
            /\ variance f = dlit 0.
Proof.
  intros Ho. revert m. induction l as [|x l IH]; intros m Hfid Hm.
  - destruct Hm as [Hm|Hm]; [exact Hm|congruence].
  - simpl.
    assert (E : originFid (anchor_round indeterminate obs m x) = originFid m).
    { unfold anchor_round. rewrite Ho. now destruct (fid o =? originFid m). }
    rewrite <- E. apply IH; [congruence|]. left.
    unfold anchor_round. rewrite Ho, Hfid, Z.eqb_refl. simpl.
    rewrite lookup_insert_eq. eexists. split; [reflexivity|reflexivity].
Qed.

(** C2 (amended).  In a call of [autoInit] with [frameNum > 10] that returns,
    the mode is switched to tracking whatever was seen; the fiducial stored
    as origin gets variance 0 when the first observation of the frame is of
    it; and when no observation of the frame is of it, the anchoring part
    changes no fiducial. *)
Theorem autoInit_after_frame_10 (obs : list (Observation D)) (m m' : Map D) :
  10 < frameNum m ->
  autoInit indeterminate obs m = Returned m' ->
  isInitializingMap m' = false /\
  (forall o rest, obs = o :: rest -> fid o = originFid m' ->
     exists f, fiducials m' !! originFid m' = Some f /\ variance f = dlit 0) /\
  ((forall o, In o obs -> fid o <> originFid m') ->
     forall m1, autoInit_origin indeterminate obs m = Returned m1 ->
                fiducials m' = fiducials m1).
Proof.
  intros Hn Hr. unfold autoInit in Hr.
  destruct (autoInit_origin indeterminate obs m) as [m1|] eqn:Ho; [|discriminate].
  injection Hr as <-.
  unfold autoInit_anchor. rewrite (autoInit_origin_frameNum _ _ _ Ho).
  apply Z.ltb_lt in Hn. rewrite Hn.
  destruct (anchor_rounds_keep obs obs (set_isInitializingMap false m1)) as [Ek Ei].
  rewrite Ek. simpl. split; [now rewrite Ei|]. split.
  - intros o rest -> Hfid.
    apply (anchor_rounds_seen (o :: rest) (o :: rest) (set_isInitializingMap false m1) o);
      [reflexivity|exact Hfid|now right].
  - intros Hno m2 [= <-].
    rewrite anchor_rounds_not_seen; [reflexivity|].
    intros o Hlook. apply Hno. destruct obs as [|o0 rest]; [discriminate|].
    injection Hlook as ->. now left.
Qed.

End Bootstrap.

(** *** The squared distance in binary64 is never below zero *)

Lemma binary_round_aux_sign (m e : Z) (l : location) :
  not_negative (binary_round_aux prec emax false m e l).
Proof.
  unfold binary_round_aux.
  destruct (shr_fexp prec emax m e l) as [mrs e'].
  destruct (shr_fexp prec emax _ e' loc_Exact) as [mrs' e''].
  destruct (shr_m mrs') as [|p|p]; simpl; [reflexivity| |exact I].
  destruct (e'' <=? emax - prec); reflexivity.
Qed.

Lemma SFmul_square_sign (x : spec_float) : not_negative (SFmul prec emax x x).
Proof.
  destruct x as [s|s| |s m e]; simpl; try (now destruct s); try exact I.
  rewrite xorb_nilpotent. apply binary_round_aux_sign.
Qed.

Lemma SFadd_sign (x y : spec_float) :
  not_negative x -> not_negative y -> not_negative (SFadd prec emax x y).
Proof.
  destruct x as [sx|sx| |sx mx ex], y as [sy|sy| |sy my ey]; simpl;
    intros Hx Hy; subst; try reflexivity; try exact I.
  unfold binary_normalize, binary_round.
  destruct (shl_align mx ex (Z.min ex ey)) as [mx' ex'].
  destruct (shl_align my ey (Z.min ex ey)) as [my' ey']. simpl.
  destruct (shl_align _ _ _) as [mz ez]. apply binary_round_aux_sign.
Qed.

Lemma not_negative_ltb_zero (x : float) :
  not_negative (Prim2SF x) -> PrimFloat.ltb x (Q2float 0) = false.
Proof.
  intros Hx. rewrite FloatAxioms.ltb_spec.
  destruct (Prim2SF x) as [s|s| |s m e]; simpl in Hx; subst; reflexivity.
Qed.

Lemma SFcompare_refl (x : spec_float) :
  SFcompare x x = None \/ SFcompare x x = Some Eq.
Proof.
  destruct x as [s|s| |s m e]; simpl; auto; right.
  - now destruct s.
  - destruct s; rewrite Z.compare_refl; fold (Pos.compare m m);
      now rewrite Pos.compare_refl.
Qed.

Lemma ltb_irrefl (x : float) : PrimFloat.ltb x x = false.
Proof.
  rewrite FloatAxioms.ltb_spec. unfold SFltb.
  now destruct (SFcompare_refl (Prim2SF x)) as [-> | ->].
Qed.

Lemma length2_not_negative (v : Vector3 float) :
  PrimFloat.ltb (length2 v) (Q2float 0) = false.
Proof.
  apply not_negative_ltb_zero. unfold length2. simpl.
  rewrite !FloatAxioms.add_spec, !FloatAxioms.mul_spec.
  repeat apply SFadd_sign; apply SFmul_square_sign.
Qed.

(** X1.  In binary64 [findClosestObs] returns index 0 for every vector of
    observations that is not empty, whatever the distances are. *)
Theorem findClosestObs_binary64 `{Rotations float}
    (o : Observation float) (rest : list (Observation float)) :
  findClosestObs (o :: rest) = 0.
Proof.
  apply findClosestObs_first_index.
  - reflexivity.
  - apply length2_not_negative.
  - apply ltb_irrefl.
Qed.

(** C2 (witness): bootstrap at frame 11 with the origin, fiducial 0, seen
    first. *)
Lemma autoInit_after_frame_10_witness :
  10 < frameNum bootstrap_11 /\
  exists m',
    autoInit garbage [sees 0 1 (1 # 100)] bootstrap_11 = Returned m' /\
    isInitializingMap m' = false /\
    exists f, fiducials m' !! originFid m' = Some f /\ variance f = Q2float 0.
Proof.
  assert (Hn : 10 < frameNum bootstrap_11) by reflexivity.
  split; [exact Hn|].
  eexists. split; [vm_compute; reflexivity|].
  match goal with
  | |- isInitializingMap ?m' = _ /\ _ =>
      destruct (autoInit_after_frame_10 garbage [sees 0 1 (1 # 100)] bootstrap_11 m' Hn)
        as (Hmode & Hseen & _); [vm_compute; reflexivity|]
  end.
  split; [exact Hmode|].
  exact (Hseen _ _ eq_refl eq_refl).
Defined.

(** C2 (counterexample).  Fiducial 0 is seen alone for ten frames, so it is
    the origin and the engine is still initialising; frame 11 sees nothing.
    That frame switches the mode to tracking and leaves the variance of the
    origin as it was, not 0. *)
Lemma origin_not_anchored_when_out_of_view :
  exists m10 m11 f,
    run garbage ten_frames_of_0 Map_new = Returned m10 /\
    isInitializingMap m10 = true /\ originFid m10 = 0 /\
    update garbage [] m10 = Returned m11 /\
    frameNum m11 = 11 /\ isInitializingMap m11 = false /\
    fiducials m11 !! originFid m11 = Some f /\
    (variance f ==? dlit 0)%D = false.
Proof.
  do 3 eexists.
  split; [vm_compute; reflexivity|].
  split; [reflexivity|]. split; [reflexivity|].
  split; [vm_compute; reflexivity|].
  split; [reflexivity|]. split; [reflexivity|].
  split; [vm_compute; reflexivity|].
  vm_compute; reflexivity.
Qed.

(** ** Tracking: updateMap *)

Section UpdateMap.
Context {D : Type} `{Scalar D} `{Rotations D}.
Variable indeterminate : Fiducial D.

Lemma fold_left_invariant {A B : Type} (P : A -> Prop) (f : A -> B -> A)
    (l : list B) (a : A) :
  (forall a b, P a -> P (f a b)) -> P a -> P (fold_left f l a).
Proof.
  intros Hf. revert a. induction l as [|b l IH]; intros a Ha; [exact Ha|].
  simpl. apply IH, Hf, Ha.
Qed.

Lemma updateMap_invariant (P : Map D -> Prop) (obs : list (Observation D)) (m : Map D) :
  (forall o1 o2 m, P m -> P (updateMap_pair indeterminate o1 o2 m)) ->
  P m -> P (updateMap indeterminate obs m).
Proof.
  intros Hstep Hm. unfold updateMap.
  apply fold_left_invariant; [|exact Hm].
  intros m1 o1 Hm1. apply fold_left_invariant; [|exact Hm1].
  intros m2 o2. apply Hstep.
Qed.

(** The three ways a pair is passed over. *)
Lemma updateMap_pair_same (o1 o2 : Observation D) (m : Map D) :
  fid o1 = fid o2 -> updateMap_pair indeterminate o1 o2 m = m.
Proof. intros E. unfold updateMap_pair. now rewrite E, Z.eqb_refl. Qed.

Lemma updateMap_pair_unknown_source (o1 o2 : Observation D) (m : Map D) :
  fid o1 <> fid o2 -> fiducials m !! fid o1 = None ->
  updateMap_pair indeterminate o1 o2 m = emit (WARN_no_map_entry (fid o1)) m.
Proof.
  intros Hne E. unfold updateMap_pair.
  apply Z.eqb_neq in Hne. now rewrite Hne, E.
Qed.

Lemma updateMap_pair_anchored_dest (o1 o2 : Observation D) (m : Map D) (f1 f2 : Fiducial D) :
  fid o1 <> fid o2 -> fiducials m !! fid o1 = Some f1 ->
  fiducials m !! fid o2 = Some f2 -> (variance f2 ==? dlit 0)%D = true ->
  updateMap_pair indeterminate o1 o2 m = m.
Proof.
  intros Hne E1 E2 Hz. unfold updateMap_pair.
  apply Z.eqb_neq in Hne. now rewrite Hne, E1, E2, Hz.
Qed.

(** The two ways a pair is processed. *)
Lemma updateMap_pair_insert (o1 o2 : Observation D) (m : Map D) (f1 : Fiducial D) :
  fid o1 <> fid o2 -> fiducials m !! fid o1 = Some f1 ->
  fiducials m !! fid o2 = None ->
  fiducials (updateMap_pair indeterminate o1 o2 m)
  = <[fid o2 :=
        Fiducial_new (fid o2)
          (tmul (pose f1) (tmul (T_fidCam o1) (T_camFid o2)))
          (objectError o1 + objectError o2 + dmax (variance f1) (dlit (10 # 100000)))%D]>
      (fiducials m).
Proof.
  intros Hne E1 E2. unfold updateMap_pair.
  apply Z.eqb_neq in Hne. now rewrite Hne, E1, E2.
Qed.

Lemma updateMap_pair_fuse (o1 o2 : Observation D) (m : Map D) (f1 f2 : Fiducial D) :
  fid o1 <> fid o2 -> fiducials m !! fid o1 = Some f1 ->
  fiducials m !! fid o2 = Some f2 -> (variance f2 ==? dlit 0)%D = false ->
  fiducials (updateMap_pair indeterminate o1 o2 m)
  = <[fid o1 := add_link (fid o2) f1]>
      (<[fid o2 :=
           set_numObs (numObs f2 + 1 + 1)
             (add_link (fid o1)
                (Fiducial_update f2
                   (tmul (pose f1) (tmul (T_fidCam o1) (T_camFid o2)))
                   (objectError o1 + objectError o2
                    + dmax (variance f1) (dlit (10 # 100000)))%D))]>
         (fiducials m)).
Proof.
  intros Hne E1 E2 Hz. unfold updateMap_pair.
  pose proof Hne as Hne'. apply Z.eqb_neq in Hne'. rewrite Hne', E1, E2, Hz. simpl.
  unfold fiducials_at. rewrite lookup_insert_ne by congruence. now rewrite E1.
Qed.

(** C3 (amended).  For a pair that is not passed over, the variance that goes
    with the candidate pose is
    [o1.objectError + o2.objectError + max(variance of fiducial 1, 10e-5)]:
    a new fiducial 2 is entered with that pose and that variance, and a
    known one is fused with them as the incoming estimate. *)
Theorem updateMap_pair_candidate_variance
    (o1 o2 : Observation D) (m : Map D) (f1 : Fiducial D) :
  fid o1 <> fid o2 ->
  fiducials m !! fid o1 = Some f1 ->
  let candidatePose := tmul (pose f1) (tmul (T_fidCam o1) (T_camFid o2)) in
  let candidateVariance :=
    (objectError o1 + objectError o2 + dmax (variance f1) (dlit (10 # 100000)))%D in
  match fiducials m !! fid o2 with
  | None =>
      fiducials (updateMap_pair indeterminate o1 o2 m) !! fid o2
      = Some (Fiducial_new (fid o2) candidatePose candidateVariance)
  | Some f2 =>
      (variance f2 ==? dlit 0)%D = false ->
      exists f2',
        fiducials (updateMap_pair indeterminate o1 o2 m) !! fid o2 = Some f2' /\
        pose f2' = updateTransform (pose f2) (variance f2) candidatePose candidateVariance /\
        variance f2' = updateVarianceAlexey (variance f2) candidateVariance
  end.
Proof.
  intros Hne E1 cp cv. destruct (fiducials m !! fid o2) as [f2|] eqn:E2.
  - intros Hz. rewrite (updateMap_pair_fuse o1 o2 m f1 f2 Hne E1 E2 Hz).
    rewrite lookup_insert_ne by congruence. rewrite lookup_insert_eq.
    eexists. split; [reflexivity|]. split; reflexivity.
  - rewrite (updateMap_pair_insert o1 o2 m f1 Hne E1 E2).
    now rewrite lookup_insert_eq.
Qed.

End UpdateMap.

(** C3 (witness): scenario 3, fiducial 2 entered from the anchored
    fiducial 1. *)
Lemma updateMap_pair_candidate_variance_witness :
  let o1 := sees 1 1 (2 # 100) in
  let o2 := sees 2 3 (2 # 100) in
  let f1 := mkFiducial 1 0 (at_xyz 0 0 0) (Q2float 0) ∅ in
  fid o1 <> fid o2 /\
  fiducials anchored_1 !! fid o1 = Some f1 /\
  fiducials (updateMap_pair garbage o1 o2 anchored_1) !! fid o2
  = Some (Fiducial_new 2 (tmul (pose f1) (tmul (T_fidCam o1) (T_camFid o2)))
            (objectError o1 + objectError o2 + dmax (variance f1) (dlit (10 # 100000)))%D).
Proof.
  cbv zeta.
  assert (Hne : fid (sees 1 1 (2 # 100)) <> fid (sees 2 3 (2 # 100))) by discriminate.
  assert (E1 : fiducials anchored_1 !! fid (sees 1 1 (2 # 100))
               = Some (mkFiducial 1 0 (at_xyz 0 0 0) (Q2float 0) ∅)) by reflexivity.
  split; [exact Hne|]. split; [exact E1|].
  exact (updateMap_pair_candidate_variance garbage _ _ _ _ Hne E1).
Defined.

(** C3 (counterexample).  Scenario 3: fiducial 1 has variance 0, both
    observations have [objectError = 0.02].  Fiducial 2 is entered with
    variance [0.02 + 0.02 + 0.0001], which is not
    [0.02 + 0.02 + max(0, 0.00001)]: the literal [10e-5] is 0.0001. *)
Lemma candidate_variance_floor_is_not_1e_5 :
  exists f1 f2,
    fiducials anchored_1 !! 1 = Some f1 /\
    fiducials (updateMap garbage frame_1_2 anchored_1) !! 2 = Some f2 /\
    variance f2 = (Q2float (2 # 100) + Q2float (2 # 100) + Q2float (1 # 10000))%float /\
    variance f2
    <> (Q2float (2 # 100) + Q2float (2 # 100)
        + dmax (variance f1) (Q2float (1 # 100000)))%float.
Proof.
  do 2 eexists.
  split; [reflexivity|]. split; [vm_compute; reflexivity|].
  split; [vm_compute; reflexivity|]. float_differs.
Qed.

Section Links.
Context {D : Type} `{Scalar D} `{Rotations D}.
Variable indeterminate : Fiducial D.

Lemma links_symmetric_insert_new (fids : gmap Z (Fiducial D)) (k : Z) (f : Fiducial D) :
  fids !! k = None -> links f = ∅ ->
  links_symmetric fids -> links_symmetric (<[k := f]> fids).
Proof.
  intros Hk Hf Hs a b fa Ha [v Hb].
  destruct (decide (a = k)) as [->|Hak].
  - rewrite lookup_insert_eq in Ha. injection Ha as <-.
    rewrite Hf, lookup_empty in Hb. discriminate.
  - rewrite lookup_insert_ne in Ha by congruence.
    destruct (Hs a b fa Ha (ex_intro _ v Hb)) as (fb & Hfb & Hback).
    exists fb. split; [|exact Hback].
    rewrite lookup_insert_ne; [exact Hfb|]. intros <-. congruence.
Qed.

(** Entries that keep their links or gain some, the two ends of the new link
    gaining each other. *)
Lemma links_symmetric_link (fids : gmap Z (Fiducial D)) (k1 k2 : Z)
    (f1 f2 g1 g2 : Fiducial D) :
  k1 <> k2 ->
  fids !! k1 = Some f1 -> fids !! k2 = Some f2 ->
  links g1 = <[k2 := 1]> (links f1) -> links g2 = <[k1 := 1]> (links f2) ->
  links_symmetric fids ->
  links_symmetric (<[k1 := g1]> (<[k2 := g2]> fids)).
Proof.
  intros Hne E1 E2 L1 L2 Hs a b fa Ha Hb.
  assert (Hold : forall c fc, fids !! c = Some fc -> is_Some (links fc !! a) ->
                 exists fc', <[k1 := g1]> (<[k2 := g2]> fids) !! c = Some fc'
                             /\ is_Some (links fc' !! a)).
  { intros c fc Hc Hca.
    destruct (decide (c = k1)) as [->|Hc1].
    - exists g1. rewrite lookup_insert_eq. split; [reflexivity|].
      rewrite L1. assert (fc = f1) as -> by congruence.
      destruct (decide (k2 = a)) as [->|]; [rewrite lookup_insert_eq; eauto|].
      now rewrite lookup_insert_ne.
    - rewrite lookup_insert_ne by congruence.
      destruct (decide (c = k2)) as [->|Hc2].
      + exists g2. rewrite lookup_insert_eq. split; [reflexivity|].
        rewrite L2. assert (fc = f2) as -> by congruence.
        destruct (decide (k1 = a)) as [->|]; [rewrite lookup_insert_eq; eauto|].
        now rewrite lookup_insert_ne.
      + rewrite lookup_insert_ne by congruence. eauto. }
  destruct (decide (a = k1)) as [->|Ha1].
  - rewrite lookup_insert_eq in Ha. injection Ha as <-. rewrite L1 in Hb.
    destruct (decide (b = k2)) as [->|Hb2].
    + exists g2. rewrite lookup_insert_ne by congruence. rewrite lookup_insert_eq.
      split; [reflexivity|]. rewrite L2, lookup_insert_eq. eauto.
    + rewrite lookup_insert_ne in Hb by congruence.
      destruct (Hs k1 b f1 E1 Hb) as (fb & Hfb & Hback). eauto.
  - rewrite lookup_insert_ne in Ha by congruence.
    destruct (decide (a = k2)) as [->|Ha2].
    + rewrite lookup_insert_eq in Ha. injection Ha as <-. rewrite L2 in Hb.
      destruct (decide (b = k1)) as [->|Hb1].
      * exists g1. rewrite lookup_insert_eq.
        split; [reflexivity|]. rewrite L1, lookup_insert_eq. eauto.
      * rewrite lookup_insert_ne in Hb by congruence.
        destruct (Hs k2 b f2 E2 Hb) as (fb & Hfb & Hback). eauto.
    + rewrite lookup_insert_ne in Ha by congruence.
      destruct (Hs a b fa Ha Hb) as (fb & Hfb & Hback). eauto.
Qed.

(** C4 (amended).  A pair that is processed keeps link symmetry.  When
    fiducial 2 was in the map (the fuse outcome) each of the two fiducials
    has the other in its links afterwards.  When fiducial 2 is new (the
    insert outcome) it is entered with no link and fiducial 1 is left as it
    was. *)
Theorem updateMap_pair_links (o1 o2 : Observation D) (m : Map D) (f1 : Fiducial D) :
  fid o1 <> fid o2 ->
  fiducials m !! fid o1 = Some f1 ->
  links_symmetric (fiducials m) ->
  let m' := updateMap_pair indeterminate o1 o2 m in
  links_symmetric (fiducials m') /\
  (forall f2, fiducials m !! fid o2 = Some f2 -> (variance f2 ==? dlit 0)%D = false ->
     exists f1' f2',
       fiducials m' !! fid o1 = Some f1' /\ fiducials m' !! fid o2 = Some f2' /\
       is_Some (links f1' !! fid o2) /\ is_Some (links f2' !! fid o1)) /\
  (fiducials m !! fid o2 = None ->
     exists f2',
       fiducials m' !! fid o2 = Some f2' /\ links f2' = ∅ /\
       fiducials m' !! fid o1 = Some f1).
Proof.
  intros Hne E1 Hs m'. subst m'.
  destruct (fiducials m !! fid o2) as [f2|] eqn:E2.
  - destruct (variance f2 ==? dlit 0)%D eqn:Hz.
    + rewrite (updateMap_pair_anchored_dest indeterminate o1 o2 m f1 f2 Hne E1 E2 Hz).
      split; [exact Hs|]. split; [|discriminate].
      intros ? [= <-] Hz'. congruence.
    + rewrite (updateMap_pair_fuse indeterminate o1 o2 m f1 f2 Hne E1 E2 Hz).
      split; [|split; [|discriminate]].
      * eapply links_symmetric_link; eauto.
      * intros ? [= <-] _. do 2 eexists.
        rewrite lookup_insert_eq. rewrite lookup_insert_ne by congruence.
        rewrite lookup_insert_eq. split; [reflexivity|]. split; [reflexivity|].
        simpl. rewrite !lookup_insert_eq. eauto.
  - rewrite (updateMap_pair_insert indeterminate o1 o2 m f1 Hne E1 E2).
    split; [|split; [discriminate|]].
    + apply links_symmetric_insert_new; [exact E2|reflexivity|exact Hs].
    + intros _. eexists. rewrite lookup_insert_eq.
      split; [reflexivity|]. split; [reflexivity|].
      now rewrite lookup_insert_ne by congruence.
Qed.

(** Link symmetry is kept by every pair, processed or passed over. *)
Lemma updateMap_pair_links_symmetric (o1 o2 : Observation D) (m : Map D) :
  links_symmetric (fiducials m) ->
  links_symmetric (fiducials (updateMap_pair indeterminate o1 o2 m)).
Proof.
  intros Hs.
  destruct (decide (fid o1 = fid o2)) as [E|Hne].
  { now rewrite updateMap_pair_same. }
  destruct (fiducials m !! fid o1) as [f1|] eqn:E1.
  2:{ now rewrite updateMap_pair_unknown_source. }
  destruct (fiducials m !! fid o2) as [f2|] eqn:E2.
  - destruct (variance f2 ==? dlit 0)%D eqn:Hz.
    + now rewrite (updateMap_pair_anchored_dest indeterminate o1 o2 m f1 f2).
    + rewrite (updateMap_pair_fuse indeterminate o1 o2 m f1 f2 Hne E1 E2 Hz).
      eapply links_symmetric_link; eauto.
  - rewrite (updateMap_pair_insert indeterminate o1 o2 m f1 Hne E1 E2).
    now apply links_symmetric_insert_new.
Qed.

(** X2.  A whole pass of [updateMap], over any observations, keeps link
    symmetry. *)
Theorem updateMap_links_symmetric (obs : list (Observation D)) (m : Map D) :
  links_symmetric (fiducials m) ->
  links_symmetric (fiducials (updateMap indeterminate obs m)).
Proof.
  apply (updateMap_invariant indeterminate (fun m => links_symmetric (fiducials m))).
  intros o1 o2 m0. apply updateMap_pair_links_symmetric.
Qed.

End Links.

Lemma links_symmetric_two_mapped : links_symmetric (fiducials two_mapped).
Proof.
  intros a b fa Ha [v Hb]. exfalso.
  unfold two_mapped in Ha. simpl in Ha.
  destruct (decide (a = 2)) as [->|H2].
  - rewrite lookup_insert_eq in Ha. injection Ha as <-. discriminate Hb.
  - rewrite lookup_insert_ne in Ha by congruence.
    destruct (decide (a = 1)) as [->|H1].
    + rewrite lookup_insert_eq in Ha. injection Ha as <-. discriminate Hb.
    + rewrite lookup_insert_ne in Ha by congruence. discriminate Ha.
Qed.

(** C4 (witness): fiducials 1 and 2 both in the map, 2 not anchored. *)
Lemma updateMap_pair_links_witness :
  let o1 := sees 1 1 0 in
  let o2 := sees 2 3 (1 # 100) in
  let m' := updateMap_pair garbage o1 o2 two_mapped in
  fid o1 <> fid o2 /\
  fiducials two_mapped !! fid o1 = Some (mkFiducial 1 0 (at_xyz 0 0 0) (Q2float 0) ∅) /\
  links_symmetric (fiducials two_mapped) /\
  links_symmetric (fiducials m') /\
  exists f1' f2',
    fiducials m' !! fid o1 = Some f1' /\ fiducials m' !! fid o2 = Some f2' /\
    is_Some (links f1' !! fid o2) /\ is_Some (links f2' !! fid o1).
Proof.
  cbv zeta.
  assert (Hne : fid (sees 1 1 0) <> fid (sees 2 3 (1 # 100))) by discriminate.
  assert (E1 : fiducials two_mapped !! fid (sees 1 1 0)
               = Some (mkFiducial 1 0 (at_xyz 0 0 0) (Q2float 0) ∅)) by reflexivity.
  destruct (updateMap_pair_links garbage _ _ _ _ Hne E1 links_symmetric_two_mapped)
    as (Hsym & Hfuse & _).
  split; [exact Hne|]. split; [exact E1|].
  split; [exact links_symmetric_two_mapped|]. split; [exact Hsym|].
  apply (Hfuse (mkFiducial 2 0 (at_xyz 5 0 0) (Q2float (1 # 2)) ∅)); reflexivity.
Defined.

(** X2 (witness): the frame that sees fiducials 1 and 2, both in the map. *)
Lemma updateMap_links_symmetric_witness :
  links_symmetric (fiducials two_mapped) /\
  links_symmetric (fiducials (updateMap garbage frame_exact_1 two_mapped)).
Proof.
  split; [exact links_symmetric_two_mapped|].
  exact (updateMap_links_symmetric garbage frame_exact_1 two_mapped
           links_symmetric_two_mapped).
Defined.

(** C4 (counterexample).  Scenario 3: the pair (1, 2) is processed and
    fiducial 2 is entered, and after the whole pass neither fiducial has the
    other in its links. *)
Lemma new_fiducial_is_not_linked :
  exists f1 f2,
    fiducials anchored_1 !! 2 = None /\
    fiducials (updateMap garbage frame_1_2 anchored_1) !! 1 = Some f1 /\
    fiducials (updateMap garbage frame_1_2 anchored_1) !! 2 = Some f2 /\
    links f1 !! 2 = None /\ links f2 !! 1 = None.
Proof.
  do 2 eexists. split; [reflexivity|].
  split; [vm_compute; reflexivity|]. split; [vm_compute; reflexivity|].
  split; reflexivity.
Qed.

(** ** Anchored fiducials *)

Section Anchors.
Context {D : Type} `{Scalar D} `{Rotations D}.
Variable indeterminate : Fiducial D.

Lemma updateMap_pair_keeps_anchor (o1 o2 : Observation D) (m : Map D)
    (k : Z) (p : Transform D) (v : D) :
  (v ==? dlit 0)%D = true ->
  placed k p v m -> placed k p v (updateMap_pair indeterminate o1 o2 m).
Proof.
  intros Hv (f & Hk & Hp & Hvar).
  destruct (decide (fid o1 = fid o2)) as [E|Hne].
  { rewrite updateMap_pair_same by exact E. now exists f. }
  destruct (fiducials m !! fid o1) as [f1|] eqn:E1.
  2:{ rewrite updateMap_pair_unknown_source by assumption. now exists f. }
  destruct (fiducials m !! fid o2) as [f2|] eqn:E2.
  - destruct (variance f2 ==? dlit 0)%D eqn:Hz.
    + rewrite (updateMap_pair_anchored_dest indeterminate o1 o2 m f1 f2) by assumption.
      now exists f.
    + unfold placed.
      rewrite (updateMap_pair_fuse indeterminate o1 o2 m f1 f2 Hne E1 E2 Hz).
      destruct (decide (k = fid o1)) as [->|Hk1].
      * rewrite lookup_insert_eq. eexists. split; [reflexivity|].
        assert (f1 = f) as -> by congruence. now split.
      * rewrite lookup_insert_ne by congruence.
        destruct (decide (k = fid o2)) as [->|Hk2].
        -- assert (f2 = f) as -> by congruence. congruence.
        -- rewrite lookup_insert_ne by congruence. now exists f.
  - unfold placed.
    rewrite (updateMap_pair_insert indeterminate o1 o2 m f1 Hne E1 E2).
    rewrite lookup_insert_ne by congruence. now exists f.
Qed.

Lemma updateMap_keeps_anchor (obs : list (Observation D)) (m : Map D)
    (k : Z) (p : Transform D) (v : D) :
  (v ==? dlit 0)%D = true ->
  placed k p v m -> placed k p v (updateMap indeterminate obs m).
Proof.
  intros Hv. apply (updateMap_invariant indeterminate (placed k p v)).
  intros o1 o2 m0. now apply updateMap_pair_keeps_anchor.
Qed.

Lemma updateMap_mode (obs : list (Observation D)) (m : Map D) :
  isInitializingMap (updateMap indeterminate obs m) = isInitializingMap m.
Proof.
  apply (updateMap_invariant indeterminate
           (fun m' => isInitializingMap m' = isInitializingMap m)); [|reflexivity].
  intros o1 o2 m0 <-. unfold updateMap_pair.
  destruct (fid o1 =? fid o2); [reflexivity|].
  destruct (fiducials m0 !! fid o1) as [f1|]; [|reflexivity].
  destruct (fiducials m0 !! fid o2) as [f2|]; [|reflexivity].
  now destruct (variance f2 ==? dlit 0)%D.
Qed.

Lemma updatePose_fiducials (obs : list (Observation D)) (m : Map D) :
  fiducials (updatePose indeterminate obs m) = fiducials m /\
  isInitializingMap (updatePose indeterminate obs m) = isInitializingMap m.
Proof.
  unfold updatePose. destruct (updatePose_estimate indeterminate obs m) as [[p v]|]; easy.
Qed.

(** A frame in tracking mode, with a fiducial in the map, is a pass of
    [updateMap] and one of [updatePose]. *)
Lemma update_tracking (obs : list (Observation D)) (m : Map D) (k : Z) (f : Fiducial D) :
  isInitializingMap m = false -> fiducials m !! k = Some f ->
  update indeterminate obs m
  = Returned (updatePose indeterminate obs
                (updateMap indeterminate obs (set_frameNum (frameNum m + 1) m))).
Proof.
  intros Hmode Hk. unfold update.
  assert (Hsize : (size (fiducials m) =? 0)%nat = false).
  { apply Nat.eqb_neq. intros Hs. apply map_size_empty_iff in Hs.
    rewrite Hs, lookup_empty in Hk. discriminate. }
  simpl. rewrite Hsize, andb_false_r. simpl. now rewrite Hmode.
Qed.

(** C8 (amended).  Once the engine is tracking, a fiducial whose variance
    compares equal to 0 keeps its pose and its variance through every
    further frame, whatever is observed; every such frame returns. *)
Theorem anchor_kept_while_tracking
    (frames : list (list (Observation D))) (m : Map D) (k : Z) (f : Fiducial D) :
  isInitializingMap m = false ->
  fiducials m !! k = Some f ->
  (variance f ==? dlit 0)%D = true ->
  exists m' f',
    run indeterminate frames m = Returned m' /\
    fiducials m' !! k = Some f' /\
    pose f' = pose f /\ variance f' = variance f.
Proof.
  intros Hmode Hk Hz.
  assert (Hplaced : placed k (pose f) (variance f) m) by now exists f.
  clear Hk. revert m Hmode Hplaced.
  induction frames as [|obs rest IH]; intros m Hmode (f0 & Hk & Hp & Hv).
  - exists m, f0. now split.
  - simpl. rewrite (update_tracking obs m k f0 Hmode Hk).
    apply IH.
    + destruct (updatePose_fiducials obs
                  (updateMap indeterminate obs (set_frameNum (frameNum m + 1) m)))
        as [_ ->].
      now rewrite updateMap_mode.
    + unfold placed.
      destruct (updatePose_fiducials obs
                  (updateMap indeterminate obs (set_frameNum (frameNum m + 1) m)))
        as [-> _].
      apply updateMap_keeps_anchor; [exact Hz|]. now exists f0.
Qed.

End Anchors.

(** C8 (witness): scenario 3 twice over; fiducial 1 is anchored. *)
Lemma anchor_kept_while_tracking_witness :
  let f := mkFiducial 1 0 (at_xyz 0 0 0) (Q2float 0) ∅ in
  isInitializingMap anchored_1 = false /\
  fiducials anchored_1 !! 1 = Some f /\
  (variance f ==? dlit 0)%D = true /\
  exists m' f',
    run garbage [frame_1_2; frame_1_2] anchored_1 = Returned m' /\
    fiducials m' !! 1 = Some f' /\ pose f' = pose f /\ variance f' = variance f.
Proof.
  cbv zeta.
  assert (Hmode : isInitializingMap anchored_1 = false) by reflexivity.
  assert (Hk : fiducials anchored_1 !! 1
               = Some (mkFiducial 1 0 (at_xyz 0 0 0) (Q2float 0) ∅)) by reflexivity.
  assert (Hz : (variance (mkFiducial 1 0 (at_xyz 0 0 0) (Q2float 0) ∅) ==? dlit 0)%D = true)
    by reflexivity.
  split; [exact Hmode|]. split; [exact Hk|]. split; [exact Hz|].
  exact (anchor_kept_while_tracking garbage [frame_1_2; frame_1_2] anchored_1 1 _ Hmode Hk Hz).
Defined.

(** C8 (counterexample).  Frame 1 sees fiducial 0 with [objectError = 0]: it
    is entered with variance 0.  Frame 2 sees it again, during bootstrap,
    and [Fiducial::update] runs on it: its variance is 0.000001 afterwards. *)
Lemma bootstrap_fusion_changes_a_zero_variance :
  exists m1 m2 f1 f2,
    update garbage [sees 0 1 0] Map_new = Returned m1 /\
    fiducials m1 !! 0 = Some f1 /\ (variance f1 ==? dlit 0)%D = true /\
    update garbage [sees 0 2 (1 # 100)] m1 = Returned m2 /\
    fiducials m2 !! 0 = Some f2 /\
    variance f2 = Q2float (1 # 1000000) /\ variance f2 <> variance f1.
Proof.
  do 4 eexists.
  split; [vm_compute; reflexivity|]. split; [reflexivity|]. split; [reflexivity|].
  split; [vm_compute; reflexivity|]. split; [reflexivity|].
  split; [vm_compute; reflexivity|]. float_differs.
Qed.

(** ** Tracking: updatePose *)

Section UpdatePose.
Context {D : Type} `{Scalar D} `{Rotations D}.
Variable indeterminate : Fiducial D.

Lemma updatePose_steps_nothing_mapped (fids : gmap Z (Fiducial D))
    (obs : list (Observation D)) (acc : Transform D * D) :
  (forall o, In o obs -> fids !! fid o = None) ->
  fold_left (updatePose_step fids) obs acc = acc.
Proof.
  revert acc. induction obs as [|o obs IH]; intros acc Hno; [reflexivity|].
  simpl. unfold updatePose_step at 2. destruct acc as [p v].
  rewrite (Hno o) by now left. apply IH. intros o' Ho'. apply Hno. now right.
Qed.

(** With observations, none of a fiducial of the map, [updatePose] goes on
    to the broadcast with the two locals as they were declared. *)
Lemma updatePose_estimate_nothing_mapped (obs : list (Observation D)) (m : Map D) :
  obs <> [] ->
  (forall o, In o obs -> fiducials m !! fid o = None) ->
  updatePose_estimate indeterminate obs m
  = Some (Transform_default indeterminate, dlit 0).
Proof.
  intros Hobs Hno. unfold updatePose_estimate.
  destruct obs as [|o obs]; [congruence|].
  change (length (o :: obs) =? 0)%nat with false. cbv iota.
  now rewrite updatePose_steps_nothing_mapped.
Qed.

(** What the comparison with section 4.3(b) needs of the scalars. *)
Hypothesis zero_is_zero : (dlit 0 ==? dlit 0)%D = true.
Hypothesis floored_is_not_zero :
  forall x : D, (dmax x (dlit (1 # 1000000)) ==? dlit 0)%D = false.

Lemma updatePose_steps_fuse (fids : gmap Z (Fiducial D))
    (obs : list (Observation D)) (acc : Transform D * D) :
  (snd acc ==? dlit 0)%D = false ->
  fold_left (updatePose_step fids) obs acc = fold_left fuse (candidates fids obs) acc.
Proof.
  revert acc. induction obs as [|o obs IH]; intros [p v] Hv; [reflexivity|].
  simpl in Hv. simpl. unfold candidate.
  destruct (fids !! fid o) as [f|]; [|now apply IH].
  rewrite Hv. simpl. apply IH. simpl. apply floored_is_not_zero.
Qed.

Lemma updatePose_steps_first (fids : gmap Z (Fiducial D))
    (obs : list (Observation D)) (p0 : Transform D)
    (c : Transform D * D) (cs : list (Transform D * D)) :
  candidates fids obs = c :: cs ->
  (snd c ==? dlit 0)%D = false ->
  fold_left (updatePose_step fids) obs (p0, dlit 0) = fold_left fuse cs c.
Proof.
  induction obs as [|o obs IH]; intros Hc Hv; [discriminate|].
  simpl in Hc. simpl. unfold candidate in Hc.
  destruct (fids !! fid o) as [f|]; [|now apply IH].
  injection Hc as <- <-. rewrite zero_is_zero.
  now apply updatePose_steps_fuse.
Qed.

Lemma updatePose_estimate_sequential (obs : list (Observation D)) (m : Map D)
    (c : Transform D * D) (cs : list (Transform D * D)) :
  candidates (fiducials m) obs = c :: cs ->
  (snd c ==? dlit 0)%D = false ->
  updatePose_estimate indeterminate obs m = sequentialFusion (c :: cs).
Proof.
  intros Hc Hv. unfold updatePose_estimate.
  destruct obs as [|o obs]; [discriminate|].
  change (length (o :: obs) =? 0)%nat with false. cbv iota. unfold sequentialFusion.
  f_equal. now apply updatePose_steps_first.
Qed.

End UpdatePose.

(** In binary64 a variance floored at 0.000001 does not compare equal to 0. *)
Lemma binary64_floored_is_not_zero (x : float) :
  (dmax x (dlit (1 # 1000000)) ==? dlit 0)%D = false.
Proof.
  unfold dmax. simpl.
  destruct (PrimFloat.ltb x (Q2float (1 # 1000000))) eqn:Hlt; [reflexivity|].
  rewrite FloatAxioms.eqb_spec. rewrite FloatAxioms.ltb_spec in Hlt.
  destruct (Prim2SF x) as [s|s| |s mx e].
  - vm_compute in Hlt. discriminate Hlt.
  - now destruct s.
  - reflexivity.
  - now destruct s.
Qed.

(** C5 (code bug).  A tracking frame that sees only fiducial 7, which is not
    in the map: [update] returns, and what it has sent out is one transform,
    the uninitialised local [pose], with variance 0. *)
Theorem updatePose_broadcasts_when_nothing_is_mapped :
  fiducials anchored_1 !! 7 = None /\
  updatePose_estimate garbage [sees 7 1 (2 # 100)] anchored_1
  = Some (Transform_default garbage, Q2float 0) /\
  exists m',
    update garbage [sees 7 1 (2 # 100)] anchored_1 = Returned m' /\
    out m' = [sendTransform (Transform_default garbage) (Q2float 0)].
Proof.
  split; [reflexivity|]. split.
  - pose proof (updatePose_estimate_nothing_mapped garbage
                  [sees 7 1 (2 # 100)] anchored_1) as L.
    apply L; [discriminate|].
    intros o [<-|[]]. reflexivity.
  - eexists. split; [vm_compute; reflexivity|reflexivity].
Qed.

(** C6 (amended).  In binary64, when the first candidate of the frame has a
    variance that does not compare equal to 0, the estimate [updatePose]
    broadcasts is the sequential pairwise fusion of the candidates, in
    observation order, from the first one. *)
Theorem updatePose_is_sequentialFusion `{Rotations float}
    (indeterminate : Fiducial float) (obs : list (Observation float)) (m : Map float)
    (c : Transform float * float) (cs : list (Transform float * float)) :
  candidates (fiducials m) obs = c :: cs ->
  (snd c ==? dlit 0)%D = false ->
  updatePose_estimate indeterminate obs m = sequentialFusion (candidates (fiducials m) obs).
Proof.
  intros Hc Hv. rewrite Hc.
  apply updatePose_estimate_sequential; [reflexivity| |exact Hc|exact Hv].
  exact binary64_floored_is_not_zero.
Qed.

(** C6 (witness): scenario 3 after fiducial 2 was entered, both seen with
    [objectError = 0.02]. *)
Lemma updatePose_is_sequentialFusion_witness :
  let m := updateMap garbage frame_1_2 anchored_1 in
  exists c cs,
    candidates (fiducials m) frame_1_2 = c :: cs /\
    (snd c ==? dlit 0)%D = false /\
    updatePose_estimate garbage frame_1_2 m = sequentialFusion (candidates (fiducials m) frame_1_2).
Proof.
  cbv zeta. do 2 eexists.
  assert (Hc : candidates (fiducials (updateMap garbage frame_1_2 anchored_1)) frame_1_2
               = [(at_xyz 1 0 0, Q2float (2 # 100));
                  (at_xyz 1 0 0,
                   (Q2float (2 # 100) + Q2float (2 # 100) + Q2float (1 # 10000)
                    + Q2float (2 # 100))%float)])
    by (vm_compute; reflexivity).
  assert (Hv : (snd (at_xyz 1 0 0, Q2float (2 # 100)) ==? dlit 0)%D = false) by reflexivity.
  split; [exact Hc|]. split; [exact Hv|].
  exact (updatePose_is_sequentialFusion garbage frame_1_2 _ _ _ Hc Hv).
Defined.

(** C6 (counterexample).  Fiducial 1 has variance 0 and is seen with
    [objectError = 0], fiducial 2 has variance 0.5 and is seen with
    [objectError = 0.01].  The first candidate has variance 0, so the second
    one replaces it instead of being fused into it: [updatePose] ends with
    variance 0.51, the sequential fusion with 0.000001. *)
Lemma updatePose_restarts_on_zero_variance :
  exists e s,
    candidates (fiducials two_mapped) frame_exact_1 <> [] /\
    updatePose_estimate garbage frame_exact_1 two_mapped = Some e /\
    sequentialFusion (candidates (fiducials two_mapped) frame_exact_1) = Some s /\
    snd e = (Q2float (1 # 2) + Q2float (1 # 100))%float /\
    snd s = Q2float (1 # 1000000) /\
    e <> s.
Proof.
  do 2 eexists.
  split; [vm_compute; discriminate|].
  split; [vm_compute; reflexivity|]. split; [vm_compute; reflexivity|].
  split; [vm_compute; reflexivity|]. split; [vm_compute; reflexivity|].
  intros E. apply (f_equal snd) in E. revert E. float_differs.
Qed.

(** ** Frames never read outside the observations *)

Section Safety.
Context `{Rotations float}.
Variable indeterminate : Fiducial float.

Lemma anchor_rounds_nonempty (obs l : list (Observation float)) (m : Map float) :
  fiducials m <> ∅ ->
  fiducials (fold_left (anchor_round indeterminate obs) l m) <> ∅.
Proof.
  revert m. induction l as [|x l IH]; intros m Hm; [exact Hm|].
  simpl. apply IH. unfold anchor_round.
  destruct (obs !! 0%nat) as [o|]; [|exact Hm].
  destruct (fid o =? originFid m); [|exact Hm]. apply insert_non_empty.
Qed.

Lemma autoInit_anchor_nonempty (obs : list (Observation float)) (m : Map float) :
  fiducials m <> ∅ -> fiducials (autoInit_anchor indeterminate obs m) <> ∅.
Proof.
  intros Hm. unfold autoInit_anchor. destruct (10 <? frameNum m); [|exact Hm].
  now apply anchor_rounds_nonempty.
Qed.

Lemma autoInit_returns (obs : list (Observation float)) (m : Map float) :
  obs <> [] \/ fiducials m <> ∅ ->
  exists m', autoInit indeterminate obs m = Returned m' /\ fiducials m' <> ∅.
Proof.
  intros Hm. unfold autoInit, autoInit_origin.
  destruct (size (fiducials m) =? 0)%nat eqn:Hsize.
  - apply Nat.eqb_eq, map_size_empty_iff in Hsize.
    destruct Hm as [Hobs|Hne]; [|contradiction].
    destruct obs as [|o rest]; [congruence|].
    cbn [originFid set_originFid].
    rewrite (findClosestObs_first_index o rest)
      by (reflexivity || apply length2_not_negative || apply ltb_irrefl).
    cbn [Z.eqb obs_at Z.ltb Z.compare Z.to_nat lookup list_lookup].
    eexists. split; [reflexivity|].
    apply autoInit_anchor_nonempty. apply insert_non_empty.
  - assert (Hne : fiducials m <> ∅).
    { intros E. rewrite E, map_size_empty in Hsize. discriminate. }
    destruct obs as [|o rest].
    + eexists. split; [reflexivity|]. now apply autoInit_anchor_nonempty.
    + destruct (fid o =? originFid m).
      * eexists. split; [reflexivity|].
        apply autoInit_anchor_nonempty. apply insert_non_empty.
      * eexists. split; [reflexivity|]. now apply autoInit_anchor_nonempty.
Qed.

Lemma update_returns (obs : list (Observation float)) (m : Map float) :
  settled m ->
  exists m', update indeterminate obs m = Returned m' /\ settled m'.
Proof.
  intros Hm. unfold update.
  set (m0 := set_frameNum (frameNum m + 1) m).
  destruct ((0 <? length obs)%nat && (size (fiducials m0) =? 0)%nat) eqn:Hstart.
  - apply andb_true_iff in Hstart as [Hobs _].
    cbn [isInitializingMap set_isInitializingMap].
    destruct (autoInit_returns obs (set_isInitializingMap true m0)) as (m' & -> & Hne).
    { left. intros ->. discriminate. }
    exists m'. split; [reflexivity|]. now intros _.
  - destruct (isInitializingMap m0) eqn:Hmode.
    + destruct (autoInit_returns obs m0) as (m' & -> & Hne).
      { right. apply Hm. exact Hmode. }
      exists m'. split; [reflexivity|]. now intros _.
    + eexists. split; [reflexivity|]. intros Hinit. exfalso.
      destruct (updatePose_fiducials indeterminate obs (updateMap indeterminate obs m0))
        as [_ Hp].
      rewrite Hp, updateMap_mode, Hmode in Hinit. discriminate.
Qed.

(** X4.  In binary64, from a state in which the engine is initialising only
    with a fiducial in the map (as a new [Map] is), every frame of every run
    returns: [Map::update] never reads outside the observations. *)
Theorem run_returns (frames : list (list (Observation float))) (m : Map float) :
  settled m ->
  exists m', run indeterminate frames m = Returned m' /\ settled m'.
Proof.
  revert m. induction frames as [|obs rest IH]; intros m Hm.
  - now exists m.
  - simpl. destruct (update_returns obs m Hm) as (m1 & -> & Hm1). now apply IH.
Qed.

End Safety.

(** X4 (witness): a new map, then a frame that sees nothing and a frame that
    sees fiducial 1. *)
Lemma run_returns_witness :
  settled Map_new /\
  exists m', run garbage [[]; [sees 1 2 (1 # 100)]] Map_new = Returned m' /\ settled m'.
Proof.
  assert (Hm : settled Map_new) by (intros Hinit; discriminate Hinit).
  split; [exact Hm|].
  exact (run_returns garbage [[]; [sees 1 2 (1 # 100)]] Map_new Hm).
Defined.


(** ** Rounding in binary64

    The operations of binary64 as [SpecFloat] defines them, on normal
    numbers: a product and a quotient are rounded with a relative error of
    at most [2 ^ -52], the sum of a number with itself is exact. *)

(** *** Mantissas and shifts *)

Lemma digits2_pos_size (p : positive) : digits2_pos p = Pos.size p.
Proof. induction p; simpl; congruence. Qed.

Lemma digits2_pos_bounds (p : positive) :
  2 ^ (Zpos (digits2_pos p) - 1) <= Zpos p < 2 ^ Zpos (digits2_pos p).
Proof.
  rewrite digits2_pos_size. split.
  - pose proof (Pos.size_le p) as H.
    apply Pos2Z.pos_le_pos in H. rewrite Pos2Z.inj_pow in H.
    change (Zpos p~0) with (2 * Zpos p) in H.
    replace (Zpos (Pos.size p)) with (Zpos (Pos.size p) - 1 + 1) in H by lia.
    rewrite Z.pow_add_r, Z.pow_1_r in H by lia. lia.
  - pose proof (Pos.size_gt p) as H.
    apply Pos2Z.pos_lt_pos in H. now rewrite Pos2Z.inj_pow in H.
Qed.

Lemma digits2_pos_unique (p : positive) (n : Z) :
  2 ^ (n - 1) <= Zpos p < 2 ^ n -> Zpos (digits2_pos p) = n.
Proof.
  intros [Hl Hu]. destruct (digits2_pos_bounds p) as [Hl' Hu'].
  assert (0 <= n).
  { destruct (Z.neg_nonneg_cases n) as [Hn|]; [|assumption].
    rewrite Z.pow_neg_r in Hu by assumption. lia. }
  assert (n - 1 < Zpos (digits2_pos p)).
  { apply (Z.pow_lt_mono_r_iff 2); lia. }
  assert (Zpos (digits2_pos p) - 1 < n).
  { apply (Z.pow_lt_mono_r_iff 2); lia. }
  lia.
Qed.

Lemma shr_1_m (r : shr_record) : 0 <= shr_m r -> shr_m (shr_1 r) = shr_m r / 2.
Proof.
  intros Hr. rewrite <- Z.div2_div.
  destruct r as [m rr s]. simpl in *.
  destruct m as [|[p|p|]|p]; try reflexivity. lia.
Qed.

Lemma iter_pos_shr_m (p : positive) (r : shr_record) :
  0 <= shr_m r -> shr_m (SpecFloat.iter_pos shr_1 p r) = shr_m r / 2 ^ Zpos p.
Proof.
  revert r. induction p as [p IH|p IH|]; intros r Hr; cbn [SpecFloat.iter_pos].
  - assert (H1 : 0 <= shr_m (shr_1 r)) by (rewrite shr_1_m by assumption; apply Z.div_pos; lia).
    assert (H2 : 0 <= shr_m (SpecFloat.iter_pos shr_1 p (shr_1 r)))
      by (rewrite IH by assumption; apply Z.div_pos; [assumption|apply Z.pow_pos_nonneg; lia]).
    rewrite IH, IH, shr_1_m by assumption.
    rewrite !Z.div_div by (try apply Z.pow_pos_nonneg; lia).
    f_equal. rewrite Pos2Z.inj_xI, <- Z.pow_add_r, <- Z.pow_succ_r by lia. f_equal. lia.
  - assert (H2 : 0 <= shr_m (SpecFloat.iter_pos shr_1 p r))
      by (rewrite IH by assumption; apply Z.div_pos; [assumption|apply Z.pow_pos_nonneg; lia]).
    rewrite IH, IH by assumption.
    rewrite !Z.div_div by (try apply Z.pow_pos_nonneg; lia).
    f_equal. rewrite Pos2Z.inj_xO, <- Z.pow_add_r by lia. f_equal. lia.
  - now rewrite shr_1_m.
Qed.

Lemma shr_m_shr (r : shr_record) (e n : Z) :
  0 <= shr_m r -> 0 <= n ->
  shr_m (fst (shr r e n)) = shr_m r / 2 ^ n /\ snd (shr r e n) = e + n.
Proof.
  intros Hr Hn. destruct n as [|p|p]; simpl.
  - rewrite Z.div_1_r. split; [reflexivity|lia].
  - split; [now apply iter_pos_shr_m|reflexivity].
  - lia.
Qed.

Lemma shr_m_record_of_loc (m : Z) (l : location) : shr_m (shr_record_of_loc m l) = m.
Proof. destruct l as [|[]]; reflexivity. Qed.

Lemma round_nearest_even_cases (m : Z) (l : location) :
  round_nearest_even m l = m \/ round_nearest_even m l = m + 1.
Proof. destruct l as [|[]]; simpl; auto. destruct (Z.even m); auto. Qed.

Lemma fexp_normal (x : Z) : -1074 <= x - 53 -> fexp prec emax x = x - 53.
Proof. unfold fexp, SpecFloat.emin, prec, emax. lia. Qed.

(** The rounding of [m * 2 ^ e], or of a number between it and
    [(m + 1) * 2 ^ e], for a mantissa of at least 53 digits, in the range of
    the normal numbers. *)
Lemma binary_round_aux_normal (s : bool) (m : positive) (e : Z) (l : location) :
  let d := Zpos (digits2_pos m) in
  53 <= d -> -1074 <= d + e - 53 -> d + e <= 1023 ->
  exists m3 e3,
    binary_round_aux prec emax s (Zpos m) e l = S754_finite s m3 e3 /\
    digits2_pos m3 = 53%positive /\
    e + (d - 53) <= e3 <= e + (d - 53) + 1 /\
    (Zpos m3 * 2 ^ (e3 - (e + (d - 53))) = Zpos m / 2 ^ (d - 53) \/
     Zpos m3 * 2 ^ (e3 - (e + (d - 53))) = Zpos m / 2 ^ (d - 53) + 1).
Proof.
  intros d Hd Hlo Hhi.
  set (k := d - 53). set (m' := Zpos m / 2 ^ k).
  destruct (digits2_pos_bounds m) as [Hml Hmu]. fold d in Hml, Hmu.
  assert (Hk : 0 <= k) by (unfold k; lia).
  assert (Hpk : 0 < 2 ^ k) by (apply Z.pow_pos_nonneg; lia).
  assert (Hm' : 2 ^ 52 <= m' < 2 ^ 53).
  { unfold m'. split.
    - apply Z.div_le_lower_bound; [assumption|].
      rewrite <- Z.pow_add_r by lia. replace (k + 52) with (d - 1) by (unfold k; lia).
      assumption.
    - apply Z.div_lt_upper_bound; [assumption|].
      rewrite <- Z.pow_add_r by lia. replace (k + 53) with d by (unfold k; lia).
      assumption. }
  unfold binary_round_aux, shr_fexp.
  change (Zdigits2 (Zpos m)) with d.
  rewrite (fexp_normal (d + e)) by assumption.
  replace (d + e - 53 - e) with k by (unfold k; lia).
  destruct (shr_m_shr (shr_record_of_loc (Zpos m) l) e k) as [H1 H2];
    [rewrite shr_m_record_of_loc; lia|assumption|].
  rewrite shr_m_record_of_loc in H1. fold m' in H1.
  destruct (shr (shr_record_of_loc (Zpos m) l) e k) as [mrs' e'].
  simpl in H1, H2. subst e'.
  set (m'' := round_nearest_even (shr_m mrs') (loc_of_shr_record mrs')).
  assert (Hm'' : m'' = m' \/ m'' = m' + 1).
  { unfold m''. rewrite <- H1. apply round_nearest_even_cases. }
  assert (Hpos : 0 < m'') by lia.
  destruct m'' as [|p''|p''] eqn:Ep; try lia.
  destruct (Z_lt_le_dec (Zpos p'') (2 ^ 53)) as [Hlt|Hge].
  - (* no carry *)
    assert (Hd'' : Zpos (digits2_pos p'') = 53) by (apply digits2_pos_unique; lia).
    cbn [Zdigits2]. rewrite Hd''.
    rewrite (fexp_normal (53 + (e + k))) by (unfold k; lia).
    replace (53 + (e + k) - 53 - (e + k)) with 0 by lia.
    cbn [shr shr_record_of_loc shr_m].
    replace (e + k <=? emax - prec) with true
      by (symmetry; apply Z.leb_le; unfold emax, prec, k; lia).
    exists p'', (e + k). split; [reflexivity|]. split; [congruence|].
    split; [fold k; lia|].
    replace (e + k - (e + k)) with 0 by lia. rewrite Z.pow_0_r, Z.mul_1_r. exact Hm''.
  - (* the mantissa has become 2 ^ 53 *)
    assert (E53 : Zpos p'' = 2 ^ 53) by lia.
    assert (Hd'' : Zpos (digits2_pos p'') = 54) by (apply digits2_pos_unique; lia).
    cbn [Zdigits2]. rewrite Hd''.
    rewrite (fexp_normal (54 + (e + k))) by (unfold k; lia).
    replace (54 + (e + k) - 53 - (e + k)) with 1 by lia.
    destruct (shr_m_shr (shr_record_of_loc (Zpos p'') loc_Exact) (e + k) 1) as [H3 H4];
      [simpl; lia|lia|].
    destruct (shr (shr_record_of_loc (Zpos p'') loc_Exact) (e + k) 1) as [mrs3 e3].
    simpl fst in H3. simpl snd in H4. subst e3.
    rewrite shr_m_record_of_loc, E53 in H3. change (2 ^ 53 / 2 ^ 1) with (2 ^ 52) in H3.
    rewrite H3. change (2 ^ 52) with (Zpos (2 ^ 52)).
    replace (e + k + 1 <=? emax - prec) with true
      by (symmetry; apply Z.leb_le; unfold emax, prec, k; lia).
    exists (2 ^ 52)%positive, (e + k + 1). split; [reflexivity|]. split; [reflexivity|].
    split; [fold k; lia|].
    replace (e + k + 1 - (e + k)) with 1 by lia.
    change (Zpos (2 ^ 52) * 2 ^ 1) with (2 ^ 53). lia.
Qed.

(** *** Values *)

Open Scope R_scope.

Arguments bpow : simpl never.

Lemma bpow_pos (e : Z) : 0 < bpow e.
Proof. apply powerRZ_lt. lra. Qed.

Lemma bpow_add (a b : Z) : bpow (a + b) = bpow a * bpow b.
Proof. apply powerRZ_add. lra. Qed.

Lemma bpow_IZR (n : Z) : (0 <= n)%Z -> bpow n = IZR (2 ^ n).
Proof.
  intros Hn. destruct n as [|p|p]; [reflexivity| |lia].
  unfold bpow. symmetry. apply (Zpower_pos_powerRZ 2 p).
Qed.

Lemma bpow_1 : bpow 1 = 2.
Proof. unfold bpow. simpl. lra. Qed.

Lemma bpow_le (a b : Z) : (a <= b)%Z -> bpow a <= bpow b.
Proof.
  intros Hab. replace b with (a + (b - a))%Z by lia. rewrite bpow_add.
  rewrite (bpow_IZR (b - a)) by lia.
  assert (1 <= IZR (2 ^ (b - a))).
  { apply IZR_le. assert (0 < 2 ^ (b - a))%Z by (apply Z.pow_pos_nonneg; lia). lia. }
  pose proof (bpow_pos a). nra.
Qed.

Lemma bpow_lt (a b : Z) : (a < b)%Z -> bpow a < bpow b.
Proof.
  intros Hab. replace b with (a + (b - a))%Z by lia. rewrite bpow_add.
  rewrite (bpow_IZR (b - a)) by lia.
  assert (2 <= IZR (2 ^ (b - a))).
  { apply IZR_le. replace (b - a)%Z with (Z.succ (b - a - 1)) by lia.
    rewrite Z.pow_succ_r by lia.
    assert (0 < 2 ^ (b - a - 1))%Z by (apply Z.pow_pos_nonneg; lia). lia. }
  pose proof (bpow_pos a). nra.
Qed.

Lemma bpow_lt_inv (a b : Z) : bpow a < bpow b -> (a < b)%Z.
Proof.
  intros H. destruct (Z_lt_le_dec a b) as [|Hle]; [assumption|].
  apply bpow_le in Hle. lra.
Qed.

Lemma mantissa_bounds (m : positive) :
  digits2_pos m = 53%positive -> (2 ^ 52 <= Zpos m < 2 ^ 53)%Z.
Proof. intros Hd. pose proof (digits2_pos_bounds m) as Hb. rewrite Hd in Hb. exact Hb. Qed.

Lemma mantissa_bounds_R (m : positive) :
  digits2_pos m = 53%positive -> bpow 52 <= IZR (Zpos m) < bpow 53.
Proof.
  intros Hd. apply mantissa_bounds in Hd. rewrite !bpow_IZR by lia.
  split; [apply IZR_le|apply IZR_lt]; lia.
Qed.

(** What [binary_round_aux] makes of a number [y] at or above
    [m * 2 ^ e] and below [(m + 1) * 2 ^ e]. *)
Lemma binary_round_aux_value (s : bool) (m : positive) (e : Z) (l : location) (y : R) :
  let d := Zpos (digits2_pos m) in
  (53 <= d)%Z -> (-1074 <= d + e - 53)%Z -> (d + e <= 1023)%Z ->
  IZR (Zpos m) * bpow e <= y < IZR (Zpos m + 1) * bpow e ->
  exists m3 e3,
    binary_round_aux prec emax s (Zpos m) e l = S754_finite s m3 e3 /\
    digits2_pos m3 = 53%positive /\
    (e + (d - 53) <= e3 <= e + (d - 53) + 1)%Z /\
    Rabs (IZR (Zpos m3) * bpow e3 - y) <= bpow (-52) * y.
Proof.
  intros d Hd Hlo Hhi Hy.
  destruct (binary_round_aux_normal s m e l Hd Hlo Hhi) as (m3 & e3 & E & Hd3 & He3 & Hm3).
  fold d in He3, Hm3.
  exists m3, e3. split; [exact E|]. split; [exact Hd3|]. split; [exact He3|].
  set (k := (d - 53)%Z) in *. set (m' := (Zpos m / 2 ^ k)%Z) in *.
  assert (Hk : (0 <= k)%Z) by (unfold k; lia).
  assert (Hpk : (0 < 2 ^ k)%Z) by (apply Z.pow_pos_nonneg; lia).
  assert (Hdiv : (m' * 2 ^ k <= Zpos m /\ Zpos m + 1 <= (m' + 1) * 2 ^ k)%Z).
  { unfold m'. pose proof (Z.mul_div_le (Zpos m) (2 ^ k) Hpk).
    pose proof (Z.mul_succ_div_gt (Zpos m) (2 ^ k) Hpk). lia. }
  destruct Hdiv as [Hdl Hdu].
  destruct (digits2_pos_bounds m) as [Hml Hmu]. fold d in Hml, Hmu.
  assert (Hm'52 : (2 ^ 52 <= m')%Z).
  { unfold m'. apply Z.div_le_lower_bound; [assumption|].
    rewrite <- Z.pow_add_r by lia. replace (k + 52)%Z with (d - 1)%Z by (unfold k; lia).
    assumption. }
  (* the value of the result *)
  assert (Hc : IZR (Zpos m3) * bpow e3
               = IZR (Zpos m3 * 2 ^ (e3 - (e + k))) * bpow (e + k)).
  { rewrite mult_IZR, <- bpow_IZR by lia. rewrite Rmult_assoc, <- bpow_add.
    do 2 f_equal. lia. }
  (* the bounds of y *)
  assert (Hek : bpow (e + k) = bpow k * bpow e) by (rewrite <- bpow_add; f_equal; lia).
  assert (Hyl : IZR m' * bpow (e + k) <= y).
  { apply Rle_trans with (2 := proj1 Hy). rewrite Hek, <- Rmult_assoc.
    apply Rmult_le_compat_r; [apply Rlt_le, bpow_pos|].
    rewrite bpow_IZR, <- mult_IZR by lia. now apply IZR_le. }
  assert (Hyu : y < IZR (m' + 1) * bpow (e + k)).
  { apply Rlt_le_trans with (1 := proj2 Hy). rewrite Hek, <- Rmult_assoc.
    apply Rmult_le_compat_r; [apply Rlt_le, bpow_pos|].
    rewrite bpow_IZR, <- mult_IZR by lia. now apply IZR_le. }
  assert (Hulp : bpow (e + k) <= bpow (-52) * y).
  { apply Rle_trans with (bpow (-52) * (IZR m' * bpow (e + k))).
    - assert (bpow 52 <= IZR m') by (rewrite bpow_IZR by lia; now apply IZR_le).
      assert (H1 : bpow (-52) * bpow 52 = 1) by (rewrite <- bpow_add; reflexivity).
      pose proof (bpow_pos (e + k)). pose proof (bpow_pos (-52)).
      assert (0 <= bpow (-52) * bpow (e + k) * (IZR m' - bpow 52))
        by (apply Rmult_le_pos; [apply Rmult_le_pos|]; lra).
      nra.
    - apply Rmult_le_compat_l; [apply Rlt_le, bpow_pos|assumption]. }
  rewrite Hc. rewrite plus_IZR in Hyu. apply Rabs_le.
  destruct Hm3 as [-> | ->]; [|rewrite plus_IZR]; lra.
Qed.

Lemma normal_bounds (x : float) (s : bool) (a : R) :
  normal x s a ->
  exists e, bpow (52 + e) <= a < bpow (53 + e).
Proof.
  intros (m & e & _ & Hd & ->). exists e.
  destruct (mantissa_bounds_R m Hd) as [Hl Hu].
  rewrite !bpow_add. pose proof (bpow_pos e). split; nra.
Qed.

Lemma normal_pos (x : float) (s : bool) (a : R) : normal x s a -> 0 < a.
Proof.
  intros Hn. destruct (normal_bounds x s a Hn) as (e & Hl & _).
  pose proof (bpow_pos (52 + e)). lra.
Qed.

Lemma normal_value (x : float) (s : bool) (a : R) :
  normal x s a -> is_finite x = true /\ value x = (if s then - a else a).
Proof.
  intros (m & e & E & _ & ->). unfold is_finite, value. rewrite E. split; [reflexivity|].
  destruct s; simpl; [|reflexivity].
  change (Zneg m) with (- Zpos m)%Z. rewrite opp_IZR. ring.
Qed.

(** *** Products *)

(** The product of two normal numbers, when it is between [2 ^ -1020] and
    [2 ^ 1020], is a normal number, the product of the magnitudes up to the
    relative error [2 ^ -52]. *)
Lemma mul_normal (x y : float) (sx sy : bool) (a b : R) :
  normal x sx a -> normal y sy b ->
  bpow (-1020) <= a * b < bpow 1020 ->
  exists c, normal (x * y)%float (xorb sx sy) c /\
            Rabs (c - a * b) <= bpow (-52) * (a * b).
Proof.
  intros (mx & ex & Ex & Dx & ->) (my & ey & Ey & Dy & ->) Hr.
  unfold normal. rewrite mul_spec, Ex, Ey. unfold SF64mul. cbn [SFmul].
  set (m := (mx * my)%positive).
  assert (Hy : IZR (Zpos mx) * bpow ex * (IZR (Zpos my) * bpow ey)
               = IZR (Zpos m) * bpow (ex + ey)).
  { unfold m. rewrite Pos2Z.inj_mul, mult_IZR, bpow_add. ring. }
  rewrite Hy in *.
  destruct (digits2_pos_bounds m) as [Hml Hmu].
  set (d := Zpos (digits2_pos m)) in *.
  assert (Hdpos : (0 < d)%Z) by (unfold d; lia).
  pose proof (mantissa_bounds mx Dx) as Bx. pose proof (mantissa_bounds my Dy) as By.
  assert (Hd : (53 <= d)%Z).
  { assert (2 ^ 104 <= Zpos m)%Z
      by (unfold m; rewrite Pos2Z.inj_mul; change (2 ^ 104)%Z with (2 ^ 52 * 2 ^ 52)%Z; nia).
    assert (104 < d)%Z by (apply (Z.pow_lt_mono_r_iff 2); lia). lia. }
  pose proof (bpow_pos (ex + ey)) as He.
  assert (Hlo : (-1020 < d + (ex + ey))%Z).
  { apply bpow_lt_inv. eapply Rle_lt_trans; [exact (proj1 Hr)|].
    rewrite (bpow_add d). apply Rmult_lt_compat_r; [assumption|].
    rewrite bpow_IZR by lia. now apply IZR_lt. }
  assert (Hhi : (d - 1 + (ex + ey) < 1020)%Z).
  { apply bpow_lt_inv. eapply Rle_lt_trans; [|exact (proj2 Hr)].
    rewrite (bpow_add (d - 1)). apply Rmult_le_compat_r; [lra|].
    rewrite bpow_IZR by lia. now apply IZR_le. }
  destruct (binary_round_aux_value (xorb sx sy) m (ex + ey) loc_Exact
              (IZR (Zpos m) * bpow (ex + ey)))
    as (m3 & e3 & E & D3 & _ & Hc); try (fold d; lia).
  { rewrite plus_IZR. split; [lra|nra]. }
  exists (IZR (Zpos m3) * bpow e3). split; [|exact Hc].
  exists m3, e3. split; [exact E|]. split; [exact D3|reflexivity].
Qed.

(** *** Quotients *)

(** The quotient of two mantissas, of any number of digits, in the range of
    the normal numbers. *)
Lemma SFdiv_value (sx sy : bool) (mx my : positive) (ex ey : Z) :
  let d1 := Zpos (digits2_pos mx) in
  let d2 := Zpos (digits2_pos my) in
  let y := IZR (Zpos mx) * bpow ex / (IZR (Zpos my) * bpow ey) in
  (d1 <= d2 + 53)%Z ->
  (-1074 <= d1 + ex - (d2 + ey) - 53)%Z ->
  (d1 + ex - (d2 + ey) <= 1022)%Z ->
  exists m3 e3,
    SFdiv prec emax (S754_finite sx mx ex) (S754_finite sy my ey)
    = S754_finite (xorb sx sy) m3 e3 /\
    digits2_pos m3 = 53%positive /\
    (-1074 <= e3 <= 971)%Z /\
    Rabs (IZR (Zpos m3) * bpow e3 - y) <= bpow (-52) * y.
Proof.
  intros d1 d2 y Hd Hlo Hhi.
  destruct (digits2_pos_bounds mx) as [Hxl Hxu]. fold d1 in Hxl, Hxu.
  destruct (digits2_pos_bounds my) as [Hyl Hyu]. fold d2 in Hyl, Hyu.
  unfold SFdiv, SFdiv_core_binary. cbn [Zdigits2]. fold d1 d2.
  rewrite (fexp_normal (d1 + ex - (d2 + ey))) by assumption.
  set (e' := (d1 + ex - (d2 + ey) - 53)%Z).
  rewrite (Z.min_l e' (ex - ey)) by (unfold e'; lia).
  set (s := (ex - ey - e')%Z).
  assert (Hs : (0 <= s)%Z) by (unfold s, e'; lia).
  set (m' := match s with
             | 0%Z => Zpos mx
             | Zpos _ => Z.shiftl (Zpos mx) s
             | Zneg _ => 0%Z
             end).
  assert (Hm' : m' = (Zpos mx * 2 ^ s)%Z).
  { unfold m'. destruct s as [|p|p] eqn:Es; [lia| |lia].
    apply Z.shiftl_mul_pow2. lia. }
  assert (Hps : (0 < 2 ^ s)%Z) by (apply Z.pow_pos_nonneg; lia).
  assert (Hm'b : (2 ^ (52 + d2) <= m' < 2 ^ (53 + d2))%Z).
  { rewrite Hm'. replace (52 + d2)%Z with (d1 - 1 + s)%Z by (unfold s, e'; lia).
    replace (53 + d2)%Z with (d1 + s)%Z by (unfold s, e'; lia).
    rewrite !Z.pow_add_r by (unfold d1; lia). split; nia. }
  destruct (Z.div_eucl m' (Zpos my)) as [q r] eqn:Ed.
  assert (Hq : q = (m' / Zpos my)%Z) by (unfold Z.div; now rewrite Ed).
  assert (Hqb : (2 ^ 52 <= q < 2 ^ 54)%Z).
  { rewrite Hq. split.
    - apply Z.div_le_lower_bound; [lia|].
      apply Z.le_trans with (2 := proj1 Hm'b).
      rewrite Z.pow_add_r by (unfold d2; lia). nia.
    - apply Z.div_lt_upper_bound; [lia|].
      apply Z.lt_le_trans with (1 := proj2 Hm'b).
      replace (53 + d2)%Z with (d2 - 1 + 54)%Z by lia.
      rewrite Z.pow_add_r by (unfold d2; lia). nia. }
  destruct q as [|qp|qp]; try lia.
  assert (Hdq : (53 <= Zpos (digits2_pos qp) <= 54)%Z).
  { destruct (digits2_pos_bounds qp) as [Hql Hqu].
    assert (52 < Zpos (digits2_pos qp))%Z by (apply (Z.pow_lt_mono_r_iff 2); lia).
    assert (Zpos (digits2_pos qp) - 1 < 54)%Z by (apply (Z.pow_lt_mono_r_iff 2); lia).
    lia. }
  assert (Hdivb : (Zpos qp * Zpos my <= m' /\ m' + 1 <= (Zpos qp + 1) * Zpos my)%Z).
  { rewrite Hq. pose proof (Z.mul_div_le m' (Zpos my) eq_refl).
    pose proof (Z.mul_succ_div_gt m' (Zpos my) eq_refl). lia. }
  (* the quotient as a number *)
  pose proof (bpow_pos e') as He'. pose proof (bpow_pos ex) as Hex.
  pose proof (bpow_pos ey) as Hey.
  assert (Hmy : 0 < IZR (Zpos my)) by (apply IZR_lt; lia).
  assert (Hy : y = IZR m' * bpow e' / IZR (Zpos my)).
  { unfold y. rewrite Hm', mult_IZR, <- bpow_IZR by lia.
    replace ex with (s + e' + ey)%Z at 1 by (unfold s; lia).
    rewrite !bpow_add. field. split; lra. }
  assert (Hyb : IZR (Zpos qp) * bpow e' <= y < IZR (Zpos qp + 1) * bpow e');
    [|destruct (binary_round_aux_value (xorb sx sy) qp e' (new_location (Zpos my) r) y)
        as (m3 & e3 & E & D3 & He3 & Hc); try lia; try exact Hyb;
      exists m3, e3; split; [exact E|]; split; [exact D3|]; split; [unfold e' in *; lia|];
      exact Hc].
  rewrite Hy. split.
  - apply Rmult_le_reg_r with (IZR (Zpos my)); [assumption|].
    replace (IZR m' * bpow e' / IZR (Z.pos my) * IZR (Z.pos my))
      with (IZR m' * bpow e') by (field; lra).
    replace (IZR (Z.pos qp) * bpow e' * IZR (Z.pos my))
      with (IZR (Zpos qp * Zpos my) * bpow e') by (rewrite mult_IZR; ring).
    apply Rmult_le_compat_r; [lra|]. apply IZR_le. lia.
  - apply Rmult_lt_reg_r with (IZR (Zpos my)); [assumption|].
    replace (IZR m' * bpow e' / IZR (Z.pos my) * IZR (Z.pos my))
      with (IZR m' * bpow e') by (field; lra).
    replace (IZR (Z.pos qp + 1) * bpow e' * IZR (Z.pos my))
      with (IZR ((Zpos qp + 1) * Zpos my) * bpow e') by (rewrite mult_IZR; ring).
    apply Rmult_lt_compat_r; [lra|]. apply IZR_lt. lia.
Qed.

(** The quotient of two normal numbers, when it is between [2 ^ -1020] and
    [2 ^ 1020], is a normal number, the quotient of the magnitudes up to
    the relative error [2 ^ -52]. *)
Lemma div_normal (x y : float) (sx sy : bool) (a b : R) :
  normal x sx a -> normal y sy b ->
  bpow (-1020) <= a / b < bpow 1020 ->
  exists c, normal (x / y)%float (xorb sx sy) c /\
            Rabs (c - a / b) <= bpow (-52) * (a / b).
Proof.
  intros Hx Hy Hr.
  pose proof (normal_pos _ _ _ Hy) as Hb.
  destruct Hx as (mx & ex & Ex & Dx & ->). destruct Hy as (my & ey & Ey & Dy & ->).
  destruct (mantissa_bounds_R mx Dx) as [Bxl Bxu].
  destruct (mantissa_bounds_R my Dy) as [Byl Byu].
  pose proof (bpow_pos ex) as Hex. pose proof (bpow_pos ey) as Hey.
  set (a := IZR (Zpos mx) * bpow ex) in *. set (b := IZR (Zpos my) * bpow ey) in *.
  assert (Ha : bpow (52 + ex) <= a < bpow (53 + ex))
    by (rewrite !bpow_add; unfold a; split; nra).
  assert (Hbb : bpow (52 + ey) <= b < bpow (53 + ey))
    by (rewrite !bpow_add; unfold b; split; nra).
  assert (Hlo : (-1020 < ex - ey + 1)%Z).
  { apply bpow_lt_inv. eapply Rle_lt_trans; [exact (proj1 Hr)|].
    apply Rmult_lt_reg_r with b; [assumption|].
    replace (a / b * b) with a by (field; lra).
    apply Rlt_le_trans with (1 := proj2 Ha).
    apply Rle_trans with (bpow (ex - ey + 1) * bpow (52 + ey)).
    - rewrite <- bpow_add. apply bpow_le. lia.
    - apply Rmult_le_compat_l; [apply Rlt_le, bpow_pos|lra]. }
  assert (Hhi : (ex - ey - 1 < 1020)%Z).
  { apply bpow_lt_inv. eapply Rle_lt_trans; [|exact (proj2 Hr)].
    apply Rmult_le_reg_r with b; [assumption|].
    replace (a / b * b) with a by (field; lra).
    apply Rle_trans with (2 := proj1 Ha).
    apply Rle_trans with (bpow (ex - ey - 1) * bpow (53 + ey)).
    - apply Rmult_le_compat_l; [apply Rlt_le, bpow_pos|lra].
    - rewrite <- bpow_add. apply bpow_le. lia. }
  destruct (SFdiv_value sx sy mx my ex ey) as (m3 & e3 & E & D3 & _ & Hc);
    try (rewrite Dx, Dy; lia).
  exists (IZR (Zpos m3) * bpow e3). split; [|exact Hc].
  exists m3, e3. rewrite div_spec, Ex, Ey. split; [exact E|]. split; [exact D3|reflexivity].
Qed.

(** *** A number added to itself *)

Lemma valid_exponent (x : float) (s : bool) (m : positive) (e : Z) :
  Prim2SF x = S754_finite s m e ->
  fexp prec emax (Zpos (digits2_pos m) + e) = e /\ (e <= 971)%Z.
Proof.
  intros E. pose proof (Prim2SF_valid x) as Hv. rewrite E in Hv.
  unfold valid_binary, bounded, canonical_mantissa in Hv.
  apply andb_true_iff in Hv as [Hc Hb].
  apply Z.eqb_eq in Hc. apply Z.leb_le in Hb. split; [exact Hc|exact Hb].
Qed.




(** *** Sums of two numbers of the same sign *)

Lemma iter_xO_pow (m d : positive) : Zpos (Pos.iter xO m d) = (Zpos m * 2 ^ Zpos d)%Z.
Proof.
  induction d as [|d IH] using Pos.peano_ind.
  - cbn [Pos.iter]. change (2 ^ 1)%Z with 2%Z. lia.
  - rewrite Pos.iter_succ, Pos2Z.inj_xO, IH, Pos2Z.inj_succ, Z.pow_succ_r by lia. ring.
Qed.

Lemma shl_align_value (m : positive) (e ez : Z) :
  (ez <= e)%Z -> Zpos (fst (shl_align m e ez)) = (Zpos m * 2 ^ (e - ez))%Z.
Proof.
  intros He. unfold shl_align.
  destruct (ez - e)%Z as [|d|d] eqn:Ed; try lia.
  - replace (e - ez)%Z with 0%Z by lia. cbn [fst]. lia.
  - cbn [fst]. rewrite iter_xO_pow. f_equal. f_equal. lia.
Qed.

(** The sum of two normal numbers of the same sign, when it is below
    [2 ^ 1020], is a normal number, the sum of the magnitudes up to the
    relative error [2 ^ -52]. *)
Lemma add_normal (x y : float) (s : bool) (a b : R) :
  normal x s a -> normal y s b -> a + b < bpow 1020 ->
  exists c, normal (x + y)%float s c /\ Rabs (c - (a + b)) <= bpow (-52) * (a + b).
Proof.
  intros (mx & ex & Ex & Dx & ->) (my & ey & Ey & Dy & ->) Hr.
  destruct (valid_exponent x s mx ex Ex) as [Hcx _]. rewrite Dx in Hcx.
  destruct (valid_exponent y s my ey Ey) as [Hcy _]. rewrite Dy in Hcy.
  assert (Hex : (-1074 <= ex)%Z) by (unfold fexp, SpecFloat.emin, prec, emax in Hcx; lia).
  assert (Hey : (-1074 <= ey)%Z) by (unfold fexp, SpecFloat.emin, prec, emax in Hcy; lia).
  pose proof (mantissa_bounds mx Dx) as Bx. pose proof (mantissa_bounds my Dy) as By.
  unfold normal. rewrite add_spec, Ex, Ey. unfold SF64add, SFadd.
  set (ez := Z.min ex ey).
  assert (Hzx : (ez <= ex)%Z) by (unfold ez; lia).
  assert (Hzy : (ez <= ey)%Z) by (unfold ez; lia).
  assert (Hez : (-1074 <= ez)%Z) by (unfold ez; lia).
  rewrite (shl_align_value mx ex ez Hzx), (shl_align_value my ey ez Hzy).
  assert (Hpx : (0 < 2 ^ (ex - ez))%Z) by (apply Z.pow_pos_nonneg; lia).
  assert (Hpy : (0 < 2 ^ (ey - ez))%Z) by (apply Z.pow_pos_nonneg; lia).
  set (M := (Zpos mx * 2 ^ (ex - ez) + Zpos my * 2 ^ (ey - ez))%Z).
  assert (HM : (2 ^ 52 <= M)%Z) by (unfold M; nia).
  replace (cond_Zopp s (Zpos mx * 2 ^ (ex - ez)) + cond_Zopp s (Zpos my * 2 ^ (ey - ez)))%Z
    with (cond_Zopp s M) by (unfold M; destruct s; simpl; lia).
  destruct M as [|pM|pM] eqn:EM; try lia.
  assert (Hsum : IZR (Zpos mx) * bpow ex + IZR (Zpos my) * bpow ey
                 = IZR (Zpos pM) * bpow ez).
  { rewrite <- EM. unfold M. rewrite plus_IZR, !mult_IZR, <- !bpow_IZR by lia.
    rewrite Rmult_plus_distr_r, !Rmult_assoc, <- !bpow_add.
    replace (ex - ez + ez)%Z with ex by lia. replace (ey - ez + ez)%Z with ey by lia.
    reflexivity. }
  rewrite Hsum in *.
  destruct (digits2_pos_bounds pM) as [Hml Hmu].
  set (d := Zpos (digits2_pos pM)) in *.
  assert (Hdpos : (0 < d)%Z) by (unfold d; lia).
  assert (Hd : (53 <= d)%Z).
  { assert (52 < d)%Z by (apply (Z.pow_lt_mono_r_iff 2); lia). lia. }
  pose proof (bpow_pos ez) as Hbz.
  assert (Hhi : (d - 1 + ez < 1020)%Z).
  { apply bpow_lt_inv. eapply Rle_lt_trans; [|exact Hr].
    rewrite (bpow_add (d - 1)). apply Rmult_le_compat_r; [lra|].
    rewrite bpow_IZR by lia. now apply IZR_le. }
  assert (Hround : binary_round prec emax s pM ez
                   = binary_round_aux prec emax s (Zpos pM) ez loc_Exact).
  { unfold binary_round. fold d. rewrite (fexp_normal (d + ez)) by lia.
    unfold shl_align. destruct (d + ez - 53 - ez)%Z eqn:E; try lia; reflexivity. }
  assert (Hnorm : binary_normalize prec emax (cond_Zopp s (Zpos pM)) ez false
                  = binary_round_aux prec emax s (Zpos pM) ez loc_Exact).
  { destruct s; exact Hround. }
  rewrite Hnorm.
  destruct (binary_round_aux_value s pM ez loc_Exact (IZR (Zpos pM) * bpow ez))
    as (m3 & e3 & E & D3 & _ & Hc); try (fold d; lia).
  { rewrite plus_IZR. split; [lra|nra]. }
  exists (IZR (Zpos m3) * bpow e3). split; [|exact Hc].
  exists m3, e3. split; [exact E|]. split; [exact D3|reflexivity].
Qed.

(** *** A number divided by its double *)


(** *** Comparison *)

(** [<] on two positive normal numbers is [<] on their magnitudes. *)
Lemma ltb_normal (x y : float) (a b : R) :
  normal x false a -> normal y false b -> (x <? y)%float = true -> a < b.
Proof.
  intros (mx & ex & Ex & Dx & ->) (my & ey & Ey & Dy & ->) Hlt.
  rewrite ltb_spec, Ex, Ey in Hlt. unfold SFltb, SFcompare in Hlt.
  destruct (mantissa_bounds_R mx Dx) as [Bxl Bxu].
  destruct (mantissa_bounds_R my Dy) as [Byl Byu].
  pose proof (bpow_pos ex). pose proof (bpow_pos ey).
  destruct (Z.compare_spec ex ey) as [->|Hee|Hee]; try discriminate Hlt.
  - destruct (Pos.compare_cont Eq mx my) eqn:Hc; try discriminate Hlt.
    apply Rmult_lt_compat_r; [assumption|]. apply IZR_lt, Pos2Z.pos_lt_pos. exact Hc.
  - assert (bpow (ex + 1) <= bpow ey) by (apply bpow_le; lia).
    rewrite bpow_add, bpow_1 in H1.
    assert (E53 : bpow 53 = 2 * bpow 52)
      by (change 53%Z with (1 + 52)%Z; now rewrite bpow_add, bpow_1).
    pose proof (bpow_pos 52). rewrite E53 in *.
    assert (0 <= (2 * bpow 52 - IZR (Zpos mx)) * bpow ex) by (apply Rmult_le_pos; lra).
    assert (0 <= (IZR (Zpos my) - bpow 52) * bpow ey) by (apply Rmult_le_pos; lra).
    nra.
Qed.

(** *** Numbers by their value *)

(** A double whose value is at least [2 ^ -1022] in magnitude is a normal
    number. *)
Lemma normal_of_value (x : float) :
  bpow (-1022) <= Rabs (value x) ->
  exists s, normal x s (Rabs (value x)).
Proof.
  unfold value. intros Hv.
  destruct (Prim2SF x) as [s|s| |s m e] eqn:E; simpl in Hv;
    try (rewrite Rabs_R0 in Hv; pose proof (bpow_pos (-1022)); lra).
  destruct (valid_exponent x s m e E) as [Hc _].
  pose proof (bpow_pos e) as He.
  assert (Habs : Rabs (IZR (cond_Zopp s (Zpos m)) * bpow e) = IZR (Zpos m) * bpow e).
  { rewrite Rabs_mult, (Rabs_pos_eq (bpow e)) by lra. f_equal.
    destruct s; simpl.
    - change (Zneg m) with (- Zpos m)%Z. rewrite opp_IZR, Rabs_Ropp.
      apply Rabs_pos_eq, IZR_le. lia.
    - apply Rabs_pos_eq, IZR_le. lia. }
  exists s, m, e. split; [exact E|]. split; [|exact Habs].
  rewrite Habs in Hv.
  destruct (digits2_pos_bounds m) as [Hml Hmu].
  set (d := Zpos (digits2_pos m)) in *.
  assert (Hdpos : (0 < d)%Z) by (unfold d; lia).
  assert (Hde : (-1022 < d + e)%Z).
  { apply bpow_lt_inv. eapply Rle_lt_trans; [exact Hv|].
    rewrite (bpow_add d). apply Rmult_lt_compat_r; [assumption|].
    rewrite bpow_IZR by lia. now apply IZR_lt. }
  unfold fexp, SpecFloat.emin, prec, emax in Hc.
  assert (d = 53%Z) by lia.
  unfold d in H. now injection H.
Qed.

Lemma zero_of_value (x : float) :
  is_finite x = true -> value x = 0 -> exists s, Prim2SF x = S754_zero s.
Proof.
  unfold is_finite, value. destruct (Prim2SF x) as [s|s| |s m e]; try discriminate.
  - intros _ _. now exists s.
  - intros _ Hv. simpl in Hv. pose proof (bpow_pos e).
    assert (IZR (cond_Zopp s (Zpos m)) <> 0) by (apply not_0_IZR; destruct s; simpl; lia).
    nra.
Qed.

(** *** Relative errors *)

Lemma rel_bounds (e x X : R) : rel e x X <-> X - e * X <= x <= X + e * X.
Proof.
  unfold rel. split.
  - unfold Rabs. destruct (Rcase_abs (x - X)); lra.
  - unfold Rabs. destruct (Rcase_abs (x - X)); lra.
Qed.

Lemma rel_mul (e1 e2 x X y Y : R) :
  0 < X -> 0 < Y -> 0 <= e1 <= 1 -> 0 <= e2 <= 1 ->
  rel e1 x X -> rel e2 y Y -> rel (e1 + e2 + e1 * e2) (x * y) (X * Y).
Proof.
  intros HX HY He1 He2 Hx Hy. apply rel_bounds in Hx, Hy. apply rel_bounds.
  assert (0 <= x) by nra. assert (0 <= y) by nra.
  split.
  - assert (0 <= (x - (X - e1 * X)) * y) by (apply Rmult_le_pos; lra).
    assert (0 <= (X - e1 * X) * (y - (Y - e2 * Y))) by (apply Rmult_le_pos; nra).
    assert (0 <= e1 * e2 * (X * Y)) by (repeat apply Rmult_le_pos; lra).
    nra.
  - assert (0 <= (X + e1 * X - x) * y) by (apply Rmult_le_pos; lra).
    assert (0 <= (X + e1 * X) * (Y + e2 * Y - y)) by (apply Rmult_le_pos; nra).
    nra.
Qed.

Lemma rel_trans (e1 e2 x y Z : R) :
  0 < Z -> 0 <= e1 <= 1 -> 0 <= e2 ->
  rel e1 y Z -> rel e2 x y -> rel (e1 + e2 + e1 * e2) x Z.
Proof.
  intros HZ He1 He2 Hy Hx. apply rel_bounds in Hx, Hy. apply rel_bounds.
  assert (0 <= y) by nra.
  split.
  - assert (0 <= e2 * (Z + e1 * Z - y)) by (apply Rmult_le_pos; lra). nra.
  - assert (0 <= e2 * (Z + e1 * Z - y)) by (apply Rmult_le_pos; lra). nra.
Qed.

Lemma rel_inv (e x X : R) :
  0 < X -> 0 <= e <= 1 / 2 -> rel e x X -> rel (2 * e) (/ x) (/ X).
Proof.
  intros HX He Hx. apply rel_bounds in Hx. apply rel_bounds.
  assert (Hxp : 0 < x) by nra.
  assert (HiX : 0 < / X) by now apply Rinv_0_lt_compat.
  assert (Hix : 0 < / x) by now apply Rinv_0_lt_compat.
  assert (E1 : x * / x = 1) by (apply Rinv_r; lra).
  assert (E2 : X * / X = 1) by (apply Rinv_r; lra).
  split.
  - (* / X * (1 - 2 e) <= / x *)
    apply Rmult_le_reg_r with (x * X); [nra|].
    replace (/ x * (x * X)) with X by (field; lra).
    replace ((/ X - 2 * e * / X) * (x * X)) with ((1 - 2 * e) * x) by (field; lra).
    nra.
  - apply Rmult_le_reg_r with (x * X); [nra|].
    replace (/ x * (x * X)) with X by (field; lra).
    replace ((/ X + 2 * e * / X) * (x * X)) with ((1 + 2 * e) * x) by (field; lra).
    nra.
Qed.

Lemma rel_weaken (e e' x X : R) : 0 < X -> e <= e' -> rel e x X -> rel e' x X.
Proof. unfold rel. intros HX He Hx. eapply Rle_trans; [exact Hx|]. nra. Qed.

Lemma rel_add (e x X y Y : R) :
  rel e x X -> rel e y Y -> rel e (x + y) (X + Y).
Proof.
  intros Hx Hy. apply rel_bounds in Hx, Hy. apply rel_bounds. lra.
Qed.

Lemma rel_scale (e x X k : R) : 0 <= k -> rel e x X -> rel e (x * k) (X * k).
Proof.
  intros Hk Hx. apply rel_bounds in Hx. apply rel_bounds.
  split.
  - replace (X * k - e * (X * k)) with ((X - e * X) * k) by ring.
    apply Rmult_le_compat_r; lra.
  - replace (X * k + e * (X * k)) with ((X + e * X) * k) by ring.
    apply Rmult_le_compat_r; lra.
Qed.

Lemma rel_pos (e x X : R) : 0 < X -> 0 <= e <= 1 / 2 -> rel e x X -> X / 2 <= x <= 2 * X.
Proof. intros HX He Hx. apply rel_bounds in Hx. nra. Qed.

(** *** Some numbers *)

Lemma one_normal : normal (Q2float 1) false 1.
Proof.
  exists (2 ^ 52)%positive, (-52)%Z. split; [vm_compute; reflexivity|]. split; [reflexivity|].
  change (Zpos (2 ^ 52)) with (2 ^ 52)%Z. rewrite <- (bpow_IZR 52) by lia.
  rewrite <- bpow_add. reflexivity.
Qed.

Lemma bpow_neg (p : positive) : bpow (Zneg p) = / bpow (Zpos p).
Proof. apply (powerRZ_neg' 2 (Zpos p)). Qed.

Lemma bpow_52_small : 0 < bpow (-52) <= 1 / 16.
Proof.
  split; [apply bpow_pos|].
  apply Rle_trans with (bpow (-4)); [apply bpow_le; lia|].
  rewrite bpow_neg, (bpow_IZR 4) by lia. simpl. lra.
Qed.

Lemma bpow_52_tiny : bpow (-52) <= 1 / 1000000000000.
Proof.
  rewrite bpow_neg, (bpow_IZR 52) by lia.
  change (2 ^ 52)%Z with 4503599627370496%Z. lra.
Qed.

(** Eight roundings or fewer stay within [2 ^ -49]. *)
Lemma bpow_49 : bpow (-49) = 8 * bpow (-52).
Proof.
  change (-49)%Z with (3 + -52)%Z. rewrite bpow_add, (bpow_IZR 3) by lia. reflexivity.
Qed.


(** The floor of the variances. *)
Lemma floor_normal :
  exists af, normal (Q2float (1 # 1000000)) false af /\ af <= 1 / 1000000.
Proof.
  exists (IZR (Zpos 4722366482869645) * bpow (-72)). split.
  - exists 4722366482869645%positive, (-72)%Z.
    split; [vm_compute; reflexivity|]. split; reflexivity.
  - rewrite bpow_neg, (bpow_IZR 72) by lia.
    change (2 ^ 72)%Z with 4722366482869645213696%Z. lra.
Qed.

(** ** The fusion primitives in binary64 *)

(** *** The harmonic combination of two variances *)

Lemma harmonic_close (v1 v2 : float) :
  bpow (-500) <= value v1 <= bpow 500 ->
  bpow (-500) <= value v2 <= bpow 500 ->
  exists ch,
    normal (Q2float 1 / (Q2float 1 / v1 + Q2float 1 / v2))%float false ch /\
    rel (bpow (-49)) ch (value v1 * value v2 / (value v1 + value v2)).
Proof.
  intros H1 H2.
  pose proof (bpow_pos (-500)) as Hp. pose proof (bpow_pos 500) as Hq.
  assert (N1 : normal v1 false (value v1)).
  { destruct (normal_of_value v1) as [s Hn].
    - rewrite Rabs_pos_eq by lra. apply Rle_trans with (2 := proj1 H1). apply bpow_le. lia.
    - rewrite Rabs_pos_eq in Hn by lra. destruct (normal_value v1 s _ Hn) as [_ Hv].
      destruct s; [lra|exact Hn]. }
  assert (N2 : normal v2 false (value v2)).
  { destruct (normal_of_value v2) as [s Hn].
    - rewrite Rabs_pos_eq by lra. apply Rle_trans with (2 := proj1 H2). apply bpow_le. lia.
    - rewrite Rabs_pos_eq in Hn by lra. destruct (normal_value v2 s _ Hn) as [_ Hv].
      destruct s; [lra|exact Hn]. }
  set (V1 := value v1) in *. set (V2 := value v2) in *.
  pose proof bpow_52_small as Hu.
  assert (E500 : bpow 500 = / bpow (-500)).
  { rewrite bpow_neg. field. apply Rgt_not_eq, bpow_pos. }
  assert (Hinv : forall V, bpow (-500) <= V <= bpow 500 -> bpow (-500) <= 1 / V <= bpow 500).
  { intros V HV. unfold Rdiv. rewrite Rmult_1_l. split.
    - rewrite bpow_neg. apply Rinv_le_contravar; lra.
    - rewrite E500. apply Rinv_le_contravar; lra. }
  assert (Hrange : forall y, bpow (-502) <= y <= bpow 502 -> bpow (-1020) <= y < bpow 1020).
  { intros y Hy. split.
    - apply Rle_trans with (2 := proj1 Hy). apply bpow_le. lia.
    - apply Rle_lt_trans with (1 := proj2 Hy). apply bpow_lt. lia. }
  assert (E501 : bpow 501 = 2 * bpow 500)
    by (change 501%Z with (1 + 500)%Z; now rewrite bpow_add, bpow_1).
  assert (E502 : bpow 502 = 4 * bpow 500)
    by (change 502%Z with (2 + 500)%Z; rewrite bpow_add, (bpow_IZR 2) by lia; reflexivity).
  assert (Em501 : bpow (-500) = 2 * bpow (-501))
    by (change (-500)%Z with (1 + -501)%Z; now rewrite bpow_add, bpow_1).
  assert (Em502 : bpow (-500) = 4 * bpow (-502))
    by (change (-500)%Z with (2 + -502)%Z; rewrite bpow_add, (bpow_IZR 2) by lia; reflexivity).
  pose proof (bpow_pos (-502)) as Hp2.
  (* the two inverses *)
  destruct (div_normal (Q2float 1) v1 false false 1 V1 one_normal N1) as (c1 & Nc1 & Hc1).
  { apply Hrange. pose proof (Hinv V1 H1). lra. }
  destruct (div_normal (Q2float 1) v2 false false 1 V2 one_normal N2) as (c2 & Nc2 & Hc2).
  { apply Hrange. pose proof (Hinv V2 H2). lra. }
  cbn [xorb] in Nc1, Nc2.
  fold (rel (bpow (-52)) c1 (1 / V1)) in Hc1. fold (rel (bpow (-52)) c2 (1 / V2)) in Hc2.
  pose proof (Hinv V1 H1) as HI1. pose proof (Hinv V2 H2) as HI2.
  assert (Hu2 : 0 <= bpow (-52) <= 1 / 2) by lra.
  assert (P1 : 0 < 1 / V1) by lra. assert (P2 : 0 < 1 / V2) by lra.
  pose proof (rel_pos _ _ _ P1 Hu2 Hc1) as B1.
  pose proof (rel_pos _ _ _ P2 Hu2 Hc2) as B2.
  (* their sum *)
  destruct (add_normal _ _ false c1 c2 Nc1 Nc2) as (cs & Ns & Hs).
  { apply Rle_lt_trans with (bpow 502); [lra|]. apply bpow_lt. lia. }
  fold (rel (bpow (-52)) cs (c1 + c2)) in Hs.
  set (S := 1 / V1 + 1 / V2) in *.
  assert (HS : 0 < S) by (unfold S; lra).
  pose proof (rel_add _ _ _ _ _ Hc1 Hc2) as Hsum. fold S in Hsum.
  assert (Hu1 : 0 <= bpow (-52) <= 1) by lra.
  assert (Hu0 : 0 <= bpow (-52)) by lra.
  pose proof (rel_trans _ _ cs _ S HS Hu1 Hu0 Hsum Hs) as Hcs.
  set (e2 := bpow (-52) + bpow (-52) + bpow (-52) * bpow (-52)) in *.
  assert (He2 : 0 <= e2 <= 3 * bpow (-52)) by (unfold e2; nra).
  assert (Bs : S / 2 <= cs <= 2 * S) by (apply (rel_pos e2); [lra|lra|exact Hcs]).
  (* the inverse of the sum *)
  destruct (div_normal (Q2float 1) _ false false 1 cs one_normal Ns) as (ch & Nh & Hh).
  { apply Hrange. unfold Rdiv. rewrite Rmult_1_l.
    assert (Hsb : bpow (-500) <= cs <= bpow 502) by (unfold S in *; lra).
    split.
    - apply Rle_trans with (/ bpow 502).
      + rewrite bpow_neg. apply Rinv_le_contravar; [apply bpow_pos|lra].
      + apply Rinv_le_contravar; lra.
    - apply Rle_trans with (/ bpow (-500)).
      + apply Rinv_le_contravar; lra.
      + rewrite <- E500. lra. }
  cbn [xorb] in Nh. fold (rel (bpow (-52)) ch (1 / cs)) in Hh.
  exists ch. split; [exact Nh|].
  assert (Hinvs : rel (2 * e2) (/ cs) (/ S)) by (apply rel_inv; [lra|lra|exact Hcs]).
  assert (EH : V1 * V2 / (V1 + V2) = / S) by (unfold S; field; lra).
  rewrite EH. unfold Rdiv in Hh. rewrite Rmult_1_l in Hh.
  assert (HiS : 0 < / S) by now apply Rinv_0_lt_compat.
  assert (He3 : 0 <= 2 * e2 <= 1) by lra.
  pose proof (rel_trans _ _ ch _ (/ S) HiS He3 Hu0 Hinvs Hh) as Hfin.
  apply (rel_weaken _ (bpow (-49)) _ _ HiS) in Hfin; [exact Hfin|].
  rewrite bpow_49. nra.
Qed.

Lemma positive_normal (v : float) :
  bpow (-1022) <= value v -> normal v false (value v).
Proof.
  intros Hv. pose proof (bpow_pos (-1022)) as Hp.
  destruct (normal_of_value v) as [s Hn].
  - rewrite Rabs_pos_eq by lra. exact Hv.
  - rewrite Rabs_pos_eq in Hn by lra. destruct (normal_value v s _ Hn) as [_ Hval].
    destruct s; [lra|exact Hn].
Qed.

(** X21.  In binary64, for two variances between [2 ^ -500] and
    [2 ^ 500], [updateVarianceAlexey] returns a number: either the floor
    0.000001, and then the harmonic combination [v1 * v2 / (v1 + v2)] is
    below it but for the relative error [2 ^ -49], or a number within the
    relative error [2 ^ -49] of the harmonic combination.  It is not above
    the smaller of the two variances, but for that error, unless it is the
    floor. *)
Theorem updateVarianceAlexey_close (v1 v2 : float) :
  bpow (-500) <= value v1 <= bpow 500 ->
  bpow (-500) <= value v2 <= bpow 500 ->
  let h := value v1 * value v2 / (value v1 + value v2) in
  let r := updateVarianceAlexey v1 v2 in
  is_finite r = true /\
  ((r = dlit (1 # 1000000) /\ h * (1 - bpow (-49)) <= value r) \/
   Rabs (value r - h) <= bpow (-49) * h) /\
  value r <= Rmax (value (dlit (1 # 1000000)))
                  ((1 + bpow (-49)) * Rmin (value v1) (value v2)).
Proof.
  intros H1 H2 h r.
  destruct (harmonic_close v1 v2 H1 H2) as (ch & Nh & Hh). fold h in Hh.
  pose proof (bpow_pos (-500)) as Hp. pose proof (bpow_pos (-49)) as Hp49.
  assert (Hh0 : 0 < h).
  { unfold h. apply Rdiv_lt_0_compat; [apply Rmult_lt_0_compat|]; lra. }
  assert (Hmin : h <= Rmin (value v1) (value v2)).
  { assert (h * (value v1 + value v2) = value v1 * value v2) by (unfold h; field; lra).
    apply Rmin_glb; nra. }
  apply rel_bounds in Hh.
  unfold r, updateVarianceAlexey, dmax. cbn [dltb ddiv dadd dlit binary64].
  destruct (PrimFloat.ltb _ _) eqn:Hlt.
  - destruct floor_normal as (af & Nf & Haf).
    pose proof (ltb_normal _ _ _ _ Nh Nf Hlt) as Hlt'.
    destruct (normal_value _ _ _ Nf) as [Ff Vf].
    split; [exact Ff|]. rewrite Vf. split.
    + left. split; [reflexivity|]. lra.
    + apply Rmax_l.
  - destruct (normal_value _ _ _ Nh) as [Fh Vh].
    split; [exact Fh|]. rewrite Vh. split.
    + right. apply Rabs_le. lra.
    + eapply Rle_trans; [|apply Rmax_r].
      apply Rle_trans with (h + bpow (-49) * h); [lra|]. nra.
Qed.

(** *** The weighted mean of two coordinates of the same sign *)

Lemma blend_close (x1 x2 v1 v2 : float) (s : bool) (a1 a2 : R) :
  normal x1 s a1 -> normal x2 s a2 ->
  bpow (-400) <= a1 <= bpow 400 -> bpow (-400) <= a2 <= bpow 400 ->
  bpow (-400) <= value v1 <= bpow 400 -> bpow (-400) <= value v2 <= bpow 400 ->
  exists c,
    normal ((x2 * v1 + x1 * v2) * (Q2float 1 / (v1 + v2)))%float s c /\
    rel (bpow (-49)) c ((a2 * value v1 + a1 * value v2) / (value v1 + value v2)).
Proof.
  intros N1 N2 A1 A2 H1 H2.
  pose proof (bpow_pos (-400)) as Hp. pose proof (bpow_pos 400) as Hq.
  assert (L : bpow (-1022) <= bpow (-400)) by (apply bpow_le; lia).
  pose proof (positive_normal v1 ltac:(lra)) as Nv1.
  pose proof (positive_normal v2 ltac:(lra)) as Nv2.
  set (V1 := value v1) in *. set (V2 := value v2) in *.
  pose proof bpow_52_tiny as Hut.
  pose proof bpow_52_small as Hu.
  assert (Hu1 : 0 <= bpow (-52) <= 1) by lra.
  assert (Hu0 : 0 <= bpow (-52)) by lra.
  assert (Hu2 : 0 <= bpow (-52) <= 1 / 2) by lra.
  assert (E800 : bpow 800 = bpow 400 * bpow 400) by (rewrite <- bpow_add; reflexivity).
  assert (Em800 : bpow (-800) = bpow (-400) * bpow (-400))
    by (rewrite <- bpow_add; reflexivity).
  assert (Hprod : forall a V, bpow (-400) <= a <= bpow 400 -> bpow (-400) <= V <= bpow 400 ->
                  bpow (-800) <= a * V <= bpow 800).
  { intros a V Ha HV. rewrite E800, Em800. split; apply Rmult_le_compat; lra. }
  assert (Hrange : forall y, bpow (-810) <= y <= bpow 810 -> bpow (-1020) <= y < bpow 1020).
  { intros y Hy. split.
    - apply Rle_trans with (2 := proj1 Hy). apply bpow_le. lia.
    - apply Rle_lt_trans with (1 := proj2 Hy). apply bpow_lt. lia. }
  assert (W1 : bpow (-810) <= bpow (-800) / 4).
  { apply Rle_trans with (bpow (-802)); [apply bpow_le; lia|].
    change (-800)%Z with (2 + -802)%Z. rewrite bpow_add, (bpow_IZR 2) by lia.
    change (IZR (2 ^ 2)) with 4. pose proof (bpow_pos (-802)). lra. }
  assert (W2 : 8 * bpow 800 <= bpow 810).
  { apply Rle_trans with (bpow 803); [|apply bpow_le; lia].
    change 803%Z with (3 + 800)%Z. rewrite bpow_add, (bpow_IZR 3) by lia.
    change (IZR (2 ^ 3)) with 8. lra. }
  pose proof (bpow_pos (-800)) as Hp8. pose proof (bpow_pos 800) as Hq8.
  (* the two products *)
  pose proof (Hprod a2 V1 A2 H1) as P1. pose proof (Hprod a1 V2 A1 H2) as P2.
  destruct (mul_normal x2 v1 s false a2 V1 N2 Nv1) as (c1 & Nc1 & Hc1);
    [apply Hrange; lra|].
  destruct (mul_normal x1 v2 s false a1 V2 N1 Nv2) as (c2 & Nc2 & Hc2);
    [apply Hrange; lra|].
  rewrite xorb_false_r in Nc1, Nc2.
  fold (rel (bpow (-52)) c1 (a2 * V1)) in Hc1. fold (rel (bpow (-52)) c2 (a1 * V2)) in Hc2.
  assert (Q1 : 0 < a2 * V1) by lra. assert (Q2 : 0 < a1 * V2) by lra.
  pose proof (rel_pos _ _ _ Q1 Hu2 Hc1) as B1. pose proof (rel_pos _ _ _ Q2 Hu2 Hc2) as B2.
  (* their sum *)
  destruct (add_normal _ _ s c1 c2 Nc1 Nc2) as (cs & Ns & Hs).
  { apply Rle_lt_trans with (bpow 810); [lra|]. apply bpow_lt. lia. }
  fold (rel (bpow (-52)) cs (c1 + c2)) in Hs.
  set (T := a2 * V1 + a1 * V2) in *.
  assert (HT : 0 < T) by (unfold T; lra).
  pose proof (rel_add _ _ _ _ _ Hc1 Hc2) as Hsum. fold T in Hsum.
  pose proof (rel_trans _ _ cs _ T HT Hu1 Hu0 Hsum Hs) as Hcs.
  set (e2 := bpow (-52) + bpow (-52) + bpow (-52) * bpow (-52)) in *.
  assert (He2 : 0 <= e2 <= 21 / 10 * bpow (-52)) by (unfold e2; nra).
  assert (Bs : T / 2 <= cs <= 2 * T) by (apply (rel_pos e2); [lra|lra|exact Hcs]).
  (* the sum of the variances and its inverse *)
  destruct (add_normal _ _ false V1 V2 Nv1 Nv2) as (cw & Nw & Hw).
  { apply Rle_lt_trans with (bpow 401); [|apply bpow_lt; lia].
    change 401%Z with (1 + 400)%Z. rewrite bpow_add, bpow_1. lra. }
  fold (rel (bpow (-52)) cw (V1 + V2)) in Hw.
  assert (HW : 0 < V1 + V2) by lra.
  pose proof (rel_pos _ _ _ HW Hu2 Hw) as Bw.
  destruct (div_normal (Q2float 1) _ false false 1 cw one_normal Nw) as (ci & Ni & Hi).
  { unfold Rdiv. rewrite Rmult_1_l.
    assert (E400 : bpow 400 = / bpow (-400)).
    { rewrite bpow_neg. field. apply Rgt_not_eq, bpow_pos. }
    assert (Hcw : bpow (-400) <= cw <= 4 * bpow 400) by lra.
    split.
    - apply Rle_trans with (/ (4 * bpow 400)).
      + apply Rle_trans with (bpow (-402)); [apply bpow_le; lia|].
        rewrite bpow_neg. apply Rinv_le_contravar; [nra|].
        change 402%Z with (2 + 400)%Z. rewrite bpow_add, (bpow_IZR 2) by lia.
        change (IZR (2 ^ 2)) with 4. lra.
      + apply Rinv_le_contravar; lra.
    - apply Rle_lt_trans with (/ bpow (-400)).
      + apply Rinv_le_contravar; lra.
      + rewrite <- E400. apply bpow_lt. lia. }
  cbn [xorb] in Ni. fold (rel (bpow (-52)) ci (1 / cw)) in Hi.
  unfold Rdiv in Hi. rewrite Rmult_1_l in Hi.
  assert (Hinvw : rel (2 * bpow (-52)) (/ cw) (/ (V1 + V2)))
    by (apply rel_inv; [lra|lra|exact Hw]).
  assert (HiW : 0 < / (V1 + V2)) by now apply Rinv_0_lt_compat.
  assert (He3 : 0 <= 2 * bpow (-52) <= 1) by lra.
  pose proof (rel_trans _ _ ci _ (/ (V1 + V2)) HiW He3 Hu0 Hinvw Hi) as Hci.
  set (e3 := 2 * bpow (-52) + bpow (-52) + 2 * bpow (-52) * bpow (-52)) in *.
  assert (He3' : 0 <= e3 <= 31 / 10 * bpow (-52)) by (unfold e3; nra).
  assert (Bi : / (V1 + V2) / 2 <= ci <= 2 * / (V1 + V2))
    by (apply (rel_pos e3); [lra|lra|exact Hci]).
  (* the product of the two *)
  assert (Hmean : rel (e2 + e3 + e2 * e3) (cs * ci) (T * / (V1 + V2)))
    by (apply rel_mul; try lra; assumption).
  set (e4 := e2 + e3 + e2 * e3) in *.
  assert (He4 : 0 <= e4 <= 53 / 10 * bpow (-52)) by (unfold e4; nra).
  set (W := T * / (V1 + V2)) in *.
  assert (HWb : bpow (-400) <= W <= bpow 400).
  { assert (EW : W * (V1 + V2) = T) by (unfold W; field; lra).
    unfold T in EW. split.
    - apply Rmult_le_reg_r with (V1 + V2); [lra|]. rewrite EW. nra.
    - apply Rmult_le_reg_r with (V1 + V2); [lra|]. rewrite EW. nra. }
  assert (HW0 : 0 < W) by lra.
  assert (He4' : 0 <= e4 <= 1 / 2) by lra.
  pose proof (rel_pos _ _ _ HW0 He4' Hmean) as Bm.
  destruct (mul_normal _ _ s false cs ci Ns Ni) as (cr & Nr & Hr).
  { split.
    - apply Rle_trans with (bpow (-401)); [apply bpow_le; lia|].
      apply Rle_trans with (2 := proj1 Bm).
      change (-400)%Z with (1 + -401)%Z in HWb. rewrite bpow_add, bpow_1 in HWb.
      pose proof (bpow_pos (-401)). lra.
    - apply Rle_lt_trans with (1 := proj2 Bm).
      apply Rle_lt_trans with (bpow 401); [|apply bpow_lt; lia].
      change 401%Z with (1 + 400)%Z. rewrite bpow_add, bpow_1. lra. }
  rewrite xorb_false_r in Nr. fold (rel (bpow (-52)) cr (cs * ci)) in Hr.
  exists cr. split; [exact Nr|].
  assert (He4'' : 0 <= e4 <= 1) by lra.
  pose proof (rel_trans _ _ cr _ W HW0 He4'' Hu0 Hmean Hr) as Hfin.
  apply (rel_weaken _ (bpow (-49)) _ _ HW0) in Hfin; [exact Hfin|].
  rewrite bpow_49. nra.
Qed.

Lemma weighted_mean_between (x1 x2 v1 v2 : R) :
  0 < v1 -> 0 < v2 ->
  Rmin x1 x2 <= weighted_mean x1 x2 v1 v2 <= Rmax x1 x2.
Proof.
  intros H1 H2. unfold weighted_mean.
  assert (E : (x2 * v1 + x1 * v2) / (v1 + v2) * (v1 + v2) = x2 * v1 + x1 * v2)
    by (field; lra).
  set (w := (x2 * v1 + x1 * v2) / (v1 + v2)) in *.
  pose proof (Rmin_l x1 x2). pose proof (Rmin_r x1 x2).
  pose proof (Rmax_l x1 x2). pose proof (Rmax_r x1 x2).
  split.
  - apply Rmult_le_reg_r with (v1 + v2); [lra|]. rewrite E. nra.
  - apply Rmult_le_reg_r with (v1 + v2); [lra|]. rewrite E. nra.
Qed.

Lemma blend_mean_close (x1 x2 v1 v2 : float) :
  bpow (-400) <= value v1 <= bpow 400 ->
  bpow (-400) <= value v2 <= bpow 400 ->
  mean_close x1 x2 v1 v2 ((x2 * v1 + x1 * v2) * (Q2float 1 / (v1 + v2)))%float.
Proof.
  intros H1 H2 Hsign A1 A2 w.
  pose proof (bpow_pos (-400)) as Hp.
  assert (L : bpow (-1022) <= bpow (-400)) by (apply bpow_le; lia).
  destruct (normal_of_value x1 ltac:(lra)) as [s1 N1].
  destruct (normal_of_value x2 ltac:(lra)) as [s2 N2].
  destruct (normal_value _ _ _ N1) as [_ V1]. destruct (normal_value _ _ _ N2) as [_ V2].
  set (a1 := Rabs (value x1)) in *. set (a2 := Rabs (value x2)) in *.
  assert (Hs : s2 = s1).
  { destruct Hsign as [[P1 P2]|[P1 P2]]; destruct s1, s2; try reflexivity; lra. }
  subst s2.
  destruct (blend_close x1 x2 v1 v2 s1 a1 a2 N1 N2 A1 A2 H1 H2) as (c & Nc & Hc).
  destruct (normal_value _ _ _ Nc) as [Fc Vc].
  split; [exact Fc|]. split; [|apply weighted_mean_between; lra].
  set (W := (a2 * value v1 + a1 * value v2) / (value v1 + value v2)) in *.
  assert (HW : 0 < W).
  { unfold W. apply Rdiv_lt_0_compat; [|lra].
    assert (0 < a2 * value v1) by (apply Rmult_lt_0_compat; lra).
    assert (0 < a1 * value v2) by (apply Rmult_lt_0_compat; lra). lra. }
  assert (Ew : w = if s1 then - W else W).
  { unfold w, weighted_mean, W. rewrite V1, V2. destruct s1; field; lra. }
  rewrite Vc, Ew.
  replace ((if s1 then - c else c) - (if s1 then - W else W))
    with (if s1 then - (c - W) else c - W) by (destruct s1; ring).
  assert (Habs : Rabs (if s1 then - W else W) = W).
  { destruct s1; [rewrite Rabs_Ropp|]; apply Rabs_pos_eq; lra. }
  rewrite Habs. destruct s1; [rewrite Rabs_Ropp|]; exact Hc.
Qed.

Section Close.
Context `{Rotations float}.

(** X22.  In binary64, for two variances between [2 ^ -400] and
    [2 ^ 400], every coordinate of the translation [updateTransform] leaves
    is the weighted mean of the coordinates of the two translations, the
    first weighted by the second variance and the second by the first, up
    to rounding: when the two coordinates are numbers of the same sign, of
    magnitude between [2 ^ -400] and [2 ^ 400], it is a number within the
    relative error [2 ^ -49] of that mean, which lies between them. *)
Theorem updateTransform_close (t1 t2 : Transform float) (v1 v2 : float) :
  bpow (-400) <= value v1 <= bpow 400 ->
  bpow (-400) <= value v2 <= bpow 400 ->
  let t := updateTransform t1 v1 t2 v2 in
  mean_close (vx (getOrigin t1)) (vx (getOrigin t2)) v1 v2 (vx (getOrigin t)) /\
  mean_close (vy (getOrigin t1)) (vy (getOrigin t2)) v1 v2 (vy (getOrigin t)) /\
  mean_close (vz (getOrigin t1)) (vz (getOrigin t2)) v1 v2 (vz (getOrigin t)).
Proof.
  intros H1 H2 t. unfold t, updateTransform, setRotation, setOrigin, getOrigin.
  cbn [m_origin vdiv vadd vscale vx vy vz].
  split; [|split]; apply (blend_mean_close _ _ v1 v2 H1 H2).
Qed.

End Close.

(** ** The equal-variance law of the fusion, in binary64 *)




Section Law.
Context `{Rotations float}.



End Law.


Lemma in_range_normal (x : float) (s : bool) (m : positive) (e : Z) :
  Prim2SF x = S754_finite s m e -> digits2_pos m = 53%positive ->
  (-552 <= e <= 447)%Z -> in_range x.
Proof.
  intros E D He. unfold in_range, is_finite, value. rewrite E. split; [reflexivity|].
  right. cbn [SF2R]. pose proof (bpow_pos e) as Hp.
  destruct (mantissa_bounds_R m D) as [Hl Hu].
  assert (Habs : Rabs (IZR (cond_Zopp s (Zpos m)) * bpow e) = IZR (Zpos m) * bpow e).
  { rewrite Rabs_mult, (Rabs_pos_eq (bpow e)) by lra. f_equal.
    destruct s; simpl.
    - change (Zneg m) with (- Zpos m)%Z. rewrite opp_IZR, Rabs_Ropp.
      apply Rabs_pos_eq, IZR_le. lia.
    - apply Rabs_pos_eq, IZR_le. lia. }
  rewrite Habs. split.
  - apply Rle_trans with (bpow (52 + e)); [apply bpow_le; lia|].
    rewrite bpow_add. nra.
  - apply Rle_trans with (bpow (53 + e)); [|apply bpow_le; lia].
    rewrite bpow_add. nra.
Qed.

Lemma value_finite (x : float) (s : bool) (m : positive) (e : Z) :
  Prim2SF x = S754_finite s m e -> value x = IZR (cond_Zopp s (Zpos m)) * bpow e.
Proof. unfold value. now intros ->. Qed.



Lemma variance_in_range (v : float) (m : positive) (e : Z) :
  Prim2SF v = S754_finite false m e -> digits2_pos m = 53%positive ->
  (-452 <= e <= 347)%Z -> bpow (-400) <= value v <= bpow 400.
Proof.
  intros E D He. rewrite (value_finite v false m e E). cbn [cond_Zopp].
  destruct (mantissa_bounds_R m D) as [Hl Hu]. pose proof (bpow_pos e) as Hp.
  split.
  - apply Rle_trans with (bpow (52 + e)); [apply bpow_le; lia|]. rewrite bpow_add. nra.
  - apply Rle_trans with (bpow (53 + e)); [|apply bpow_le; lia]. rewrite bpow_add. nra.
Qed.

Lemma one_in_300_in_range_400 : bpow (-400) <= value one_in_300 <= bpow 400.
Proof. eapply variance_in_range; [vm_compute; reflexivity|reflexivity|lia]. Qed.

Lemma one_quarter_in_range_400 : bpow (-400) <= value one_quarter <= bpow 400.
Proof. eapply variance_in_range; [vm_compute; reflexivity|reflexivity|lia]. Qed.

Lemma bpow_500_400 (x : R) : bpow (-400) <= x <= bpow 400 -> bpow (-500) <= x <= bpow 500.
Proof.
  intros [Hl Hu]. split.
  - apply Rle_trans with (2 := Hl). apply bpow_le. lia.
  - apply Rle_trans with (1 := Hu). apply bpow_le. lia.
Qed.

(** X21 (witness): the variances 1/300 and 1/4. *)
Lemma updateVarianceAlexey_close_witness :
  let h := value one_in_300 * value one_quarter / (value one_in_300 + value one_quarter) in
  let r := updateVarianceAlexey one_in_300 one_quarter in
  bpow (-500) <= value one_in_300 <= bpow 500 /\
  bpow (-500) <= value one_quarter <= bpow 500 /\
  is_finite r = true /\
  ((r = dlit (1 # 1000000) /\ h * (1 - bpow (-49)) <= value r) \/
   Rabs (value r - h) <= bpow (-49) * h) /\
  value r <= Rmax (value (dlit (1 # 1000000)))
                  ((1 + bpow (-49)) * Rmin (value one_in_300) (value one_quarter)).
Proof.
  cbv zeta.
  pose proof (bpow_500_400 _ one_in_300_in_range_400) as H1.
  pose proof (bpow_500_400 _ one_quarter_in_range_400) as H2.
  split; [exact H1|]. split; [exact H2|].
  exact (updateVarianceAlexey_close one_in_300 one_quarter H1 H2).
Defined.

(** X22 (witness): the poses at (0.1, 0, -3) and (0.3, 0, -1), with the
    variances 1/300 and 1/4. *)
Lemma updateTransform_close_witness :
  let t := updateTransform pose_tenth one_in_300 pose_third one_quarter in
  bpow (-400) <= value one_in_300 <= bpow 400 /\
  bpow (-400) <= value one_quarter <= bpow 400 /\
  mean_close (vx (getOrigin pose_tenth)) (vx (getOrigin pose_third))
             one_in_300 one_quarter (vx (getOrigin t)) /\
  mean_close (vy (getOrigin pose_tenth)) (vy (getOrigin pose_third))
             one_in_300 one_quarter (vy (getOrigin t)) /\
  mean_close (vz (getOrigin pose_tenth)) (vz (getOrigin pose_third))
             one_in_300 one_quarter (vz (getOrigin t)).
Proof.
  cbv zeta.
  split; [exact one_in_300_in_range_400|]. split; [exact one_quarter_in_range_400|].
  exact (updateTransform_close pose_tenth pose_third one_in_300 one_quarter
           one_in_300_in_range_400 one_quarter_in_range_400).
Defined.

Close Scope R_scope.


(** ** The map file: what is written is read back *)

Section Lexical.
Context {D : Type} `{Scalar D} `{ScalarText D}.

(** Digits are read back as they were written. *)
Lemma scan_uint_chars (d : Decimal.uint) (rest : text) :
  no_digit_ahead rest -> scan_uint (chars_of_uint d ++ rest) = (d, rest).
Proof.
  intros Hrest.
  induction d as [|d IH|d IH|d IH|d IH|d IH|d IH|d IH|d IH|d IH|d IH];
    simpl; try (rewrite IH; reflexivity).
  destruct rest as [|c rest]; [reflexivity|]. simpl in *. now rewrite Hrest.
Qed.

(** Written digits hold no blank, no tab and no newline. *)
Lemma chars_of_uint_plain (d : Decimal.uint) :
  Forall (fun c => isspace c = false) (chars_of_uint d).
Proof. induction d; simpl; constructor; try reflexivity; assumption. Qed.

Lemma to_uint_nonnil (n : N) : N.to_uint n <> Decimal.Nil.
Proof.
  destruct n as [|p]; [discriminate|]. apply DecimalPos.Unsigned.to_uint_nonnil.
Qed.

Lemma to_int_nonnil (z : Z) :
  match Z.to_int z with
  | Decimal.Pos d | Decimal.Neg d => d <> Decimal.Nil
  end.
Proof.
  destruct z as [|p|p]; simpl; [discriminate| |];
    apply DecimalPos.Unsigned.to_uint_nonnil.
Qed.

Lemma skip_ws_digits (d : Decimal.uint) (rest : text) :
  d <> Decimal.Nil -> skip_ws (chars_of_uint d ++ rest) = chars_of_uint d ++ rest.
Proof. intros Hd. by_digit d. Qed.

Lemma scan_sign_digits (d : Decimal.uint) (rest : text) :
  d <> Decimal.Nil ->
  scan_sign (chars_of_uint d ++ rest) = (false, chars_of_uint d ++ rest).
Proof. intros Hd. by_digit d. Qed.

Lemma printf_d_plain (z : Z) : Forall (fun c => isspace c = false) (printf_d z).
Proof.
  unfold printf_d. destruct (Z.to_int z) as [d|d].
  - apply chars_of_uint_plain.
  - constructor; [reflexivity|apply chars_of_uint_plain].
Qed.

Lemma printf_d_nonempty (z : Z) : printf_d z <> [].
Proof.
  unfold printf_d. pose proof (to_int_nonnil z) as Hd.
  destruct (Z.to_int z) as [d|d]; [|discriminate]. by_digit d.
Qed.

(** [%d] reads back what [%d] wrote. *)
Lemma scanf_d_printf_d (z : Z) (rest : text) :
  no_digit_ahead rest -> scanf_d (printf_d z ++ rest) = Some (z, rest).
Proof.
  intros Hrest. unfold scanf_d, printf_d.
  pose proof (to_int_nonnil z) as Hd. pose proof (DecimalZ.of_to z) as Hz.
  destruct (Z.to_int z) as [d|d].
  - rewrite skip_ws_digits, scan_sign_digits, scan_uint_chars by assumption.
    rewrite Hz. by_digit d.
  - change (scan_sign (skip_ws (("-"%char :: chars_of_uint d) ++ rest)))
      with (true, chars_of_uint d ++ rest).
    cbv beta iota. rewrite scan_uint_chars by assumption.
    rewrite Hz. by_digit d.
Qed.

Lemma digit_uint_nonnil (k : N) (rest : Decimal.uint) : digit_uint k rest <> Decimal.Nil.
Proof.
  unfold digit_uint.
  repeat match goal with
         | |- context [match ?x with _ => _ end] => destruct x
         end; discriminate.
Qed.

Lemma six_digits_nonnil (r : N) : six_digits r <> Decimal.Nil.
Proof. apply digit_uint_nonnil. Qed.

Lemma printf_lf_plain (x : D) : Forall (fun c => isspace c = false) (printf_lf x).
Proof.
  unfold printf_lf. destruct (dclass x) as [|neg|neg q].
  - repeat constructor.
  - destruct neg; repeat constructor.
  - destruct (lf_digits q) as [ip fp].
    apply Forall_app. split; [destruct neg; repeat constructor|].
    apply Forall_app. split; [apply chars_of_uint_plain|].
    constructor; [reflexivity|apply chars_of_uint_plain].
Qed.

Lemma printf_lf_nonempty (x : D) : printf_lf x <> [].
Proof.
  unfold printf_lf. destruct (dclass x) as [|neg|neg q].
  - discriminate.
  - destruct neg; discriminate.
  - destruct (lf_digits q) as [ip fp]. destruct neg; [discriminate|].
    simpl. destruct (chars_of_uint ip); discriminate.
Qed.

Lemma no_digit_after_point (s : text) : no_digit_ahead ("."%char :: s).
Proof. reflexivity. Qed.

Lemma strip_prefix_digits (p : string) (d : Decimal.uint) (rest : text) :
  d <> Decimal.Nil ->
  (p = "inf" \/ p = "nan")%string ->
  strip_prefix (list_ascii_of_string p) (chars_of_uint d ++ rest) = None.
Proof. intros Hd [-> | ->]; by_digit d. Qed.

Lemma scan_lf_number_digits (negative : bool) (ip fp : Decimal.uint) (rest : text) :
  ip <> Decimal.Nil -> no_digit_ahead rest ->
  scan_lf_number negative (chars_of_uint ip ++ "."%char :: chars_of_uint fp ++ rest)
  = Some (dstrtod negative ip fp, rest).
Proof.
  intros Hip Hrest. unfold scan_lf_number.
  rewrite !strip_prefix_digits by auto.
  rewrite scan_uint_chars by apply no_digit_after_point.
  change ("."%char =? ".")%char with true. cbv iota.
  rewrite scan_uint_chars by assumption.
  destruct ip; congruence.
Qed.

(** [%lf] reads back, from what [%lf] wrote, the number [reread] names. *)
Lemma scanf_lf_printf_lf (x : D) (rest : text) :
  no_digit_ahead rest -> scanf_lf (printf_lf x ++ rest) = Some (reread x, rest).
Proof.
  intros Hrest. unfold scanf_lf, printf_lf, reread.
  destruct (dclass x) as [|neg|neg q].
  - reflexivity.
  - now destruct neg.
  - unfold lf_digits.
    set (n := round_half_even (q * 1000000)).
    pose proof (to_uint_nonnil (n / 1000000)) as Hip.
    set (ip := N.to_uint (n / 1000000)) in *.
    set (fp := six_digits (n mod 1000000)).
    destruct neg; unfold sign_chars.
    + change (scan_sign (skip_ws ((["-"%char] ++ ?s) ++ rest))) with (true, s ++ rest).
      cbv beta iota. rewrite <- app_assoc, <- app_comm_cons.
      now apply scan_lf_number_digits.
    + change ([] ++ ?s) with s.
      rewrite <- app_assoc, <- app_comm_cons.
      rewrite skip_ws_digits, scan_sign_digits by assumption.
      now apply scan_lf_number_digits.
Qed.

Lemma skip_ws_plain (s rest : text) :
  s <> [] -> Forall (fun c => isspace c = false) s -> skip_ws (s ++ rest) = s ++ rest.
Proof.
  intros Hs Hplain. destruct s as [|c s]; [congruence|].
  apply Forall_cons in Hplain as [Hc _]. simpl. now rewrite Hc.
Qed.

Lemma no_digit_ahead_SP (s : text) : no_digit_ahead (SP :: s).
Proof. reflexivity. Qed.

Lemma no_digit_ahead_NL (s : text) : no_digit_ahead (NL :: s).
Proof. reflexivity. Qed.

Lemma field_app (s rest tail : text) : field s rest ++ tail = field s (rest ++ tail).
Proof. unfold field. now rewrite <- app_assoc. Qed.

(** The conversions of the format: the first one, and each later one after
    the blank that ends the field before it. *)
Lemma scanf_d_first (z : Z) (rest : text) :
  scanf_d (field (printf_d z) rest) = Some (z, SP :: rest).
Proof. apply scanf_d_printf_d, no_digit_ahead_SP. Qed.

Lemma scanf_d_field (z : Z) (rest : text) :
  scanf_d (skip_ws (SP :: field (printf_d z) rest)) = Some (z, SP :: rest).
Proof.
  change (skip_ws (SP :: ?s)) with (skip_ws s). unfold field.
  rewrite skip_ws_plain by (apply printf_d_nonempty || apply printf_d_plain).
  apply scanf_d_printf_d, no_digit_ahead_SP.
Qed.

Lemma scanf_lf_field (x : D) (rest : text) :
  scanf_lf (skip_ws (SP :: field (printf_lf x) rest)) = Some (reread x, SP :: rest).
Proof.
  change (skip_ws (SP :: ?s)) with (skip_ws s). unfold field.
  rewrite skip_ws_plain by (apply printf_lf_nonempty || apply printf_lf_plain).
  apply scanf_lf_printf_lf, no_digit_ahead_SP.
Qed.

End Lexical.

Section Records.
Context {D : Type} `{Scalar D} `{ScalarText D} `{Rotations D}.
Variable indeterminate : Fiducial D.

Lemma plain_not_tab_nl (c : ascii) :
  isspace c = false -> (c =? TAB)%char || (c =? NL)%char = false.
Proof.
  unfold isspace. intros Hc.
  destruct (c =? SP)%char; [discriminate|].
  destruct (c =? TAB)%char; [discriminate|].
  now destruct (c =? NL)%char.
Qed.

Lemma plain_not_SP (c : ascii) : isspace c = false -> (c =? SP)%char = false.
Proof. unfold isspace. intros Hc. now destruct (c =? SP)%char. Qed.

Lemma scan_not_tab_nl_line (s rest : text) :
  Forall (fun c => (c =? TAB)%char || (c =? NL)%char = false) s ->
  scan_not_tab_nl (s ++ NL :: rest) = (s, NL :: rest).
Proof.
  induction 1 as [|c s Hc _ IH]; [reflexivity|].
  simpl. now rewrite Hc, IH.
Qed.

(** *** The links *)

Lemma links_text_inline (l : gmap Z Z) :
  Forall (fun c => (c =? TAB)%char || (c =? NL)%char = false) (links_text l).
Proof.
  unfold links_text. induction (entries l) as [|e es IH]; [constructor|].
  cbn [map concat]. rewrite field_app. unfold field. apply Forall_app. split.
  - eapply Forall_impl; [apply printf_d_plain|]. intros c. apply plain_not_tab_nl.
  - constructor; [reflexivity|exact IH].
Qed.

Lemma getline_all_piece (w piece rest : text) :
  Forall (fun c => (c =? SP)%char = false) w ->
  getline_all piece (w ++ SP :: rest) = (rev piece ++ w) :: getline_all [] rest.
Proof.
  intros Hw. revert piece. induction Hw as [|c w Hc _ IH]; intros piece.
  - simpl. now rewrite app_nil_r.
  - simpl. rewrite Hc, IH. simpl. now rewrite <- app_assoc.
Qed.

Lemma getline_all_links (es : list (Z * Z)) :
  getline_all [] (concat (map (fun e => field (printf_d (fst e)) []) es))
  = map (fun e => printf_d (fst e)) es.
Proof.
  induction es as [|e es IH]; [reflexivity|].
  cbn [map concat]. rewrite field_app. unfold field at 1. rewrite getline_all_piece.
  - cbn [rev app]. now rewrite IH.
  - eapply Forall_impl; [apply printf_d_plain|]. intros c. apply plain_not_SP.
Qed.

Lemma stoi_printf_d (z : Z) : stoi (printf_d z) = Some z.
Proof.
  unfold stoi. rewrite <- (app_nil_r (printf_d z)).
  now rewrite scanf_d_printf_d.
Qed.

Lemma read_links_written (es : list (Z * Z)) (acc : gmap Z Z) :
  read_links (map (fun e => printf_d (fst e)) es) acc
  = Some (foldl (fun a e => <[fst e := 1]> a) acc es).
Proof.
  revert acc. induction es as [|e es IH]; intros acc; [reflexivity|].
  simpl. now rewrite stoi_printf_d, IH.
Qed.

Lemma foldl_links_lookup (es : list (Z * Z)) (acc : gmap Z Z) (k : Z) :
  foldl (fun a e => <[fst e := 1]> a) acc es !! k
  = if decide (k ∈ es.*1) then Some 1 else acc !! k.
Proof.
  revert acc. induction es as [|e es IH]; intros acc.
  - rewrite decide_False; [reflexivity|]. intros Hin. inversion Hin.
  - cbn [foldl fmap list_fmap]. rewrite IH.
    destruct (decide (k ∈ es.*1)) as [Hin|Hnin].
    + rewrite decide_True; [reflexivity|]. now right.
    + destruct (decide (k = e.1)) as [->|Hne].
      * rewrite decide_True by now left. apply lookup_insert_eq.
      * rewrite decide_False.
        -- now rewrite lookup_insert_ne.
        -- intros Hin. inversion Hin; subst; contradiction.
Qed.

Lemma entries_Permutation {A : Type} (m : gmap Z A) : entries m ≡ₚ map_to_list m.
Proof. unfold entries. apply merge_sort_Permutation. Qed.

Lemma elem_of_entries {A : Type} (m : gmap Z A) (k : Z) (a : A) :
  (k, a) ∈ entries m <-> m !! k = Some a.
Proof. rewrite entries_Permutation. apply elem_of_map_to_list. Qed.

Lemma key_of_entries {A : Type} (m : gmap Z A) (k : Z) :
  k ∈ (entries m).*1 <-> is_Some (m !! k).
Proof.
  rewrite list_elem_of_fmap. split.
  - intros ([k' a] & -> & Hin). apply elem_of_entries in Hin. now exists a.
  - intros [a Ha]. exists (k, a). split; [reflexivity|now apply elem_of_entries].
Qed.

Lemma entries_NoDup {A : Type} (m : gmap Z A) : NoDup (entries m).*1.
Proof. rewrite entries_Permutation. apply NoDup_fst_map_to_list. Qed.

Lemma entries_nonempty {A : Type} (m : gmap Z A) : m <> ∅ -> entries m <> [].
Proof.
  intros Hm He. apply Hm. apply map_to_list_empty_iff.
  apply Permutation_nil_r. now rewrite <- entries_Permutation, He.
Qed.

(** The links read from the text of the links are the links written. *)
Lemma links_read_back (l : gmap Z Z) :
  read_links (getline_all [] (links_text l)) ∅ = Some ((fun _ => 1) <$> l).
Proof.
  unfold links_text. rewrite getline_all_links, read_links_written. f_equal.
  apply map_eq. intros k. rewrite foldl_links_lookup, lookup_fmap, lookup_empty.
  destruct (decide (k ∈ (entries l).*1)) as [Hin|Hnin].
  - apply key_of_entries in Hin as [v ->]. reflexivity.
  - destruct (l !! k) as [v|] eqn:Hk; [|reflexivity].
    exfalso. apply Hnin, key_of_entries. now exists v.
Qed.

Lemma links_text_starts (l : gmap Z Z) (rest : text) :
  l <> ∅ ->
  links_text l <> [] /\ skip_ws (links_text l ++ rest) = links_text l ++ rest.
Proof.
  intros Hl. unfold links_text.
  pose proof (entries_nonempty l Hl) as He.
  destruct (entries l) as [|e es]; [congruence|]. cbn [map concat]. unfold field at 1 3 4.
  pose proof (printf_d_nonempty e.1) as Hne. pose proof (printf_d_plain e.1) as Hpl.
  destruct (printf_d e.1) as [|c s]; [congruence|].
  apply Forall_cons in Hpl as [Hc _]. simpl. rewrite Hc. now split.
Qed.

End Records.

Section SaveLoad.
Context {D : Type} `{Scalar D} `{ScalarText D} `{Rotations D}.
Variable indeterminate : Fiducial D.

(** *** One record *)

(** [sscanf] makes its ten conversions on the record of a fiducial that has
    a link. *)
Lemma sscanf_record_line (f : Fiducial D) :
  links f <> ∅ ->
  sscanf_record (record_line f)
  = Some (let trans := getOrigin (pose f) in
          let '(rx, ry, rz) := getRPY (m_basis (pose f)) in
          mkFields (id f)
            (reread (vx trans)) (reread (vy trans)) (reread (vz trans))
            (reread (rad2deg rx)) (reread (rad2deg ry)) (reread (rad2deg rz))
            (reread (variance f)) (numObs f) (links_text (links f))).
Proof.
  intros Hl. unfold record_line, fields_text, sscanf_record.
  destruct (getRPY (m_basis (pose f))) as [[rx ry] rz]. cbv zeta.
  rewrite !field_app. change ([] ++ ?s) with s.
  rewrite scanf_d_first. cbn [mbind option_bind].
  do 7 (rewrite scanf_lf_field; cbn [mbind option_bind]).
  rewrite scanf_d_field. cbn [mbind option_bind].
  change (skip_ws (SP :: ?s)) with (skip_ws s).
  destruct (links_text_starts (links f) [NL] Hl) as [Hne Hskip].
  rewrite Hskip. unfold scanf_set.
  rewrite scan_not_tab_nl_line by apply links_text_inline.
  destruct (links_text (links f)); [congruence|reflexivity].
Qed.

Lemma loadMap_line_record (f : Fiducial D) (fids : gmap Z (Fiducial D)) :
  links f <> ∅ ->
  loadMap_line indeterminate fids (record_line f) = Some (<[id f := reloaded f]> fids).
Proof.
  intros Hl. unfold loadMap_line. rewrite (sscanf_record_line f Hl).
  unfold reloaded. destruct (getRPY (m_basis (pose f))) as [[rx ry] rz].
  cbv zeta. simpl. now rewrite links_read_back.
Qed.

(** X3.  On the record of a fiducial without links the tenth conversion
    finds nothing to read: [sscanf] does not return 10 and [loadMap] passes
    the record over. *)
Theorem sscanf_record_line_no_link (f : Fiducial D) :
  links f = ∅ -> sscanf_record (record_line f) = None.
Proof.
  intros Hl. unfold record_line, fields_text, sscanf_record, links_text.
  rewrite Hl. unfold entries. rewrite map_to_list_empty.
  destruct (getRPY (m_basis (pose f))) as [[rx ry] rz]. cbv zeta.
  rewrite !field_app. change ([] ++ ?s) with s.
  rewrite scanf_d_first. cbn [mbind option_bind].
  do 7 (rewrite scanf_lf_field; cbn [mbind option_bind]).
  rewrite scanf_d_field. reflexivity.
Qed.

(** *** The lines of the file *)

Lemma fgets_line (n : nat) (l rest : text) :
  Forall (fun c => (c =? NL)%char = false) l ->
  (length l < n)%nat ->
  fgets n (l ++ NL :: rest) = (l ++ [NL], rest).
Proof.
  intros Hl. revert n. induction Hl as [|c l Hc _ IH]; intros n Hn.
  - destruct n as [|n]; [lia|]. reflexivity.
  - destruct n as [|n]; [simpl in Hn; lia|].
    simpl. rewrite Hc, IH by (simpl in Hn; lia). reflexivity.
Qed.

Lemma read_lines_concat (lines : list text) (rounds : nat) :
  Forall buffered lines -> (length lines <= rounds)%nat ->
  read_lines rounds (concat lines) = lines.
Proof.
  intros Hl. revert rounds. induction Hl as [|line lines Hline _ IH]; intros rounds Hr.
  - destruct rounds; reflexivity.
  - destruct rounds as [|rounds]; [simpl in Hr; lia|].
    destruct Hline as (l & -> & Hnl & Hlen).
    cbn [concat]. rewrite <- app_assoc. change ([NL] ++ ?s) with (NL :: s).
    cbn [read_lines].
    rewrite length_app in Hlen. cbn [length] in Hlen.
    rewrite fgets_line by (assumption || lia).
    destruct (l ++ [NL]) as [|c s] eqn:E; [now destruct l|].
    rewrite IH by (simpl in Hr; lia). reflexivity.
Qed.

Lemma length_concat_buffered (lines : list text) :
  Forall buffered lines -> (length lines <= length (concat lines))%nat.
Proof.
  induction 1 as [|line lines (l & -> & _) _ IH]; [reflexivity|].
  simpl. rewrite !length_app. simpl. lia.
Qed.

Lemma record_line_buffered (f : Fiducial D) :
  (length (record_line f) <= BUFSIZE - 2)%nat -> buffered (record_line f).
Proof.
  intros Hlen. exists (fields_text f ++ links_text (links f)).
  split; [unfold record_line; now rewrite app_assoc|]. split; [|exact Hlen].
  assert (Hplain : forall s, Forall (fun c => isspace c = false) s ->
                             Forall (fun c => (c =? NL)%char = false) s).
  { intros s Hs. eapply Forall_impl; [exact Hs|]. intros c Hc.
    apply plain_not_tab_nl in Hc. now apply orb_false_iff in Hc as [_ Hc]. }
  apply Forall_app. split.
  - unfold fields_text. destruct (getRPY (m_basis (pose f))) as [[rx ry] rz].
    unfold field.
    repeat (apply Forall_app; split;
            [apply Hplain; (apply printf_d_plain || apply printf_lf_plain)|];
            constructor; [reflexivity|]).
    constructor.
  - eapply Forall_impl; [apply links_text_inline|].
    intros c Hc. now apply orb_false_iff in Hc as [_ Hc].
Qed.

(** *** The whole map *)

Lemma loadMap_lines_records (es : list (Z * Fiducial D)) (fids : gmap Z (Fiducial D)) :
  Forall (fun e => links (snd e) <> ∅) es ->
  loadMap_lines indeterminate (map (fun e => record_line (snd e)) es) fids
  = Some (foldl (fun a e => <[id (snd e) := reloaded (snd e)]> a) fids es).
Proof.
  intros Hes. revert fids. induction Hes as [|e es He _ IH]; intros fids; [reflexivity|].
  simpl. now rewrite loadMap_line_record, IH.
Qed.

Lemma foldl_records_other (es : list (Z * Fiducial D)) (fids : gmap Z (Fiducial D)) (k : Z) :
  Forall (fun e => id (snd e) = fst e) es ->
  k ∉ es.*1 ->
  foldl (fun a e => <[id (snd e) := reloaded (snd e)]> a) fids es !! k = fids !! k.
Proof.
  intros Hid. revert fids. induction Hid as [|e es He _ IH]; intros fids Hk; [reflexivity|].
  cbn [foldl]. rewrite IH.
  - rewrite lookup_insert_ne; [reflexivity|].
    rewrite He. intros Heq. apply Hk. rewrite <- Heq. now left.
  - intros Hin. apply Hk. now right.
Qed.

Lemma foldl_records_lookup (es : list (Z * Fiducial D)) (fids : gmap Z (Fiducial D))
    (k : Z) (f : Fiducial D) :
  Forall (fun e => id (snd e) = fst e) es ->
  NoDup es.*1 -> (k, f) ∈ es ->
  foldl (fun a e => <[id (snd e) := reloaded (snd e)]> a) fids es !! k
  = Some (reloaded f).
Proof.
  intros Hid. revert fids. induction Hid as [|e es He Hid IH]; intros fids Hnd Hin.
  - inversion Hin.
  - cbn [fmap list_fmap] in Hnd. apply NoDup_cons in Hnd as [Hfresh Hnd].
    cbn [foldl]. apply elem_of_cons in Hin as [Heq|Hin].
    + subst e. cbn [fst snd] in *.
      rewrite foldl_records_other by assumption.
      rewrite He. apply lookup_insert_eq.
    + now apply IH.
Qed.

(** *** A saved map with fiducials that have no link *)

Lemma loadMap_line_unlinked (f : Fiducial D) (fids : gmap Z (Fiducial D)) :
  links f = ∅ -> loadMap_line indeterminate fids (record_line f) = Some fids.
Proof.
  intros Hl. unfold loadMap_line.
  assert (E : sscanf_record (record_line f) = None).
  { unfold record_line, fields_text, sscanf_record, links_text.
    rewrite Hl. unfold entries. rewrite map_to_list_empty.
    destruct (getRPY (m_basis (pose f))) as [[rx ry] rz]. cbv zeta.
    rewrite !field_app. change ([] ++ ?s) with s.
    rewrite scanf_d_first. cbn [mbind option_bind].
    do 7 (rewrite scanf_lf_field; cbn [mbind option_bind]).
    rewrite scanf_d_field. reflexivity. }
  now rewrite E.
Qed.

Lemma loadMap_lines_any_links (es : list (Z * Fiducial D)) (fids : gmap Z (Fiducial D)) :
  loadMap_lines indeterminate (map (fun e => record_line (snd e)) es) fids
  = Some (foldl (fun a e => if decide (links (snd e) = ∅) then a
                            else <[id (snd e) := reloaded (snd e)]> a) fids es).
Proof.
  revert fids. induction es as [|e es IH]; intros fids; [reflexivity|].
  cbn [map loadMap_lines foldl]. destruct (decide (links e.2 = ∅)) as [Hl|Hl].
  - now rewrite loadMap_line_unlinked.
  - now rewrite loadMap_line_record.
Qed.

Lemma foldl_any_links_other (es : list (Z * Fiducial D)) (fids : gmap Z (Fiducial D))
    (k : Z) :
  Forall (fun e => id (snd e) = fst e) es ->
  k ∉ es.*1 ->
  foldl (fun a e => if decide (links (snd e) = ∅) then a
                    else <[id (snd e) := reloaded (snd e)]> a) fids es !! k
  = fids !! k.
Proof.
  intros Hid. revert fids. induction Hid as [|e es He _ IH]; intros fids Hk; [reflexivity|].
  cbn [foldl]. rewrite IH by (intros Hin; apply Hk; now right).
  destruct (decide (links e.2 = ∅)); [reflexivity|].
  rewrite lookup_insert_ne; [reflexivity|].
  rewrite He. intros Heq. apply Hk. rewrite <- Heq. now left.
Qed.

Lemma foldl_any_links_lookup (es : list (Z * Fiducial D)) (fids : gmap Z (Fiducial D))
    (k : Z) (f : Fiducial D) :
  Forall (fun e => id (snd e) = fst e) es ->
  NoDup es.*1 -> (k, f) ∈ es ->
  foldl (fun a e => if decide (links (snd e) = ∅) then a
                    else <[id (snd e) := reloaded (snd e)]> a) fids es !! k
  = if decide (links f = ∅) then fids !! k else Some (reloaded f).
Proof.
  intros Hid. revert fids. induction Hid as [|e es He Hid IH]; intros fids Hnd Hin.
  - inversion Hin.
  - cbn [fmap list_fmap] in Hnd. apply NoDup_cons in Hnd as [Hfresh Hnd].
    cbn [foldl]. apply elem_of_cons in Hin as [Heq|Hin].
    + subst e. cbn [fst snd] in *.
      rewrite foldl_any_links_other by assumption.
      destruct (decide (links f = ∅)); [reflexivity|].
      rewrite He. apply lookup_insert_eq.
    + rewrite IH by assumption.
      destruct (decide (links f = ∅)); [|reflexivity].
      destruct (decide (links e.2 = ∅)); [reflexivity|].
      rewrite lookup_insert_ne; [reflexivity|].
      rewrite He. intros Heq. apply Hfresh. rewrite Heq.
      apply list_elem_of_fmap. now exists (k, f).
Qed.

(** The whole file: what [loadMap] makes of what [saveMap] wrote. *)
Lemma loadMap_saveMap_foldl (m fids : gmap Z (Fiducial D)) :
  (forall k f, m !! k = Some f ->
     id f = k /\ (length (record_line f) <= BUFSIZE - 2)%nat) ->
  Forall (fun e => id (snd e) = fst e) (entries m) /\
  loadMap indeterminate (saveMap m) fids
  = Some (foldl (fun a e => if decide (links (snd e) = ∅) then a
                            else <[id (snd e) := reloaded (snd e)]> a) fids (entries m)).
Proof.
  intros Hm.
  assert (Hall : Forall (fun e => id (snd e) = fst e
                                  /\ (length (record_line (snd e)) <= BUFSIZE - 2)%nat)
                        (entries m)).
  { apply Forall_forall. intros [k f] Hin. apply elem_of_entries in Hin.
    exact (Hm k f Hin). }
  assert (Hbuf : Forall buffered (map (fun e => record_line (snd e)) (entries m))).
  { apply Forall_fmap. eapply Forall_impl; [exact Hall|].
    intros e (_ & Hlen). now apply record_line_buffered. }
  split.
  - eapply Forall_impl; [exact Hall|]. now intros e (He & _).
  - unfold loadMap, saveMap.
    rewrite read_lines_concat by (assumption || now apply length_concat_buffered).
    apply loadMap_lines_any_links.
Qed.

(** A saved map read back: every landmark that has a link is loaded as
    [reloaded] gives it, and nothing is loaded that was not saved. *)
Lemma loadMap_saveMap_reloaded (m : gmap Z (Fiducial D)) :
  (forall k f, m !! k = Some f ->
     id f = k /\ (length (record_line f) <= BUFSIZE - 2)%nat) ->
  exists fids',
    loadMap indeterminate (saveMap m) ∅ = Some fids' /\
    (forall k f, m !! k = Some f -> links f <> ∅ -> fids' !! k = Some (reloaded f)) /\
    (forall k g, fids' !! k = Some g -> exists f, m !! k = Some f /\ g = reloaded f).
Proof.
  intros Hm. destruct (loadMap_saveMap_foldl m ∅ Hm) as [Hid Hl].
  eexists. split; [exact Hl|]. split.
  - intros k f Hk Hlinks.
    rewrite (foldl_any_links_lookup (entries m) ∅ k f Hid (entries_NoDup m))
      by now apply elem_of_entries.
    now destruct (decide (links f = ∅)).
  - intros k g Hg. destruct (m !! k) as [f|] eqn:Hk.
    + rewrite (foldl_any_links_lookup (entries m) ∅ k f Hid (entries_NoDup m)) in Hg
        by now apply elem_of_entries.
      destruct (decide (links f = ∅)).
      * rewrite lookup_empty in Hg. discriminate Hg.
      * injection Hg as <-. now exists f.
    + rewrite foldl_any_links_other in Hg.
      * rewrite lookup_empty in Hg. discriminate Hg.
      * exact Hid.
      * intros Hin. apply key_of_entries in Hin as [f Hf]. congruence.
Qed.

End SaveLoad.

Lemma saved_by_engine_records (k : Z) (f : Fiducial float) :
  saved_by_engine !! k = Some f ->
  id f = k /\ (length (record_line f) <= BUFSIZE - 2)%nat.
Proof.
  assert (HF : forallb
                 (fun e : Z * Fiducial float =>
                    (id (snd e) =? fst e)
                    && (length (record_line (snd e)) <=? BUFSIZE - 2)%nat)
                 (entries saved_by_engine) = true)
    by (vm_compute; reflexivity).
  intros Hk. apply elem_of_entries, list_elem_of_In in Hk.
  apply (proj1 (forallb_forall _ _) HF), andb_true_iff in Hk as [Hid Hlen].
  split; [now apply Z.eqb_eq|now apply Nat.leb_le].
Qed.

(** X3 (witness): fiducial 12, which has no link. *)
Lemma sscanf_record_line_no_link_witness :
  links fiducial_12 = ∅ /\ sscanf_record (record_line fiducial_12) = None.
Proof.
  split; [reflexivity|]. exact (sscanf_record_line_no_link fiducial_12 eq_refl).
Defined.

(** C7 (counterexample).  Fiducial 5 is written with its first coordinate
    as "0.123457" and read back with that value, not the 0.1234567 it had;
    and the record of fiducial 12, which has no link, is not read back at
    all. *)
Lemma saved_map_is_not_read_back_exactly :
  (exists m' f',
     loadMap garbage (saveMap only_5) ∅ = Some m' /\ m' !! 5 = Some f' /\
     vx (getOrigin (pose f')) = Q2float (123457 # 1000000) /\
     vx (getOrigin (pose f')) <> vx (getOrigin (pose fiducial_5))) /\
  loadMap garbage (saveMap only_12) ∅ = Some ∅.
Proof.
  split.
  - do 2 eexists. split; [vm_compute; reflexivity|]. split; [reflexivity|].
    split; [vm_compute; reflexivity|]. float_differs.
  - vm_compute. reflexivity.
Qed.

(** ** The text of a double, in binary64 *)

(** *** Decimal digits *)

Lemma of_uint_acc_value (d : Decimal.uint) (acc : positive) :
  N.pos (Pos.of_uint_acc d acc)
  = (N.pos acc * 10 ^ N.of_nat (Decimal.nb_digits d) + Pos.of_uint d)%N.
Proof.
  revert acc. induction d as [|d IH|d IH|d IH|d IH|d IH|d IH|d IH|d IH|d IH|d IH];
    intros acc; cbn [Pos.of_uint_acc Pos.of_uint Decimal.nb_digits];
    rewrite ?Nat2N.inj_succ, ?N.pow_succ_r' .
  - rewrite N.pow_0_r. lia.
  - rewrite IH. lia.
  - rewrite IH, (IH 1%positive). lia.
  - rewrite IH, (IH 2%positive). lia.
  - rewrite IH, (IH 3%positive). lia.
  - rewrite IH, (IH 4%positive). lia.
  - rewrite IH, (IH 5%positive). lia.
  - rewrite IH, (IH 6%positive). lia.
  - rewrite IH, (IH 7%positive). lia.
  - rewrite IH, (IH 8%positive). lia.
  - rewrite IH, (IH 9%positive). lia.
Qed.

Lemma nb_digits_app (a b : Decimal.uint) :
  Decimal.nb_digits (Decimal.app a b) = (Decimal.nb_digits a + Decimal.nb_digits b)%nat.
Proof. rewrite !nb_digits_spec, app_spec. apply length_app. Qed.

Lemma of_uint_app (a b : Decimal.uint) :
  Pos.of_uint (Decimal.app a b)
  = (Pos.of_uint a * 10 ^ N.of_nat (Decimal.nb_digits b) + Pos.of_uint b)%N.
Proof.
  induction a as [|a IH|a IH|a IH|a IH|a IH|a IH|a IH|a IH|a IH|a IH].
  - rewrite DecimalFacts.app_nil_l. cbn [Pos.of_uint]. lia.
  - replace (Decimal.app (Decimal.D0 a) b) with (Decimal.D0 (Decimal.app a b))
      by (apply to_list_inj; cbn [to_list]; now rewrite !app_spec).
    cbn [Pos.of_uint]. exact IH.
  - replace (Decimal.app (Decimal.D1 a) b) with (Decimal.D1 (Decimal.app a b))
      by (apply to_list_inj; cbn [to_list]; now rewrite !app_spec).
    cbn [Pos.of_uint]. rewrite !of_uint_acc_value, IH, nb_digits_app, Nat2N.inj_add, N.pow_add_r. lia.
  - replace (Decimal.app (Decimal.D2 a) b) with (Decimal.D2 (Decimal.app a b))
      by (apply to_list_inj; cbn [to_list]; now rewrite !app_spec).
    cbn [Pos.of_uint]. rewrite !of_uint_acc_value, IH, nb_digits_app, Nat2N.inj_add, N.pow_add_r. lia.
  - replace (Decimal.app (Decimal.D3 a) b) with (Decimal.D3 (Decimal.app a b))
      by (apply to_list_inj; cbn [to_list]; now rewrite !app_spec).
    cbn [Pos.of_uint]. rewrite !of_uint_acc_value, IH, nb_digits_app, Nat2N.inj_add, N.pow_add_r. lia.
  - replace (Decimal.app (Decimal.D4 a) b) with (Decimal.D4 (Decimal.app a b))
      by (apply to_list_inj; cbn [to_list]; now rewrite !app_spec).
    cbn [Pos.of_uint]. rewrite !of_uint_acc_value, IH, nb_digits_app, Nat2N.inj_add, N.pow_add_r. lia.
  - replace (Decimal.app (Decimal.D5 a) b) with (Decimal.D5 (Decimal.app a b))
      by (apply to_list_inj; cbn [to_list]; now rewrite !app_spec).
    cbn [Pos.of_uint]. rewrite !of_uint_acc_value, IH, nb_digits_app, Nat2N.inj_add, N.pow_add_r. lia.
  - replace (Decimal.app (Decimal.D6 a) b) with (Decimal.D6 (Decimal.app a b))
      by (apply to_list_inj; cbn [to_list]; now rewrite !app_spec).
    cbn [Pos.of_uint]. rewrite !of_uint_acc_value, IH, nb_digits_app, Nat2N.inj_add, N.pow_add_r. lia.
  - replace (Decimal.app (Decimal.D7 a) b) with (Decimal.D7 (Decimal.app a b))
      by (apply to_list_inj; cbn [to_list]; now rewrite !app_spec).
    cbn [Pos.of_uint]. rewrite !of_uint_acc_value, IH, nb_digits_app, Nat2N.inj_add, N.pow_add_r. lia.
  - replace (Decimal.app (Decimal.D8 a) b) with (Decimal.D8 (Decimal.app a b))
      by (apply to_list_inj; cbn [to_list]; now rewrite !app_spec).
    cbn [Pos.of_uint]. rewrite !of_uint_acc_value, IH, nb_digits_app, Nat2N.inj_add, N.pow_add_r. lia.
  - replace (Decimal.app (Decimal.D9 a) b) with (Decimal.D9 (Decimal.app a b))
      by (apply to_list_inj; cbn [to_list]; now rewrite !app_spec).
    cbn [Pos.of_uint]. rewrite !of_uint_acc_value, IH, nb_digits_app, Nat2N.inj_add, N.pow_add_r. lia.
Qed.

Lemma digit_uint_value (k : N) (rest : Decimal.uint) :
  (k < 10)%N ->
  Decimal.nb_digits (digit_uint k rest) = S (Decimal.nb_digits rest) /\
  Pos.of_uint (digit_uint k rest)
  = (k * 10 ^ N.of_nat (Decimal.nb_digits rest) + Pos.of_uint rest)%N.
Proof.
  intros Hk.
  assert (Hc : (k = 0 \/ k = 1 \/ k = 2 \/ k = 3 \/ k = 4 \/ k = 5 \/ k = 6 \/ k = 7
                \/ k = 8 \/ k = 9)%N) by lia.
  destruct Hc as [->|[->|[->|[->|[->|[->|[->|[->|[->| ->]]]]]]]]];
    (split; [reflexivity|]); cbn [digit_uint Pos.of_uint];
    rewrite ?of_uint_acc_value; lia.
Qed.

Lemma six_digits_value (r : N) :
  (r < 1000000)%N ->
  Decimal.nb_digits (six_digits r) = 6%nat /\ Pos.of_uint (six_digits r) = r.
Proof.
  intros Hr. unfold six_digits.
  assert (H10 : forall x, (x mod 10 < 10)%N) by (intros x; apply N.mod_lt; lia).
  repeat match goal with
         | |- context [Pos.of_uint (digit_uint ?k ?rest)] =>
             rewrite (proj2 (digit_uint_value k rest (H10 _)))
         end.
  repeat match goal with
         | |- context [Decimal.nb_digits (digit_uint ?k ?rest)] =>
             rewrite (proj1 (digit_uint_value k rest (H10 _)))
         end.
  split; [reflexivity|].
  change (Pos.of_uint Decimal.Nil) with 0%N.
  change (10 ^ N.of_nat (S (S (S (S (S (Decimal.nb_digits Decimal.Nil)))))))%N with 100000%N.
  change (10 ^ N.of_nat (S (S (S (S (Decimal.nb_digits Decimal.Nil))))))%N with 10000%N.
  change (10 ^ N.of_nat (S (S (S (Decimal.nb_digits Decimal.Nil)))))%N with 1000%N.
  change (10 ^ N.of_nat (S (S (Decimal.nb_digits Decimal.Nil))))%N with 100%N.
  change (10 ^ N.of_nat (S (Decimal.nb_digits Decimal.Nil)))%N with 10%N.
  change (10 ^ N.of_nat (Decimal.nb_digits Decimal.Nil))%N with 1%N.
  pose proof (N.div_mod' r 10) as E1.
  pose proof (N.div_mod' (r / 10) 10) as E2. rewrite N.Div0.div_div in E2.
  pose proof (N.div_mod' (r / 100) 10) as E3. rewrite N.Div0.div_div in E3.
  pose proof (N.div_mod' (r / 1000) 10) as E4. rewrite N.Div0.div_div in E4.
  pose proof (N.div_mod' (r / 10000) 10) as E5. rewrite N.Div0.div_div in E5.
  change (10 * 10)%N with 100%N in *. change (100 * 10)%N with 1000%N in *.
  change (1000 * 10)%N with 10000%N in *. change (10000 * 10)%N with 100000%N in *.
  assert (E6 : ((r / 100000) mod 10 = r / 100000)%N).
  { apply N.mod_small. apply N.Div0.div_lt_upper_bound; lia. }
  lia.
Qed.

(** What [%lf] reads from the digits it wrote is the rounded number of
    millionths, over a million. *)
Lemma lf_digits_number (q : Q) :
  let n := round_half_even (q * 1000000) in
  let '(ip, fp) := lf_digits q in
  N.of_uint (Decimal.app ip fp) = n /\ Decimal.nb_digits fp = 6%nat.
Proof.
  cbv zeta. unfold lf_digits. set (n := round_half_even (q * 1000000)).
  assert (Hr : (n mod 1000000 < 1000000)%N) by (apply N.mod_lt; lia).
  destruct (six_digits_value _ Hr) as [L V].
  split; [|exact L].
  unfold N.of_uint. rewrite of_uint_app, L, V.
  change (Pos.of_uint (N.to_uint (n / 1000000))) with (N.of_uint (N.to_uint (n / 1000000))).
  rewrite DecimalN.Unsigned.of_to. change (10 ^ N.of_nat 6)%N with 1000000%N.
  pose proof (N.div_mod' n 1000000). lia.
Qed.

(** [round_half_even] is within one half of the number it rounds. *)
Lemma round_half_even_near (num : Z) (den : positive) :
  (0 <= num)%Z ->
  let n := Z.of_N (round_half_even ((num # den) * 1000000)) in
  (2 * Z.abs (n * Zpos den - num * 1000000) <= Zpos den)%Z.
Proof.
  intros Hnum. cbv zeta. unfold round_half_even.
  cbn [Qmult Qnum Qden]. change (Qnum 1000000) with 1000000%Z.
  change (Qden 1000000) with 1%positive. rewrite Pos.mul_1_r.
  pose proof (N.div_eucl_spec (Z.to_N (num * 1000000)) (N.pos den)) as Hs.
  pose proof (N.mod_lt (Z.to_N (num * 1000000)) (N.pos den) ltac:(lia)) as Hlt.
  unfold N.modulo in Hlt.
  destruct (N.div_eucl (Z.to_N (num * 1000000)) (N.pos den)) as [k r].
  cbn [snd] in Hlt.
  destruct (N.compare_spec (2 * r) (N.pos den)) as [He|Hl|Hg].
  - destruct (N.even k); lia.
  - lia.
  - lia.
Qed.

Open Scope R_scope.

(** *** The double nearest to a quotient of two integers *)

Lemma Q2float_normal (p q : positive) :
  let d1 := Zpos (digits2_pos p) in
  let d2 := Zpos (digits2_pos q) in
  (d1 <= d2 + 53)%Z -> (-1074 <= d1 - d2 - 53)%Z -> (d1 - d2 <= 1022)%Z ->
  exists c, normal (Q2float (Zpos p # q)) false c /\
            rel (bpow (-52)) c (IZR (Zpos p) / IZR (Zpos q)).
Proof.
  intros d1 d2 H1 H2 H3. unfold Q2float. cbn [Qnum Qden].
  destruct (SFdiv_value false false p q 0 0) as (m3 & e3 & E & D3 & He3 & Hc);
    try (fold d1 d2; lia).
  exists (IZR (Zpos m3) * bpow e3). split.
  - exists m3, e3. split; [|split; [exact D3|reflexivity]].
    rewrite E. apply Prim2SF_SF2Prim.
    unfold valid_binary, SpecFloat.valid_binary, SpecFloat.bounded,
      SpecFloat.canonical_mantissa. rewrite D3.
    apply andb_true_iff. split.
    + apply Z.eqb_eq. unfold fexp, SpecFloat.emin, prec, emax. lia.
    + apply Z.leb_le. unfold prec, emax. lia.
  - unfold rel. change (bpow 0) with 1 in Hc. rewrite !Rmult_1_r in Hc. exact Hc.
Qed.

(** *** What [float_class] takes from a double *)

Lemma float_class_finite (x : float) :
  is_finite x = true ->
  exists s num den,
    float_class x = fp_finite s (num # den) /\
    (0 <= num)%Z /\
    Rabs (value x) = IZR num / IZR (Zpos den) /\
    value x = (if s then - Rabs (value x) else Rabs (value x)).
Proof.
  unfold is_finite, float_class, value.
  destruct (Prim2SF x) as [s|s| |s m e]; try discriminate; intros _.
  - exists s, 0%Z, 1%positive. split; [reflexivity|]. split; [lia|].
    cbn [SF2R]. rewrite Rabs_R0. split; [lra|]. destruct s; lra.
  - pose proof (bpow_pos e) as He.
    assert (Habs : Rabs (SF2R (S754_finite s m e)) = IZR (Zpos m) * bpow e).
    { cbn [SF2R]. rewrite Rabs_mult, (Rabs_pos_eq (bpow e)) by lra. f_equal.
      destruct s; simpl.
      - change (Zneg m) with (- Zpos m)%Z. rewrite opp_IZR, Rabs_Ropp.
        apply Rabs_pos_eq, IZR_le. lia.
      - apply Rabs_pos_eq, IZR_le. lia. }
    assert (Hsign : SF2R (S754_finite s m e)
                    = (if s then - (IZR (Zpos m) * bpow e) else IZR (Zpos m) * bpow e)).
    { cbn [SF2R]. destruct s; simpl; [|reflexivity].
      change (Zneg m) with (- Zpos m)%Z. rewrite opp_IZR. ring. }
    rewrite Habs.
    destruct (e <? 0)%Z eqn:Hneg.
    + apply Z.ltb_lt in Hneg.
      assert (Hp : (0 < 2 ^ (- e))%Z) by (apply Z.pow_pos_nonneg; lia).
      exists s, (Zpos m), (Z.to_pos (2 ^ (- e))). split; [reflexivity|]. split; [lia|].
      split; [|exact Hsign].
      rewrite Z2Pos.id by exact Hp. rewrite <- bpow_IZR by lia.
      replace e with (- (- e))%Z at 1 by lia.
      destruct (- e)%Z as [|pe|pe] eqn:Ee; try lia.
      change (- Zpos pe)%Z with (Zneg pe). rewrite bpow_neg. reflexivity.
    + apply Z.ltb_ge in Hneg.
      exists s, (Zpos m * 2 ^ e)%Z, 1%positive. split; [reflexivity|].
      assert (Hp : (0 < 2 ^ e)%Z) by (apply Z.pow_pos_nonneg; lia).
      split; [nia|]. split; [|exact Hsign].
      rewrite mult_IZR, <- bpow_IZR by lia. field.
Qed.

(** *** A double written with [%lf] and read back *)

Lemma reread_float (x : float) (s : bool) (q : Q) :
  float_class x = fp_finite s q ->
  reread x
  = let y := Q2float (Z.of_N (round_half_even (q * 1000000)) # 1000000) in
    if s then (- y)%float else y.
Proof.
  intros Hc. unfold reread. cbn [dclass binary64_text]. rewrite Hc.
  pose proof (lf_digits_number q) as Hn. cbv zeta in Hn.
  destruct (lf_digits q) as [ip fp]. destruct Hn as [Hn Hl].
  cbn [dstrtod binary64_text]. unfold float_strtod. rewrite Hn, Hl. reflexivity.
Qed.

Lemma opp_normal (y : float) (s : bool) (c : R) :
  normal y s c -> normal (- y)%float (negb s) c.
Proof.
  intros (m & e & E & D & ->). exists m, e.
  rewrite opp_spec, E. split; [reflexivity|]. split; [exact D|reflexivity].
Qed.

Lemma reread_cases (x : float) :
  is_finite x = true -> Rabs (value x) <= bpow 52 ->
  exists s : bool,
    value x = (if s then - Rabs (value x) else Rabs (value x)) /\
    ((Prim2SF (reread x) = S754_zero s /\ Rabs (value x) <= 5 / 10000000) \/
     (exists c, normal (reread x) s c /\
                999999 / 1000000000000 <= c /\
                Rabs (c - Rabs (value x))
                <= 5 / 10000000 + bpow (-51) * Rabs (value x))).
Proof.
  intros Hfin Hmax.
  destruct (float_class_finite x Hfin) as (s & num & den & Hc & Hnum & Habs & Hsign).
  exists s. split; [exact Hsign|].
  rewrite (reread_float x s _ Hc). cbv zeta.
  pose proof (round_half_even_near num den Hnum) as Hnear. cbv zeta in Hnear.
  set (X := Rabs (value x)) in *.
  assert (HD : 0 < IZR (Zpos den)) by (apply IZR_lt; lia).
  assert (HN : 0 <= IZR num) by (apply IZR_le; lia).
  assert (HX : IZR num = X * IZR (Zpos den)) by (rewrite Habs; field; lra).
  assert (HX0 : 0 <= X) by apply Rabs_pos.
  apply IZR_le in Hnear.
  rewrite mult_IZR, abs_IZR, minus_IZR, !mult_IZR, HX in Hnear.
  destruct (round_half_even ((num # den) * 1000000)) as [|p] eqn:En.
  - (* written as 0.000000 *)
    left. split; [destruct s; reflexivity|].
    change (IZR (Z.of_N 0)) with 0 in Hnear.
    replace (0 * IZR (Zpos den) - X * IZR (Zpos den) * 1000000)
      with (- (X * 1000000 * IZR (Zpos den))) in Hnear by ring.
    rewrite Rabs_Ropp, Rabs_pos_eq in Hnear by (apply Rmult_le_pos; lra).
    nra.
  - right. change (Z.of_N (N.pos p)) with (Zpos p) in *.
    set (t := IZR (Zpos p) / 1000000).
    assert (HP : IZR (Zpos p) = t * 1000000) by (unfold t; field).
    assert (Ht1 : 1 / 1000000 <= t).
    { unfold t. assert (1 <= IZR (Zpos p)) by (apply IZR_le; lia). lra. }
    rewrite HP in Hnear.
    assert (Htx : Rabs (t - X) <= 5 / 10000000).
    { replace (t * 1000000 * IZR (Zpos den) - X * IZR (Zpos den) * 1000000)
        with ((t - X) * (1000000 * IZR (Zpos den))) in Hnear by ring.
      rewrite Rabs_mult, (Rabs_pos_eq (1000000 * IZR (Zpos den))) in Hnear by lra.
      pose proof (Rabs_pos (t - X)). nra. }
    assert (Htx' : - (5 / 10000000) <= t - X <= 5 / 10000000).
    { revert Htx. unfold Rabs. destruct (Rcase_abs (t - X)); lra. }
    (* the size of the number read *)
    assert (Hp : (Zpos p < 2 ^ 72)%Z).
    { apply lt_IZR. rewrite HP.
      assert (X <= IZR (2 ^ 52)) by (now rewrite <- bpow_IZR by lia).
      change (2 ^ 52)%Z with 4503599627370496%Z in H.
      change (2 ^ 72)%Z with 4722366482869645213696%Z. lra. }
    destruct (digits2_pos_bounds p) as [Hdl _].
    assert (Hd : (Zpos (digits2_pos p) <= 72)%Z).
    { assert (Zpos (digits2_pos p) - 1 < 72)%Z by (apply (Z.pow_lt_mono_r_iff 2); lia). lia. }
    destruct (Q2float_normal p 1000000) as (c & Nc & Hrel);
      try (change (Zpos (digits2_pos 1000000)) with 20%Z; lia).
    fold t in Hrel. apply rel_bounds in Hrel.
    pose proof bpow_52_small as Hu.
    assert (E51 : bpow (-51) = 2 * bpow (-52))
      by (change (-51)%Z with (1 + -52)%Z; now rewrite bpow_add, bpow_1).
    exists c. split; [|split].
    + destruct s; [exact (opp_normal _ _ _ Nc)|exact Nc].
    + pose proof bpow_52_tiny.
      assert (bpow (-52) * t <= t / 1000000000000) by nra. lra.
    + apply Rabs_le. rewrite E51.
      assert (0 <= bpow (-52) * t <= 2 * bpow (-52) * X).
      { split; [apply Rmult_le_pos; lra|]. nra. }
      lra.
Qed.

(** A double whose magnitude is at most [2 ^ 52], written with [%lf] and
    read back, is a number at most 0.0000005 and a relative [2 ^ -51] from
    it. *)
Lemma reread_close (x : float) :
  is_finite x = true -> Rabs (value x) <= bpow 52 ->
  is_finite (reread x) = true /\
  Rabs (value (reread x) - value x) <= 5 / 10000000 + bpow (-51) * Rabs (value x).
Proof.
  intros Hfin Hmax.
  destruct (reread_cases x Hfin Hmax) as (s & Hsign & [[Hz Hx]|(c & Nc & _ & Hc)]).
  - unfold is_finite, value at 1. rewrite Hz. split; [reflexivity|].
    cbn [SF2R]. rewrite Rminus_0_l, Rabs_Ropp.
    pose proof (bpow_pos (-51)). pose proof (Rabs_pos (value x)). nra.
  - destruct (normal_value _ _ _ Nc) as [Fr Vr]. split; [exact Fr|].
    rewrite Vr. rewrite Hsign at 1.
    replace ((if s then - c else c)
             - (if s then - Rabs (value x) else Rabs (value x)))
      with (if s then - (c - Rabs (value x)) else c - Rabs (value x))
      by (destruct s; ring).
    destruct s; [rewrite Rabs_Ropp|]; exact Hc.
Qed.

(** *** Degrees and radians *)

Lemma normal_180 : normal (Q2float 180) false 180.
Proof.
  exists 6333186975989760%positive, (-45)%Z. split; [vm_compute; reflexivity|].
  split; [reflexivity|].
  rewrite bpow_neg, (bpow_IZR 45) by lia. change (2 ^ 45)%Z with 35184372088832%Z. lra.
Qed.

Lemma normal_M_PI :
  exists pi_f, normal (M_PI (D := float)) false pi_f /\ 31415 / 10000 <= pi_f <= 31416 / 10000.
Proof.
  exists (IZR (Zpos 7074237752028440) * bpow (-51)). split.
  - exists 7074237752028440%positive, (-51)%Z. split; [vm_compute; reflexivity|].
    split; reflexivity.
  - rewrite bpow_neg, (bpow_IZR 51) by lia. change (2 ^ 51)%Z with 2251799813685248%Z. lra.
Qed.

(** *** A number scaled by a quotient and back *)

Lemma scale_trip (a k1 k2 : float) (K1 K2 : R) :
  normal k1 false K1 -> normal k2 false K2 ->
  1 <= K1 <= 256 -> 1 <= K2 <= 256 ->
  in_range a ->
  is_finite (a * k1 / k2 * k2 / k1)%float = true /\
  Rabs (value (a * k1 / k2 * k2 / k1)%float - value a) <= bpow (-49) * Rabs (value a).
Proof.
  intros Nk1 Nk2 HK1 HK2 [Hfin Ha].
  pose proof bpow_52_tiny as Hut. pose proof (bpow_pos (-52)) as Hup.
  destruct Ha as [Hzero|Hmag].
  - destruct (zero_of_value a Hfin Hzero) as [s Ea].
    destruct Nk1 as (m1 & e1 & E1 & _). destruct Nk2 as (m2 & e2 & E2 & _).
    assert (Er : Prim2SF (a * k1 / k2 * k2 / k1)%float = S754_zero s).
    { rewrite div_spec, mul_spec, div_spec, mul_spec, Ea, E1, E2. cbn.
      now rewrite !xorb_false_r. }
    unfold is_finite, value at 1. rewrite Er. split; [reflexivity|].
    cbn [SF2R]. rewrite Hzero, Rminus_diag, Rabs_R0. lra.
  - destruct (normal_of_value a) as [s Na].
    { apply Rle_trans with (2 := proj1 Hmag). apply bpow_le. lia. }
    destruct (normal_value _ _ _ Na) as [_ Va].
    set (A := Rabs (value a)) in *.
    pose proof (bpow_pos (-500)) as Hp. pose proof (bpow_pos 500) as Hq.
    assert (HA : 0 < A) by lra.
    assert (Hu1 : 0 <= bpow (-52) <= 1) by lra.
    assert (Hu0 : 0 <= bpow (-52)) by lra.
    assert (Hrange : forall y, bpow (-500) / 256 / 2 <= y <= bpow 500 * 256 * 2 ->
                     bpow (-1020) <= y < bpow 1020).
    { intros y Hy.
      assert (E1 : bpow (-500) / 256 / 2 = bpow (-509)).
      { change (-500)%Z with (9 + -509)%Z. rewrite bpow_add, (bpow_IZR 9) by lia.
        change (IZR (2 ^ 9)) with 512. field. }
      assert (E2 : bpow 500 * 256 * 2 = bpow 509).
      { change 509%Z with (500 + 9)%Z. rewrite bpow_add, (bpow_IZR 9) by lia.
        change (IZR (2 ^ 9)) with 512. ring. }
      rewrite E1, E2 in Hy. split.
      - apply Rle_trans with (2 := proj1 Hy). apply bpow_le. lia.
      - apply Rle_lt_trans with (1 := proj2 Hy). apply bpow_lt. lia. }
    set (e2 := bpow (-52) + bpow (-52) + bpow (-52) * bpow (-52)).
    assert (He2 : 0 <= e2 <= 21 / 10 * bpow (-52)) by (unfold e2; nra).
    (* a * k1 *)
    assert (P1 : 0 < A * K1) by nra.
    destruct (mul_normal a k1 s false A K1 Na Nk1) as (c1 & N1 & H1).
    { apply Hrange. split; nra. }
    rewrite xorb_false_r in N1. fold (rel (bpow (-52)) c1 (A * K1)) in H1.
    (* / k2 *)
    assert (HiK2 : / 256 <= / K2 <= 1).
    { split; [apply Rinv_le_contravar; lra|].
      rewrite <- Rinv_1. apply Rinv_le_contravar; lra. }
    assert (HiK1 : / 256 <= / K1 <= 1).
    { split; [apply Rinv_le_contravar; lra|].
      rewrite <- Rinv_1. apply Rinv_le_contravar; lra. }
    assert (R1 : rel (bpow (-52)) (c1 / K2) (A * K1 / K2)) by (apply rel_scale; [lra|exact H1]).
    assert (P2 : 0 < A * K1 / K2) by (apply Rdiv_lt_0_compat; lra).
    assert (B1 : A * K1 / 2 <= c1 <= 2 * (A * K1)) by (apply (rel_pos (bpow (-52))); lra || assumption).
    destruct (div_normal _ k2 s false c1 K2 N1 Nk2) as (c2 & N2 & H2).
    { apply Hrange. unfold Rdiv. split.
      - apply Rle_trans with (A * K1 / 2 * / 256); [nra|].
        apply Rmult_le_compat; lra.
      - apply Rle_trans with (2 * (A * K1) * 1); [|nra].
        apply Rmult_le_compat; lra. }
    rewrite xorb_false_r in N2. fold (rel (bpow (-52)) c2 (c1 / K2)) in H2.
    pose proof (rel_trans _ _ c2 _ _ P2 Hu1 Hu0 R1 H2) as R2. fold e2 in R2.
    (* * k2 *)
    assert (R2' : rel e2 (c2 * K2) (A * K1)).
    { assert (R : rel e2 (c2 * K2) (A * K1 / K2 * K2)) by (apply rel_scale; [lra|exact R2]).
      replace (A * K1 / K2 * K2) with (A * K1) in R by (field; lra). exact R. }
    assert (He2' : 0 <= e2 <= 1 / 2) by lra.
    pose proof (rel_pos _ _ _ P1 He2' R2') as B2.
    assert (Hc2 : 0 < c2) by exact (normal_pos _ _ _ N2).
    destruct (mul_normal _ k2 s false c2 K2 N2 Nk2) as (c3 & N3 & H3).
    { apply Hrange. split; nra. }
    rewrite xorb_false_r in N3. fold (rel (bpow (-52)) c3 (c2 * K2)) in H3.
    assert (He2'' : 0 <= e2 <= 1) by lra.
    pose proof (rel_trans _ _ c3 _ _ P1 He2'' Hu0 R2' H3) as R3.
    set (e3 := e2 + bpow (-52) + e2 * bpow (-52)) in *.
    assert (He3 : 0 <= e3 <= 32 / 10 * bpow (-52)) by (unfold e3; nra).
    (* / k1 *)
    assert (R3' : rel e3 (c3 / K1) A).
    { assert (R : rel e3 (c3 * / K1) (A * K1 * / K1)) by (apply rel_scale; [lra|exact R3]).
      replace (A * K1 * / K1) with A in R by (field; lra). exact R. }
    assert (He3' : 0 <= e3 <= 1 / 2) by lra.
    pose proof (rel_pos _ _ _ HA He3' R3') as B3.
    destruct (div_normal _ k1 s false c3 K1 N3 Nk1) as (c4 & N4 & H4).
    { apply Hrange. split; lra. }
    rewrite xorb_false_r in N4. fold (rel (bpow (-52)) c4 (c3 / K1)) in H4.
    assert (He3'' : 0 <= e3 <= 1) by lra.
    pose proof (rel_trans _ _ c4 _ _ HA He3'' Hu0 R3' H4) as R4.
    apply (rel_weaken _ (bpow (-49)) _ _ HA) in R4; [|rewrite bpow_49; nra].
    destruct (normal_value _ _ _ N4) as [F4 V4].
    split; [exact F4|]. rewrite V4, Va.
    replace ((if s then - c4 else c4) - (if s then - A else A))
      with (if s then - (c4 - A) else c4 - A) by (destruct s; ring).
    destruct s; [rewrite Rabs_Ropp|]; exact R4.
Qed.

(** X29.  In binary64, [rad2deg] and [deg2rad] undo each other up to
    rounding, in either order: for a number that is zero or of magnitude
    between [2 ^ -500] and [2 ^ 500], taken to degrees and back, or to
    radians and back, the result is a number within the relative error
    [2 ^ -49] of it. *)
Theorem degrees_and_radians_close (a : float) :
  in_range a ->
  (is_finite (deg2rad (rad2deg a)) = true /\
   Rabs (value (deg2rad (rad2deg a)) - value a) <= bpow (-49) * Rabs (value a)) /\
  (is_finite (rad2deg (deg2rad a)) = true /\
   Rabs (value (rad2deg (deg2rad a)) - value a) <= bpow (-49) * Rabs (value a)).
Proof.
  intros Ha. pose proof normal_180 as N180.
  destruct normal_M_PI as (pi_f & Npi & Hpi).
  assert (H180 : 1 <= 180 <= 256) by lra.
  assert (Hpi' : 1 <= pi_f <= 256) by lra.
  split.
  - exact (scale_trip a (Q2float 180) M_PI 180 pi_f N180 Npi H180 Hpi' Ha).
  - exact (scale_trip a M_PI (Q2float 180) pi_f 180 Npi N180 Hpi' H180 Ha).
Qed.

Lemma Rabs_bounds (x e : R) : Rabs x <= e <-> - e <= x <= e.
Proof. unfold Rabs. destruct (Rcase_abs x); split; lra. Qed.

(** The arithmetic of the round trip: [cd] degrees stand for the angle [A],
    [c] is what is read back for [cd], and [ca] is [c] in radians. *)
Lemma round_trip_bound (A cd c ca k : R) :
  0 < A <= 4 ->
  17452 / 1000000 <= k <= 17454 / 1000000 ->
  Rabs (cd * k - A) <= 3 / 1000000000000 * A ->
  Rabs (c - cd) <= 501 / 1000000000 ->
  0 < c ->
  c * k * (1 - 3 / 1000000000000) <= ca <= c * k * (1 + 3 / 1000000000000) ->
  Rabs (ca - A) <= 1 / 100000000.
Proof.
  intros HA Hk H1 H2 Hc Hca.
  apply Rabs_bounds in H1. apply Rabs_bounds in H2. apply Rabs_bounds.
  assert (H3 : - (501 / 1000000000 * (17454 / 1000000)) <= (c - cd) * k
               <= 501 / 1000000000 * (17454 / 1000000)).
  { apply Rabs_bounds. rewrite Rabs_mult, (Rabs_pos_eq k) by lra.
    apply Rmult_le_compat; try lra; [apply Rabs_pos|apply Rabs_bounds; lra]. }
  assert (H4 : c * k = A + (cd * k - A) + (c - cd) * k) by ring.
  assert (H5 : 0 < c * k) by (apply Rmult_lt_0_compat; lra).
  assert (H6 : c * k <= 5) by lra.
  assert (H7 : - (3 / 1000000000000 * 5) <= ca - c * k <= 3 / 1000000000000 * 5).
  { split.
    - assert (c * k * (3 / 1000000000000) <= 5 * (3 / 1000000000000))
        by (apply Rmult_le_compat_r; lra). lra.
    - assert (c * k * (3 / 1000000000000) <= 5 * (3 / 1000000000000))
        by (apply Rmult_le_compat_r; lra). lra. }
  lra.
Qed.

(** An angle taken to degrees, written with [%lf], read back and taken to
    radians again. *)
Lemma angle_round_trip (a : float) :
  in_range a -> Rabs (value a) <= 4 ->
  is_finite (deg2rad (reread (rad2deg a))) = true /\
  Rabs (value (deg2rad (reread (rad2deg a))) - value a) <= 1 / 100000000.
Proof.
  intros [Hfin Ha] Hmax.
  destruct normal_M_PI as (pi_f & Npi & Hpi).
  pose proof normal_180 as N180.
  pose proof bpow_52_tiny as Hu. pose proof (bpow_pos (-52)) as Hu0.
  unfold deg2rad, rad2deg. cbn [dmul ddiv dlit binary64].
  destruct Ha as [Hzero|Hmag].
  - (* the angle is a zero *)
    destruct (zero_of_value a Hfin Hzero) as [s Ea].
    destruct Npi as (mp & ep & Ep & _). destruct N180 as (m1 & e1 & E1 & _).
    assert (Ed : Prim2SF (a * Q2float 180 / M_PI)%float = S754_zero s).
    { rewrite div_spec, mul_spec, Ea, E1, Ep. cbn. now rewrite !xorb_false_r. }
    set (d := (a * Q2float 180 / M_PI)%float) in *.
    assert (Fd : is_finite d = true) by (unfold is_finite; now rewrite Ed).
    assert (Vd : value d = 0) by (unfold value; now rewrite Ed).
    destruct (reread_cases d Fd) as (s' & _ & [[Er _]|(c & Nc & Hc1 & Hc2)]).
    { rewrite Vd, Rabs_R0. apply Rlt_le, bpow_pos. }
    + assert (Ef : Prim2SF (reread d * M_PI / Q2float 180)%float = S754_zero s').
      { rewrite div_spec, mul_spec, Er, E1, Ep. cbn. now rewrite !xorb_false_r. }
      unfold is_finite, value at 1. rewrite Ef. split; [reflexivity|].
      cbn [SF2R]. rewrite Hzero, Rminus_diag, Rabs_R0. lra.
    + exfalso. rewrite Vd, Rabs_R0, Rminus_0_r, Rmult_0_r, Rplus_0_r in Hc2.
      rewrite Rabs_pos_eq in Hc2 by lra. lra.
  - (* the angle is a normal number *)
    destruct (normal_of_value a) as [s Na].
    { apply Rle_trans with (2 := proj1 Hmag). apply bpow_le. lia. }
    destruct (normal_value _ _ _ Na) as [_ Va].
    set (A := Rabs (value a)) in *.
    pose proof (bpow_pos (-500)) as Hp500.
    assert (HA : 0 < A) by lra.
    assert (B1020 : bpow (-1020) <= bpow (-500) / 2).
    { apply Rle_trans with (bpow (-501)); [apply bpow_le; lia|].
      change (-500)%Z with (1 + -501)%Z. rewrite bpow_add, bpow_1.
      pose proof (bpow_pos (-501)). lra. }
    assert (T1020 : 1000 <= bpow 1020).
    { apply Rle_trans with (bpow 10); [|apply bpow_le; lia].
      rewrite (bpow_IZR 10) by lia. change (2 ^ 10)%Z with 1024%Z. lra. }
    (* a * 180 *)
    destruct (mul_normal a (Q2float 180) s false A 180 Na N180) as (c0 & N0 & H0).
    { split; [|lra]. nra. }
    rewrite xorb_false_r in N0. fold (rel (bpow (-52)) c0 (A * 180)) in H0.
    apply rel_bounds in H0.
    assert (H0' : A * 180 * (1 - 1 / 1000000000000) <= c0
                  <= A * 180 * (1 + 1 / 1000000000000)) by nra.
    (* a * 180 / M_PI *)
    destruct (div_normal _ M_PI s false c0 pi_f N0 Npi) as (cd & Nd & Hd).
    { assert (0 < c0) by nra.
      assert (c0 / pi_f = c0 * / pi_f) by reflexivity.
      assert (Hi : / (31416 / 10000) <= / pi_f <= / (31415 / 10000)).
      { split; apply Rinv_le_contravar; lra. }
      assert (Hi1 : / (31416 / 10000) = 10000 / 31416) by field.
      assert (Hi2 : / (31415 / 10000) = 10000 / 31415) by field.
      rewrite Hi1, Hi2 in Hi. rewrite H1. split.
      - apply Rle_trans with (A * 180 * (1 - 1 / 1000000000000) * (10000 / 31416)); [nra|].
        apply Rmult_le_compat; nra.
      - apply Rle_lt_trans with (A * 180 * (1 + 1 / 1000000000000) * (10000 / 31415)); [|nra].
        apply Rmult_le_compat; nra. }
    rewrite xorb_false_r in Nd. fold (rel (bpow (-52)) cd (c0 / pi_f)) in Hd.
    apply rel_bounds in Hd.
    set (d := (a * Q2float 180 / M_PI)%float) in *.
    destruct (normal_value _ _ _ Nd) as [Fd Vd].
    (* in terms of k = pi_f / 180 *)
    set (k := pi_f / 180).
    assert (Hk : 17452 / 1000000 <= k <= 17454 / 1000000) by (unfold k; lra).
    assert (Hc0pos : 0 < c0) by nra.
    assert (Hcdk : Rabs (cd * k - A) <= 3 / 1000000000000 * A).
    { assert (E : c0 / pi_f * k = c0 / 180) by (unfold k; field; lra).
      assert (0 < c0 / pi_f) by (apply Rdiv_lt_0_compat; lra).
      assert (Hcdk1 : (c0 / 180) * (1 - 1 / 1000000000000) <= cd * k
                      <= (c0 / 180) * (1 + 1 / 1000000000000)).
      { rewrite <- E. split; nra. }
      apply Rabs_le. split; nra. }
    assert (Hcdk' : - (3 / 1000000000000 * A) <= cd * k - A <= 3 / 1000000000000 * A).
    { revert Hcdk. unfold Rabs. destruct (Rcase_abs (cd * k - A)); lra. }
    assert (Hcd : 0 < cd <= 230).
    { split; [exact (normal_pos _ _ _ Nd)|]. nra. }
    assert (Habsd : Rabs (value d) = cd).
    { rewrite Vd. destruct s; [rewrite Rabs_Ropp|]; apply Rabs_pos_eq; lra. }
    destruct (reread_cases d Fd) as (s' & Hsign' & Hcases).
    { rewrite Habsd. apply Rle_trans with (bpow 8); [|apply bpow_le; lia].
      rewrite (bpow_IZR 8) by lia. change (2 ^ 8)%Z with 256%Z. lra. }
    rewrite Habsd in Hcases, Hsign'.
    assert (Hs : s' = s).
    { rewrite Vd in Hsign'. destruct s, s'; try reflexivity; lra. }
    subst s'.
    destruct Npi as (mp & ep & Ep & Dp & Epi). destruct N180 as (m1 & e1 & E1 & D1 & E180).
    destruct Hcases as [[Er Hsmall]|(c & Nc & Hc1 & Hc2)].
    + (* written as 0.000000 *)
      assert (Ef : Prim2SF (reread d * M_PI / Q2float 180)%float = S754_zero s).
      { rewrite div_spec, mul_spec, Er, E1, Ep. cbn. now rewrite !xorb_false_r. }
      unfold is_finite, value at 1. rewrite Ef. split; [reflexivity|].
      cbn [SF2R]. rewrite Rminus_0_l, Rabs_Ropp. fold A. nra.
    + (* read back as a normal number *)
      assert (Npi' : normal (M_PI (D := float)) false pi_f) by (exists mp, ep; auto).
      assert (N180' : normal (Q2float 180) false 180) by (exists m1, e1; auto).
      assert (Hc2' : - (5 / 10000000 + bpow (-51) * cd) <= c - cd
                     <= 5 / 10000000 + bpow (-51) * cd).
      { revert Hc2. unfold Rabs. destruct (Rcase_abs (c - cd)); lra. }
      assert (E51 : bpow (-51) = 2 * bpow (-52))
        by (change (-51)%Z with (1 + -52)%Z; now rewrite bpow_add, bpow_1).
      assert (Hcb : 0 < c <= 231) by (split; [lra|nra]).
      assert (B20 : bpow (-1020) <= 1 / 1073741824).
      { apply Rle_trans with (bpow (-30)); [apply bpow_le; lia|].
        rewrite bpow_neg, (bpow_IZR 30) by lia. change (2 ^ 30)%Z with 1073741824%Z. lra. }
      (* reread d * M_PI *)
      destruct (mul_normal _ M_PI s false c pi_f Nc Npi') as (ce & Ne & He).
      { split; [|nra]. apply Rle_trans with (1 := B20). nra. }
      rewrite xorb_false_r in Ne. fold (rel (bpow (-52)) ce (c * pi_f)) in He.
      apply rel_bounds in He.
      assert (Hcpi : 3 / 1000000 <= c * pi_f <= 726) by nra.
      assert (He' : c * pi_f * (1 - 1 / 1000000000000) <= ce
                    <= c * pi_f * (1 + 1 / 1000000000000)) by nra.
      (* reread d * M_PI / 180 *)
      destruct (div_normal _ (Q2float 180) s false ce 180 Ne N180') as (ca & Nca & Hca).
      { split; [|lra]. apply Rle_trans with (1 := B20). lra. }
      rewrite xorb_false_r in Nca. fold (rel (bpow (-52)) ca (ce / 180)) in Hca.
      apply rel_bounds in Hca.
      assert (Hca' : ce / 180 * (1 - 1 / 1000000000000) <= ca
                     <= ce / 180 * (1 + 1 / 1000000000000)) by nra.
      destruct (normal_value _ _ _ Nca) as [Fa Vca].
      split; [exact Fa|]. rewrite Vca, Va.
      replace ((if s then - ca else ca) - (if s then - A else A))
        with (if s then - (ca - A) else ca - A) by (destruct s; ring).
      assert (Hgoal : Rabs (ca - A) <= 1 / 100000000);
        [|destruct s; [rewrite Rabs_Ropp|]; exact Hgoal].
      (* ca is about c * k, c is about cd, cd * k is about A *)
      assert (Eck : c * pi_f / 180 = c * k) by (unfold k; field).
      assert (Hck : 0 < c * k <= 5) by nra.
      assert (Hca1 : c * k * (1 - 3 / 1000000000000) <= ca
                     <= c * k * (1 + 3 / 1000000000000)).
      { rewrite <- Eck.
        assert (0 < c * pi_f / 180) by lra.
        assert (c * pi_f / 180 * (1 - 1 / 1000000000000) <= ce / 180
                <= c * pi_f / 180 * (1 + 1 / 1000000000000)) by lra.
        split; nra. }
      apply (round_trip_bound A cd c ca k); try assumption; try lra.
      eapply Rle_trans; [exact Hc2|]. rewrite E51, Rmult_assoc.
      assert (bpow (-52) * cd <= 1 / 1000000000000 * 230)
        by (apply Rmult_le_compat; lra).
      lra.
Qed.

(** *** A fiducial read back *)

Section ReadBack.
Context `{Rotations float}.
Variable indeterminate : Fiducial float.

Lemma reloaded_same_up_to_text (f : Fiducial float) : same_up_to_text f (reloaded f).
Proof.
  unfold same_up_to_text, reloaded.
  destruct (getRPY (m_basis (pose f))) as [[rx ry] rz] eqn:Erpy.
  cbn [id numObs links pose variance getOrigin m_origin m_basis vx vy vz].
  split; [reflexivity|]. split; [reflexivity|]. split.
  { intros k. rewrite lookup_fmap. apply fmap_is_Some. }
  split; [intros Hf Hm; now apply reread_close|].
  split; [intros Hf Hm; now apply reread_close|].
  split; [intros Hf Hm; now apply reread_close|].
  split; [intros Hf Hm; now apply reread_close|].
  exists rx, ry, rz. do 3 eexists. split; [reflexivity|]. split; [reflexivity|].
  split; [|split]; intros Hr Hm; now apply angle_round_trip.
Qed.

(** C7 (amended).  In binary64, for every collection in which every
    landmark is stored under its id and has a record that fits the line
    buffer, loading what [saveMap] writes gives, for every landmark that has
    a link, the landmark [reloaded] describes, which is the saved one up to
    the text of the file: the same id, the same observation count and the
    same linked ids; each coordinate of the translation, and the variance,
    at most 0.0000005 and a relative [2 ^ -51] from the saved one (for
    numbers of magnitude at most [2 ^ 52]); and the rotation is the same up
    to the degree round trip: it is the one tf2 builds from the roll, pitch
    and yaw of the saved rotation, each at most 0.00000001 radians from the
    angle tf2 gives for the saved rotation (for angles that are zero or of
    magnitude between [2 ^ -500] and 4).  Nothing is loaded that was not
    saved.  (What becomes of a landmark without links is not part of this
    statement.) *)
Theorem loadMap_saveMap (m : gmap Z (Fiducial float)) :
  (forall k f, m !! k = Some f ->
     id f = k /\ (length (record_line f) <= BUFSIZE - 2)%nat) ->
  exists fids',
    loadMap indeterminate (saveMap m) ∅ = Some fids' /\
    (forall k f, m !! k = Some f -> links f <> ∅ ->
       fids' !! k = Some (reloaded f) /\ same_up_to_text f (reloaded f)) /\
    (forall k g, fids' !! k = Some g -> exists f, m !! k = Some f /\ g = reloaded f).
Proof.
  intros Hm.
  destruct (loadMap_saveMap_reloaded indeterminate m Hm) as (fids' & Hl & Hback & Honly).
  exists fids'. split; [exact Hl|]. split; [|exact Honly].
  intros k f Hk Hlinks. split; [now apply Hback|].
  apply reloaded_same_up_to_text.
Qed.

End ReadBack.

Close Scope R_scope.

(** X29 (witness): 30 degrees, or 30 radians. *)
Lemma degrees_and_radians_close_witness :
  in_range (Q2float 30) /\
  (is_finite (deg2rad (rad2deg (Q2float 30))) = true /\
   (Rabs (value (deg2rad (rad2deg (Q2float 30))) - value (Q2float 30))
    <= bpow (-49) * Rabs (value (Q2float 30)))%R) /\
  (is_finite (rad2deg (deg2rad (Q2float 30))) = true /\
   (Rabs (value (rad2deg (deg2rad (Q2float 30))) - value (Q2float 30))
    <= bpow (-49) * Rabs (value (Q2float 30)))%R).
Proof.
  assert (Hr : in_range (Q2float 30))
    by (eapply in_range_normal; [vm_compute; reflexivity|reflexivity|lia]).
  split; [exact Hr|]. exact (degrees_and_radians_close (Q2float 30) Hr).
Defined.

(** C7 (witness): the collection the engine saves when a frame sees
    fiducials 1 and 2, which are in the map, and fiducial 3, which is new:
    1 and 2 have just been linked, 3 has no link. *)
Lemma loadMap_saveMap_witness :
  out (updateMap garbage frame_1_2_3 two_unanchored) = [saveMap_called saved_by_engine] /\
  (forall k f, saved_by_engine !! k = Some f ->
     id f = k /\ (length (record_line f) <= BUFSIZE - 2)%nat) /\
  exists fids' f1 f2,
    loadMap garbage (saveMap saved_by_engine) ∅ = Some fids' /\
    saved_by_engine !! 1 = Some f1 /\ links f1 <> ∅ /\
    fids' !! 1 = Some (reloaded f1) /\ same_up_to_text f1 (reloaded f1) /\
    saved_by_engine !! 2 = Some f2 /\ links f2 <> ∅ /\
    fids' !! 2 = Some (reloaded f2) /\ same_up_to_text f2 (reloaded f2).
Proof.
  split; [vm_compute; reflexivity|]. split; [exact saved_by_engine_records|].
  destruct (loadMap_saveMap garbage saved_by_engine saved_by_engine_records)
    as (fids' & Hl & Hback & _).
  assert (H1 : exists f1, saved_by_engine !! 1 = Some f1 /\ links f1 !! 2 = Some 1)
    by (eexists; split; vm_compute; reflexivity).
  assert (H2 : exists f2, saved_by_engine !! 2 = Some f2 /\ links f2 !! 1 = Some 1)
    by (eexists; split; vm_compute; reflexivity).
  destruct H1 as (f1 & E1 & L1). destruct H2 as (f2 & E2 & L2).
  assert (N1 : links f1 <> ∅) by (intros E; rewrite E, lookup_empty in L1; discriminate L1).
  assert (N2 : links f2 <> ∅) by (intros E; rewrite E, lookup_empty in L2; discriminate L2).
  destruct (Hback 1 f1 E1 N1) as [B1 S1]. destruct (Hback 2 f2 E2 N2) as [B2 S2].
  exists fids', f1, f2.
  split; [exact Hl|]. split; [exact E1|]. split; [exact N1|].
  split; [exact B1|]. split; [exact S1|]. split; [exact E2|]. split; [exact N2|].
  split; [exact B2|exact S2].
Defined.

(** ** Whole passes and whole runs *)

Section Passes.
Context {D : Type} `{Scalar D} `{Rotations D}.
Variable indeterminate : Fiducial D.

Lemma fold_left_invariant_In {A B : Type} (P : A -> Prop) (f : A -> B -> A)
    (l : list B) (a : A) :
  (forall a b, In b l -> P a -> P (f a b)) -> P a -> P (fold_left f l a).
Proof.
  revert a. induction l as [|b l IH]; intros a Hf Ha; [exact Ha|].
  simpl. apply IH.
  - intros a' b' Hb'. apply Hf. now right.
  - apply Hf; [now left|exact Ha].
Qed.

(** What every pair of a pass keeps, the pass keeps; the pairs are of
    observations of the frame. *)
Lemma updateMap_invariant_In (P : Map D -> Prop) (obs : list (Observation D)) (m : Map D) :
  (forall o1 o2 m, In o1 obs -> In o2 obs -> P m ->
                   P (updateMap_pair indeterminate o1 o2 m)) ->
  P m -> P (updateMap indeterminate obs m).
Proof.
  intros Hstep Hm. unfold updateMap.
  apply fold_left_invariant_In; [|exact Hm].
  intros m1 o1 Ho1 Hm1. apply fold_left_invariant_In; [|exact Hm1].
  intros m2 o2 Ho2. now apply Hstep.
Qed.

(** The four things a pair can do: nothing, warn, enter fiducial 2, fuse
    into fiducial 2. *)
Lemma updateMap_pair_cases (o1 o2 : Observation D) (m : Map D) :
  updateMap_pair indeterminate o1 o2 m = m \/
  (fid o1 <> fid o2 /\ fiducials m !! fid o1 = None /\
   updateMap_pair indeterminate o1 o2 m = emit (WARN_no_map_entry (fid o1)) m) \/
  (exists f1 g,
     fid o1 <> fid o2 /\ fiducials m !! fid o1 = Some f1 /\
     fiducials m !! fid o2 = None /\ id g = fid o2 /\ links g = ∅ /\
     updateMap_pair indeterminate o1 o2 m
     = saveMap_now (set_fiducials (<[fid o2 := g]> (fiducials m)) m)) \/
  (exists f1 f2 g,
     fid o1 <> fid o2 /\ fiducials m !! fid o1 = Some f1 /\
     fiducials m !! fid o2 = Some f2 /\ (variance f2 ==? dlit 0)%D = false /\
     id g = id f2 /\ links g = <[fid o1 := 1]> (links f2) /\
     numObs g = numObs f2 + 2 /\
     updateMap_pair indeterminate o1 o2 m
     = set_fiducials (<[fid o1 := add_link (fid o2) f1]> (<[fid o2 := g]> (fiducials m))) m).
Proof.
  unfold updateMap_pair.
  destruct (Z.eqb_spec (fid o1) (fid o2)) as [E|Hne]; [now left|].
  destruct (fiducials m !! fid o1) as [f1|] eqn:E1; [|right; left; easy].
  destruct (fiducials m !! fid o2) as [f2|] eqn:E2.
  - destruct (variance f2 ==? dlit 0)%D eqn:Hz; [now left|].
    right; right; right. exists f1, f2. eexists.
    split; [exact Hne|]. split; [reflexivity|]. split; [reflexivity|].
    split; [exact Hz|].
    cbv zeta. unfold fiducials_at. rewrite lookup_insert_ne by congruence. rewrite E1.
    cbn [default]. split; [|split; [|split; [|reflexivity]]].
    + reflexivity.
    + reflexivity.
    + simpl. lia.
  - right; right; left. exists f1. eexists.
    split; [exact Hne|]. split; [reflexivity|]. split; [reflexivity|].
    split; [|split; [|reflexivity]]; reflexivity.
Qed.

(** What [updatePose] and the two parts of [autoInit] leave as they
    were. *)
Lemma updatePose_keeps (obs : list (Observation D)) (m : Map D) :
  frameNum (updatePose indeterminate obs m) = frameNum m /\
  originFid (updatePose indeterminate obs m) = originFid m.
Proof.
  unfold updatePose. destruct (updatePose_estimate indeterminate obs m) as [[p v]|]; easy.
Qed.

Lemma updateMap_keeps (obs : list (Observation D)) (m : Map D) :
  frameNum (updateMap indeterminate obs m) = frameNum m /\
  originFid (updateMap indeterminate obs m) = originFid m.
Proof.
  apply (updateMap_invariant indeterminate
           (fun m' => frameNum m' = frameNum m /\ originFid m' = originFid m)); [|easy].
  intros o1 o2 m0 [<- <-].
  destruct (updateMap_pair_cases o1 o2 m0)
    as [-> | [(_ & _ & ->) | [(f1 & g & _ & _ & _ & _ & _ & ->)
                             | (f1 & f2 & g & _ & _ & _ & _ & _ & _ & _ & ->)]]]; easy.
Qed.

Lemma obs_at_minus_1 (obs : list (Observation D)) : obs_at obs (-1) = None.
Proof. reflexivity. Qed.

Lemma autoInit_origin_keeps (obs : list (Observation D)) (m m1 : Map D) :
  autoInit_origin indeterminate obs m = Returned m1 ->
  frameNum m1 = frameNum m /\ isInitializingMap m1 = isInitializingMap m /\
  out m1 = out m.
Proof.
  unfold autoInit_origin. intros Hr.
  destruct (size (fiducials m) =? 0)%nat.
  - cbn [originFid set_originFid] in Hr.
    destruct (Z.eqb_spec (findClosestObs obs) (-1)) as [E|Hne].
    + cbn [originFid emit] in Hr. rewrite E, obs_at_minus_1 in Hr. discriminate.
    + cbn [originFid set_originFid] in Hr.
      destruct (obs_at obs _); [|discriminate]. now injection Hr as <-.
  - destruct obs as [|o rest]; [now injection Hr as <-|].
    destruct (fid o =? originFid m); now injection Hr as <-.
Qed.

Lemma anchor_rounds_keep_more (obs l : list (Observation D)) (m : Map D) :
  frameNum (fold_left (anchor_round indeterminate obs) l m) = frameNum m /\
  out (fold_left (anchor_round indeterminate obs) l m) = out m.
Proof.
  revert m. induction l as [|x l IH]; intros m; [easy|].
  simpl. destruct (IH (anchor_round indeterminate obs m x)) as [-> ->].
  unfold anchor_round. destruct (obs !! 0%nat) as [o|]; [|easy].
  now destruct (fid o =? originFid m).
Qed.

(** What a call of [autoInit] that returns leaves as it was, and the mode it
    leaves. *)
Lemma autoInit_keeps (obs : list (Observation D)) (m m' : Map D) :
  autoInit indeterminate obs m = Returned m' ->
  frameNum m' = frameNum m /\ out m' = out m /\
  isInitializingMap m' = isInitializingMap m && (frameNum m <=? 10).
Proof.
  unfold autoInit. intros Hr.
  destruct (autoInit_origin indeterminate obs m) as [m1|] eqn:Ho; [|discriminate].
  injection Hr as <-.
  destruct (autoInit_origin_keeps obs m m1 Ho) as (Hn & Hi & Hout).
  unfold autoInit_anchor. rewrite Hn, <- Hi, <- Hout, <- Hn.
  rewrite (Z.leb_antisym 10 (frameNum m1)).
  destruct (10 <? frameNum m1).
  - destruct (anchor_rounds_keep indeterminate obs obs (set_isInitializingMap false m1))
      as [_ ->].
    destruct (anchor_rounds_keep_more obs obs (set_isInitializingMap false m1))
      as [-> ->].
    cbn. now rewrite andb_false_r.
  - cbn. now rewrite andb_true_r.
Qed.

(** The mode of a frame: initialising when it was, or when something is seen
    and the map is empty. *)
Lemma update_unfold (obs : list (Observation D)) (m : Map D) :
  let starts := (0 <? length obs)%nat && (size (fiducials m) =? 0)%nat in
  let m0 :=
    mkMap (frameNum m + 1) (isInitializingMap m || starts) (fiducials m)
          (originFid m) (out m) in
  update indeterminate obs m
  = if isInitializingMap m || starts then autoInit indeterminate obs m0
    else Returned (updatePose indeterminate obs (updateMap indeterminate obs m0)).
Proof.
  cbv zeta. unfold update. cbn [fiducials set_frameNum].
  destruct ((0 <? length obs)%nat && (size (fiducials m) =? 0)%nat).
  - rewrite orb_true_r. reflexivity.
  - rewrite orb_false_r. unfold set_frameNum. cbn [isInitializingMap].
    destruct (isInitializingMap m) eqn:Hm; rewrite <- Hm; destruct m; reflexivity.
Qed.

End Passes.

Section Runs.
Context {D : Type} `{Scalar D} `{Rotations D}.
Variable indeterminate : Fiducial D.

(** *** The frame counter and the mode *)

Lemma update_frameNum (obs : list (Observation D)) (m m' : Map D) :
  update indeterminate obs m = Returned m' -> frameNum m' = frameNum m + 1.
Proof.
  rewrite update_unfold. cbv zeta.
  destruct (isInitializingMap m || _); intros Hr.
  - now apply autoInit_keeps in Hr as (Hn & _ & _).
  - injection Hr as <-.
    destruct (updatePose_keeps indeterminate obs
                (updateMap indeterminate obs
                   (mkMap (frameNum m + 1) false (fiducials m) (originFid m) (out m))))
      as [-> _].
    now destruct (updateMap_keeps indeterminate obs
                    (mkMap (frameNum m + 1) false (fiducials m) (originFid m) (out m)))
      as [-> _].
Qed.

(** X5.  A run that returns has advanced the frame counter by the number of
    its frames: every call of [update] counts, also one with no observation
    and one made while the map is initialised. *)
Theorem run_counts_frames (frames : list (list (Observation D))) (m m' : Map D) :
  run indeterminate frames m = Returned m' ->
  frameNum m' = frameNum m + Z.of_nat (length frames).
Proof.
  revert m. induction frames as [|obs rest IH]; intros m Hr; simpl in Hr.
  - injection Hr as <-. simpl. lia.
  - destruct (update indeterminate obs m) as [m1|] eqn:Hu; [|discriminate].
    apply IH in Hr. rewrite Hr, (update_frameNum obs m m1 Hu). cbn [length]. lia.
Qed.

(** X6.  The mode after a frame that returns: the engine is initialising
    exactly when the frame began or found it initialising (something seen
    with an empty map, or the mode already set) and the new frame number is
    at most 10.  So initialisation ends with the first frame numbered above
    10, and a map first filled after frame 10 is initialised within one
    frame. *)
Theorem update_mode (obs : list (Observation D)) (m m' : Map D) :
  update indeterminate obs m = Returned m' ->
  isInitializingMap m'
  = (isInitializingMap m || ((0 <? length obs)%nat && (size (fiducials m) =? 0)%nat))
    && (frameNum m + 1 <=? 10).
Proof.
  rewrite update_unfold. cbv zeta.
  destruct (isInitializingMap m || _) eqn:Hinit; intros Hr.
  - apply autoInit_keeps in Hr as (_ & _ & Hi). exact Hi.
  - injection Hr as <-.
    destruct (updatePose_fiducials indeterminate obs
                (updateMap indeterminate obs
                   (mkMap (frameNum m + 1) false (fiducials m) (originFid m) (out m))))
      as [_ ->].
    now rewrite updateMap_mode.
Qed.

(** *** Fiducials stay *)

Lemma kept_refl (fids : gmap Z (Fiducial D)) : kept fids fids.
Proof. intros k f Hk. now exists f. Qed.

Lemma kept_trans (a b c : gmap Z (Fiducial D)) : kept a b -> kept b c -> kept a c.
Proof.
  intros Hab Hbc k f Hk.
  destruct (Hab k f Hk) as (f1 & H1 & E1). destruct (Hbc k f1 H1) as (f2 & H2 & E2).
  exists f2. split; [exact H2|congruence].
Qed.

Lemma kept_insert (fids : gmap Z (Fiducial D)) (k : Z) (g : Fiducial D) :
  (forall f, fids !! k = Some f -> id g = id f) -> kept fids (<[k := g]> fids).
Proof.
  intros Hg k' f Hk'. destruct (decide (k' = k)) as [->|Hne].
  - exists g. rewrite lookup_insert_eq. split; [reflexivity|now apply Hg].
  - exists f. now rewrite lookup_insert_ne by congruence.
Qed.

Lemma updateMap_pair_kept (o1 o2 : Observation D) (m : Map D) :
  kept (fiducials m) (fiducials (updateMap_pair indeterminate o1 o2 m)).
Proof.
  destruct (updateMap_pair_cases indeterminate o1 o2 m)
    as [-> | [(_ & _ & ->) | [(f1 & g & _ & _ & E2 & _ & _ & ->)
                             | (f1 & f2 & g & Hne & E1 & E2 & _ & Hid & _ & _ & ->)]]].
  - apply kept_refl.
  - apply kept_refl.
  - simpl. apply kept_insert. intros f Hf. congruence.
  - simpl. eapply kept_trans.
    + apply (kept_insert _ (fid o2) g). intros f Hf. congruence.
    + apply kept_insert. intros f Hf.
      rewrite lookup_insert_ne in Hf by congruence.
      assert (f = f1) as -> by congruence. reflexivity.
Qed.

Lemma updateMap_kept (obs : list (Observation D)) (m : Map D) :
  kept (fiducials m) (fiducials (updateMap indeterminate obs m)).
Proof.
  apply (updateMap_invariant indeterminate
           (fun m' => kept (fiducials m) (fiducials m'))); [|apply kept_refl].
  intros o1 o2 m0 Hm0. eapply kept_trans; [exact Hm0|apply updateMap_pair_kept].
Qed.

Lemma fiducials_at_kept (fids : gmap Z (Fiducial D)) (k : Z) (g : Fiducial D) :
  id g = id (fiducials_at indeterminate fids k) -> kept fids (<[k := g]> fids).
Proof.
  intros Hg. apply kept_insert. intros f Hf.
  unfold fiducials_at in Hg. now rewrite Hf in Hg.
Qed.

Lemma anchor_rounds_kept (obs l : list (Observation D)) (m : Map D) :
  kept (fiducials m) (fiducials (fold_left (anchor_round indeterminate obs) l m)).
Proof.
  revert m. induction l as [|x l IH]; intros m; [apply kept_refl|].
  simpl. eapply kept_trans; [|apply IH].
  unfold anchor_round. destruct (obs !! 0%nat) as [o|]; [|apply kept_refl].
  destruct (fid o =? originFid m); [|apply kept_refl].
  simpl. now apply fiducials_at_kept.
Qed.

Lemma autoInit_kept (obs : list (Observation D)) (m m' : Map D) :
  autoInit indeterminate obs m = Returned m' -> kept (fiducials m) (fiducials m').
Proof.
  unfold autoInit. intros Hr.
  destruct (autoInit_origin indeterminate obs m) as [m1|] eqn:Ho; [|discriminate].
  injection Hr as <-.
  assert (H1 : kept (fiducials m) (fiducials m1)).
  { unfold autoInit_origin in Ho.
    destruct (size (fiducials m) =? 0)%nat eqn:Hsize.
    - apply Nat.eqb_eq, map_size_empty_iff in Hsize.
      intros k f Hk. rewrite Hsize, lookup_empty in Hk. discriminate.
    - destruct obs as [|o rest]; [injection Ho as <-; apply kept_refl|].
      destruct (fid o =? originFid m); injection Ho as <-; [|apply kept_refl].
      simpl. now apply fiducials_at_kept. }
  eapply kept_trans; [exact H1|].
  unfold autoInit_anchor. destruct (10 <? frameNum m1); [|apply kept_refl].
  apply (anchor_rounds_kept obs obs (set_isInitializingMap false m1)).
Qed.

Lemma update_kept (obs : list (Observation D)) (m m' : Map D) :
  update indeterminate obs m = Returned m' -> kept (fiducials m) (fiducials m').
Proof.
  rewrite update_unfold. cbv zeta.
  destruct (isInitializingMap m || _); intros Hr.
  - now apply autoInit_kept in Hr.
  - injection Hr as <-.
    destruct (updatePose_fiducials indeterminate obs
                (updateMap indeterminate obs
                   (mkMap (frameNum m + 1) false (fiducials m) (originFid m) (out m))))
      as [-> _].
    apply (updateMap_kept obs
             (mkMap (frameNum m + 1) false (fiducials m) (originFid m) (out m))).
Qed.

(** X7.  No frame removes a fiducial or stores it under another id: after a
    run that returns, every fiducial the map had is still in it, under the
    same key and with the same id. *)
Theorem run_keeps_fiducials (frames : list (list (Observation D))) (m m' : Map D) :
  run indeterminate frames m = Returned m' -> kept (fiducials m) (fiducials m').
Proof.
  revert m. induction frames as [|obs rest IH]; intros m Hr; simpl in Hr.
  - injection Hr as <-. apply kept_refl.
  - destruct (update indeterminate obs m) as [m1|] eqn:Hu; [|discriminate].
    eapply kept_trans; [exact (update_kept obs m m1 Hu)|now apply IH].
Qed.

(** *** Tracking *)

Lemma kept_nonempty (a b : gmap Z (Fiducial D)) : kept a b -> a <> ∅ -> b <> ∅.
Proof.
  intros Hk Ha Hb. apply map_choose in Ha as (k & f & Hf).
  destruct (Hk k f Hf) as (f' & Hf' & _). rewrite Hb, lookup_empty in Hf'. discriminate.
Qed.

(** From a map that is not empty and not being initialised, every frame is
    a pass of [updateMap] and one of [updatePose], and what every pair of
    [updateMap] keeps true of the collection, every run does. *)
Lemma tracking_run_invariant (P : gmap Z (Fiducial D) -> Prop)
    (frames : list (list (Observation D))) (m : Map D) :
  (forall o1 o2 m, P (fiducials m) ->
                   P (fiducials (updateMap_pair indeterminate o1 o2 m))) ->
  isInitializingMap m = false -> fiducials m <> ∅ -> P (fiducials m) ->
  exists m', run indeterminate frames m = Returned m' /\
             isInitializingMap m' = false /\ fiducials m' <> ∅ /\ P (fiducials m').
Proof.
  intros Hstep. revert m. induction frames as [|obs rest IH]; intros m Hmode Hne HP.
  - now exists m.
  - simpl. destruct (map_choose _ Hne) as (k & f & Hk).
    rewrite (update_tracking indeterminate obs m k f Hmode Hk).
    set (m0 := set_frameNum (frameNum m + 1) m).
    destruct (updatePose_fiducials indeterminate obs (updateMap indeterminate obs m0))
      as [Ef Em].
    apply IH.
    + now rewrite Em, updateMap_mode.
    + rewrite Ef. apply (kept_nonempty (fiducials m0)); [apply updateMap_kept|exact Hne].
    + rewrite Ef.
      apply (updateMap_invariant indeterminate (fun m' => P (fiducials m')));
        [exact Hstep|exact HP].
Qed.

(** X8.  Tracking is not left: from a map that is not empty and not being
    initialised, every frame of every run returns and leaves the engine
    tracking, with a map that is not empty. *)
Theorem tracking_is_not_left (frames : list (list (Observation D))) (m : Map D) :
  isInitializingMap m = false -> fiducials m <> ∅ ->
  exists m', run indeterminate frames m = Returned m' /\
             isInitializingMap m' = false /\ fiducials m' <> ∅.
Proof.
  intros Hmode Hne.
  destruct (tracking_run_invariant (fun _ => True) frames m) as (m' & Hr & Hm & Hn & _);
    auto.
  now exists m'.
Qed.

Lemma keyed_insert (fids : gmap Z (Fiducial D)) (k : Z) (g : Fiducial D) :
  id g = k -> keyed fids -> keyed (<[k := g]> fids).
Proof.
  intros Hg Hk k' f Hf. destruct (decide (k' = k)) as [->|Hne].
  - rewrite lookup_insert_eq in Hf. congruence.
  - rewrite lookup_insert_ne in Hf by congruence. now apply Hk.
Qed.

Lemma updateMap_pair_keyed (o1 o2 : Observation D) (m : Map D) :
  keyed (fiducials m) -> keyed (fiducials (updateMap_pair indeterminate o1 o2 m)).
Proof.
  intros Hk.
  destruct (updateMap_pair_cases indeterminate o1 o2 m)
    as [-> | [(_ & _ & ->) | [(f1 & g & _ & _ & E2 & Hid & _ & ->)
                             | (f1 & f2 & g & Hne & E1 & E2 & _ & Hid & _ & _ & ->)]]].
  - exact Hk.
  - exact Hk.
  - simpl. now apply keyed_insert.
  - simpl. apply keyed_insert; [exact (Hk _ _ E1)|].
    apply keyed_insert; [|exact Hk]. rewrite Hid. exact (Hk _ _ E2).
Qed.

(** X9.  While the engine is tracking, the map stays fit to be saved: if
    every fiducial is stored under its id and every link has its opposite,
    the same is true after every run. *)
Theorem tracking_keeps_ids_and_links (frames : list (list (Observation D))) (m : Map D) :
  isInitializingMap m = false -> fiducials m <> ∅ ->
  keyed (fiducials m) -> links_symmetric (fiducials m) ->
  exists m', run indeterminate frames m = Returned m' /\
             keyed (fiducials m') /\ links_symmetric (fiducials m').
Proof.
  intros Hmode Hne Hk Hs.
  destruct (tracking_run_invariant (fun fids => keyed fids /\ links_symmetric fids)
              frames m) as (m' & Hr & _ & _ & HP); auto.
  - intros o1 o2 m0 [Hk0 Hs0]. split.
    + now apply updateMap_pair_keyed.
    + now apply updateMap_pair_links_symmetric.
  - now exists m'.
Qed.

(** *** A pass of updateMap *)

(** X10.  A pass of [updateMap] changes, enters or links only fiducials that
    are observed in the frame: the entry of any other id is as it was. *)
Theorem updateMap_only_observed (obs : list (Observation D)) (m : Map D) (k : Z) :
  (forall o, In o obs -> fid o <> k) ->
  fiducials (updateMap indeterminate obs m) !! k = fiducials m !! k.
Proof.
  intros Hk.
  apply (updateMap_invariant_In indeterminate
           (fun m' => fiducials m' !! k = fiducials m !! k)); [|reflexivity].
  intros o1 o2 m0 Ho1 Ho2 <-.
  apply Hk in Ho1. apply Hk in Ho2.
  destruct (updateMap_pair_cases indeterminate o1 o2 m0)
    as [-> | [(_ & _ & ->) | [(f1 & g & _ & _ & _ & _ & _ & ->)
                             | (f1 & f2 & g & _ & _ & _ & _ & _ & _ & _ & ->)]]];
    simpl; rewrite ?lookup_insert_ne by congruence; reflexivity.
Qed.

Lemma emit_all_nil (m : Map D) : emit_all [] m = m.
Proof. unfold emit_all. rewrite app_nil_r. now destruct m. Qed.

Lemma emit_all_emit (e : event D) (l : list (event D)) (m : Map D) :
  emit_all l (emit e m) = emit_all (e :: l) m.
Proof. unfold emit_all, emit. simpl. now rewrite <- app_assoc. Qed.

Lemma emit_all_app (l1 l2 : list (event D)) (m : Map D) :
  emit_all l2 (emit_all l1 m) = emit_all (l1 ++ l2) m.
Proof. unfold emit_all. simpl. now rewrite <- app_assoc. Qed.

Lemma updateMap_row_nothing_mapped (o1 : Observation D) (l : list (Observation D))
    (m : Map D) :
  fiducials m !! fid o1 = None ->
  fold_left (fun m o2 => updateMap_pair indeterminate o1 o2 m) l m
  = emit_all
      (flat_map (fun o2 => if fid o1 =? fid o2 then [] else [WARN_no_map_entry (fid o1)]) l)
      m.
Proof.
  revert m. induction l as [|o2 l IH]; intros m Hm.
  - simpl. now rewrite emit_all_nil.
  - cbn [fold_left flat_map]. unfold updateMap_pair at 2.
    destruct (fid o1 =? fid o2).
    + now rewrite IH.
    + rewrite Hm, IH by exact Hm. cbn [app]. apply emit_all_emit.
Qed.

(** X11.  When no observation of the frame is of a fiducial of the map, a
    pass of [updateMap] changes and enters nothing: it only warns, once for
    every ordered pair of observations of different fiducials. *)
Theorem updateMap_nothing_mapped (obs : list (Observation D)) (m : Map D) :
  (forall o, In o obs -> fiducials m !! fid o = None) ->
  updateMap indeterminate obs m = emit_all (warnings obs) m.
Proof.
  intros Hno. unfold updateMap, warnings.
  set (row := fun o1 : Observation D =>
                flat_map (fun o2 => if fid o1 =? fid o2 then []
                                    else [WARN_no_map_entry (fid o1)]) obs).
  assert (Hrows : forall l m0,
             (forall o, In o l -> fiducials m0 !! fid o = None) ->
             fold_left
               (fun m o1 => fold_left (fun m o2 => updateMap_pair indeterminate o1 o2 m) obs m)
               l m0
             = emit_all (flat_map row l) m0).
  { induction l as [|o1 l IH]; intros m0 Hm0.
    - simpl. now rewrite emit_all_nil.
    - cbn [fold_left flat_map].
      rewrite updateMap_row_nothing_mapped by (apply Hm0; now left).
      rewrite IH; [apply emit_all_app|].
      intros o Ho. simpl. apply Hm0. now right. }
  now apply Hrows.
Qed.

Lemma saves_snoc (l : list (event D)) (e : event D) :
  saves (l ++ [e]) = (saves l + if is_saveMap e then 1 else 0)%nat.
Proof.
  unfold saves. rewrite List.filter_app, length_app. simpl.
  now destruct (is_saveMap e).
Qed.

(** X12.  A pass of [updateMap] calls [saveMap] once for every fiducial it
    enters, and never otherwise: the map grows by as many fiducials as there
    are new calls of [saveMap]. *)
Theorem updateMap_saves_each_new_fiducial (obs : list (Observation D)) (m : Map D) :
  let m' := updateMap indeterminate obs m in
  (size (fiducials m') + saves (out m) = size (fiducials m) + saves (out m'))%nat.
Proof.
  cbv zeta.
  apply (updateMap_invariant indeterminate
           (fun m' => (size (fiducials m') + saves (out m)
                       = size (fiducials m) + saves (out m'))%nat)); [|reflexivity].
  intros o1 o2 m0 Hm0.
  destruct (updateMap_pair_cases indeterminate o1 o2 m0)
    as [-> | [(_ & _ & ->) | [(f1 & g & _ & _ & E2 & _ & _ & ->)
                             | (f1 & f2 & g & Hne & E1 & E2 & _ & _ & _ & _ & ->)]]].
  - exact Hm0.
  - simpl. rewrite saves_snoc. simpl. lia.
  - simpl. rewrite saves_snoc. simpl.
    rewrite map_size_insert_None by exact E2. lia.
  - simpl. rewrite !map_size_insert_Some; [exact Hm0|now exists f2|].
    rewrite lookup_insert_ne by congruence. now exists f1.
Qed.

End Runs.

(** ** Frames, one at a time *)

Section OneFrame.
Context {D : Type} `{Scalar D} `{Rotations D}.
Variable indeterminate : Fiducial D.

(** X13.  A frame that sees two fiducials of the map, neither anchored,
    fuses each of them once, the second observed first: fiducial B with the
    candidate made from the pose A had, then fiducial A with the candidate
    made from the pose B has just been given.  Each gets the other as a link
    and has its observation counter raised by two. *)
Theorem updateMap_two_unanchored (oa ob : Observation D) (m : Map D) (fa fb : Fiducial D) :
  fid oa <> fid ob ->
  fiducials m !! fid oa = Some fa ->
  fiducials m !! fid ob = Some fb ->
  (variance fa ==? dlit 0)%D = false ->
  (variance fb ==? dlit 0)%D = false ->
  let fb' :=
    Fiducial_update fb (tmul (pose fa) (tmul (T_fidCam oa) (T_camFid ob)))
      (objectError oa + objectError ob + dmax (variance fa) (dlit (10 # 100000)))%D in
  let fa' :=
    Fiducial_update fa (tmul (pose fb') (tmul (T_fidCam ob) (T_camFid oa)))
      (objectError ob + objectError oa + dmax (variance fb') (dlit (10 # 100000)))%D in
  let m' := updateMap indeterminate [oa; ob] m in
  fiducials m' !! fid oa
  = Some (mkFiducial (id fa) (numObs fa + 2) (pose fa') (variance fa')
            (<[fid ob := 1]> (links fa))) /\
  fiducials m' !! fid ob
  = Some (mkFiducial (id fb) (numObs fb + 2) (pose fb') (variance fb')
            (<[fid oa := 1]> (links fb))).
Proof.
  intros Hne Ea Eb Hza Hzb. cbv zeta. unfold updateMap. cbn [fold_left].
  rewrite (updateMap_pair_same indeterminate oa oa m) by reflexivity.
  set (m1 := updateMap_pair indeterminate oa ob m).
  rewrite (updateMap_pair_same indeterminate ob ob) by reflexivity.
  pose proof (updateMap_pair_fuse indeterminate oa ob m fa fb Hne Ea Eb Hzb) as E1.
  fold m1 in E1.
  set (fb1 := set_numObs _ _) in E1.
  assert (Eb1 : fiducials m1 !! fid ob = Some fb1).
  { rewrite E1, lookup_insert_ne by congruence. apply lookup_insert_eq. }
  assert (Ea1 : fiducials m1 !! fid oa = Some (add_link (fid ob) fa)).
  { rewrite E1. apply lookup_insert_eq. }
  assert (Hne' : fid ob <> fid oa) by congruence.
  rewrite (updateMap_pair_fuse indeterminate ob oa m1 fb1 _ Hne' Eb1 Ea1 Hza).
  split.
  - rewrite lookup_insert_ne by congruence. rewrite lookup_insert_eq.
    unfold fb1, set_numObs, add_link, Fiducial_update, updateVarianceDavid.
    cbn [id numObs pose variance links].
    rewrite insert_insert_eq. do 2 f_equal. lia.
  - rewrite lookup_insert_eq.
    unfold fb1, set_numObs, add_link, Fiducial_update, updateVarianceDavid.
    cbn [id numObs pose variance links].
    rewrite insert_insert_eq. do 2 f_equal. lia.
Qed.

(** *** updatePose *)

Lemma updatePose_steps_mapped (fids : gmap Z (Fiducial D)) (obs : list (Observation D))
    (acc : Transform D * D) :
  fold_left (updatePose_step fids) obs acc
  = fold_left (updatePose_step fids) (List.filter (mapped fids) obs) acc.
Proof.
  revert acc. induction obs as [|o obs IH]; intros acc; [reflexivity|].
  cbn [List.filter fold_left]. unfold mapped at 1.
  destruct (fids !! fid o) as [f|] eqn:E.
  - cbn [fold_left]. apply IH.
  - rewrite <- IH. f_equal. unfold updatePose_step. destruct acc as [p v]. now rewrite E.
Qed.

(** X14.  The estimate of [updatePose] does not depend on the observations
    of fiducials that are not in the map, once one observation is of a
    fiducial that is: it is the estimate from the mapped observations
    alone. *)
Theorem updatePose_ignores_unmapped (obs : list (Observation D)) (m : Map D) :
  (exists o, In o obs /\ mapped (fiducials m) o = true) ->
  updatePose_estimate indeterminate obs m
  = updatePose_estimate indeterminate (List.filter (mapped (fiducials m)) obs) m.
Proof.
  intros (o & Ho & Hm). unfold updatePose_estimate.
  assert (Hin : In o (List.filter (mapped (fiducials m)) obs))
    by (apply List.filter_In; now split).
  destruct obs as [|o0 obs0]; [destruct Ho|].
  destruct (List.filter (mapped (fiducials m)) (o0 :: obs0)) as [|o1 l] eqn:Ef;
    [destruct Hin|].
  cbn [length Nat.eqb]. f_equal. rewrite <- Ef. apply updatePose_steps_mapped.
Qed.

Lemma updatePose_steps_candidates (fids : gmap Z (Fiducial D))
    (obs : list (Observation D)) (acc : Transform D * D) :
  fold_left (updatePose_step fids) obs acc
  = fold_left restart_or_fuse (candidates fids obs) acc.
Proof.
  revert acc. induction obs as [|o obs IH]; intros acc; [reflexivity|].
  cbn [fold_left candidates omap list_omap]. fold (candidates fids obs).
  unfold candidate, updatePose_step at 2. destruct acc as [p v].
  destruct (fids !! fid o) as [f|]; [|apply IH].
  cbn [fold_left]. rewrite IH. f_equal.
Qed.

Section LeadingZeros.
Hypothesis floored_is_not_zero :
  forall x : D, (dmax x (dlit (1 # 1000000)) ==? dlit 0)%D = false.

Lemma restart_or_fuse_fuses (cs : list (Transform D * D)) (acc : Transform D * D) :
  (snd acc ==? dlit 0)%D = false ->
  fold_left restart_or_fuse cs acc = fold_left fuse cs acc.
Proof.
  revert acc. induction cs as [|c cs IH]; intros acc Hacc; [reflexivity|].
  cbn [fold_left]. unfold restart_or_fuse at 2. rewrite Hacc.
  apply IH. apply floored_is_not_zero.
Qed.

Lemma restart_or_fuse_restarts (cs : list (Transform D * D)) (acc : Transform D * D) :
  (snd acc ==? dlit 0)%D = true -> cs <> [] ->
  Some (fold_left restart_or_fuse cs acc) = sequentialFusion (restart cs).
Proof.
  revert acc. induction cs as [|c cs IH]; intros acc Hacc Hcs; [congruence|].
  cbn [fold_left]. unfold restart_or_fuse at 2. rewrite Hacc.
  destruct cs as [|c' cs]; [reflexivity|].
  cbn [restart]. destruct (snd c ==? dlit 0)%D eqn:Hc.
  - apply IH; [exact Hc|discriminate].
  - cbn [sequentialFusion]. f_equal. now apply restart_or_fuse_fuses.
Qed.

End LeadingZeros.

(** *** Frames in which the map is initialised, and frames that see nothing *)

(** X15.  A frame handled by [autoInit] that returns logs no warning,
    broadcasts no transform and does not call [saveMap]: the fiducial the map
    is initialised from is not written to the file by these frames. *)
Theorem initialising_frame_is_silent (obs : list (Observation D)) (m m' : Map D) :
  isInitializingMap m || ((0 <? length obs)%nat && (size (fiducials m) =? 0)%nat) = true ->
  update indeterminate obs m = Returned m' ->
  out m' = out m.
Proof.
  rewrite update_unfold. cbv zeta. intros -> Hr.
  now apply autoInit_keeps in Hr as (_ & Hout & _).
Qed.

(** X16.  A frame with no observation changes the frame counter and, past
    frame 10, the mode, and nothing else: no fiducial is touched, no
    transform is broadcast and [saveMap] is not called. *)
Theorem update_nothing_seen (m : Map D) :
  settled m ->
  update indeterminate [] m
  = Returned (mkMap (frameNum m + 1) (isInitializingMap m && (frameNum m + 1 <=? 10))
                (fiducials m) (originFid m) (out m)).
Proof.
  intros Hm. rewrite update_unfold. cbv zeta. cbn [length Nat.ltb Nat.leb andb].
  rewrite orb_false_r. destruct (isInitializingMap m) eqn:Hmode.
  - assert (Hsize : (size (fiducials m) =? 0)%nat = false).
    { apply Nat.eqb_neq. intros Hs. apply map_size_empty_iff in Hs. now apply Hm. }
    unfold autoInit, autoInit_origin. cbn [fiducials]. rewrite Hsize.
    unfold autoInit_anchor. cbn [frameNum fold_left].
    rewrite (Z.leb_antisym 10 (frameNum m + 1)).
    now destruct (10 <? frameNum m + 1).
  - reflexivity.
Qed.

End OneFrame.

(** ** Frames in binary64 *)

(** X17.  In binary64, whenever a frame has a candidate, the estimate of
    [updatePose] is the sequential fusion of the candidates that are left
    when the run of candidates with variance 0 at the head of the list is
    dropped; if that run is the whole list, its last candidate is left.  So
    a candidate with variance 0 at the head of the list does not count when
    another candidate follows it, and a single candidate is the estimate,
    whatever its variance. *)
Theorem updatePose_restarts `{Rotations float}
    (indeterminate : Fiducial float) (obs : list (Observation float)) (m : Map float) :
  candidates (fiducials m) obs <> [] ->
  updatePose_estimate indeterminate obs m
  = sequentialFusion (restart (candidates (fiducials m) obs)).
Proof.
  intros Hc. unfold updatePose_estimate.
  destruct obs as [|o obs]; [now destruct Hc|].
  cbn [length Nat.eqb]. rewrite updatePose_steps_candidates.
  apply restart_or_fuse_restarts; [exact binary64_floored_is_not_zero|reflexivity|exact Hc].
Qed.

Section FirstSighting.
Context `{Rotations float}.
Variable indeterminate : Fiducial float.

Lemma anchor_rounds_fixed (obs l : list (Observation float)) (m : Map float) :
  (forall x, anchor_round indeterminate obs m x = m) ->
  fold_left (anchor_round indeterminate obs) l m = m.
Proof.
  intros Hfix. induction l as [|x l IH]; [reflexivity|].
  simpl. now rewrite Hfix.
Qed.

Lemma anchor_round_other (obs : list (Observation float)) (m : Map float)
    (o x : Observation float) :
  obs !! 0%nat = Some o -> fid o <> originFid m ->
  anchor_round indeterminate obs m x = m.
Proof.
  intros Ho Hne. unfold anchor_round. rewrite Ho.
  apply Z.eqb_neq in Hne. now rewrite Hne.
Qed.

Lemma anchor_round_origin (obs : list (Observation float)) (m : Map float)
    (o x : Observation float) (f : Fiducial float) :
  obs !! 0%nat = Some o -> fid o = originFid m ->
  fiducials m !! originFid m = Some f ->
  anchor_round indeterminate obs m x
  = set_fiducials (<[originFid m := set_variance (dlit 0) f]> (fiducials m)) m.
Proof.
  intros Ho Hfid Hf. unfold anchor_round, fiducials_at.
  now rewrite Ho, Hfid, Z.eqb_refl, Hf.
Qed.

(** The rounds of the anchoring loop after the first one change nothing. *)
Lemma anchor_rounds_origin (obs l : list (Observation float)) (m : Map float)
    (o : Observation float) (f : Fiducial float) :
  obs !! 0%nat = Some o -> fid o = originFid m ->
  fiducials m !! originFid m = Some f -> l <> [] ->
  fold_left (anchor_round indeterminate obs) l m
  = set_fiducials (<[originFid m := set_variance (dlit 0) f]> (fiducials m)) m.
Proof.
  intros Ho Hfid Hf Hl. destruct l as [|x l]; [congruence|].
  cbn [fold_left]. rewrite (anchor_round_origin obs m o x f Ho Hfid Hf).
  apply anchor_rounds_fixed. intros y.
  rewrite (anchor_round_origin obs _ o y (set_variance (dlit 0) f)).
  - unfold set_fiducials. cbn [frameNum isInitializingMap fiducials originFid out].
    now rewrite insert_insert_eq.
  - exact Ho.
  - exact Hfid.
  - cbn [fiducials originFid set_fiducials]. apply lookup_insert_eq.
Qed.

(** X18.  In binary64, a frame that sees something while the map is empty
    enters the fiducial of the first observation, and nothing else, with the
    pose and the [objectError] of that observation and no link; the origin
    it stores is the index 0, not the id; and past frame 10 the fiducial is
    anchored in the same frame only when its id is 0. *)
Theorem update_first_sighting
    (o : Observation float) (rest : list (Observation float)) (m : Map float) :
  fiducials m = ∅ ->
  update indeterminate (o :: rest) m
  = Returned
      (mkMap (frameNum m + 1) (frameNum m + 1 <=? 10)
         {[fid o :=
             Fiducial_new (fid o) (T_fidCam o)
               (if (10 <? frameNum m + 1) && (fid o =? 0) then dlit 0 else objectError o)]}
         0 (out m)).
Proof.
  intros Hempty. rewrite update_unfold. cbv zeta. rewrite Hempty, map_size_empty.
  change ((0 <? length (o :: rest))%nat) with true. cbn [Nat.eqb andb].
  rewrite orb_true_r.
  unfold autoInit, autoInit_origin. cbn [fiducials]. rewrite map_size_empty.
  cbn [Nat.eqb originFid set_originFid].
  rewrite (findClosestObs_first_index o rest)
    by (reflexivity || apply length2_not_negative || apply ltb_irrefl).
  cbn [Z.eqb originFid set_originFid obs_at Z.ltb Z.compare fiducials].
  change ((o :: rest) !! Z.to_nat 0) with (Some o). cbv iota.
  rewrite insert_empty. unfold autoInit_anchor.
  unfold set_isInitializingMap, set_fiducials, set_originFid.
  cbn [frameNum isInitializingMap fiducials originFid out].
  rewrite (Z.leb_antisym 10 (frameNum m + 1)).
  destruct (10 <? frameNum m + 1); cbn [negb andb]; [|reflexivity].
  f_equal.
  assert (Ho : (o :: rest) !! 0%nat = Some o) by reflexivity.
  destruct (Z.eqb_spec (fid o) 0) as [E|Hne].
  - rewrite (anchor_rounds_origin (o :: rest) (o :: rest) _ o
               (Fiducial_new (fid o) (T_fidCam o) (objectError o)) Ho).
    + unfold set_fiducials. cbn [frameNum isInitializingMap fiducials originFid out].
      f_equal.
      transitivity
        (<[fid o := set_variance (dlit 0)
                      (Fiducial_new (fid o) (T_fidCam o) (objectError o))]>
           ({[fid o := Fiducial_new (fid o) (T_fidCam o) (objectError o)]}
            : gmap Z (Fiducial float)));
        [now rewrite E|apply insert_singleton_eq].
    + exact E.
    + cbn [fiducials originFid].
      transitivity
        (({[fid o := Fiducial_new (fid o) (T_fidCam o) (objectError o)]}
          : gmap Z (Fiducial float)) !! fid o);
        [now rewrite E|apply lookup_singleton_eq].
    + discriminate.
  - apply anchor_rounds_fixed. intros x.
    now apply (anchor_round_other (o :: rest) _ o x Ho).
Qed.

(** The variance [Fiducial::update] leaves is never below the floor. *)
Lemma dmax_not_below (x y : float) : PrimFloat.ltb (dmax x y) y = false.
Proof.
  unfold dmax. simpl. destruct (PrimFloat.ltb x y) eqn:Hlt; [apply ltb_irrefl|exact Hlt].
Qed.

(** X19.  In binary64 the variance [Fiducial::update] leaves is never below
    0.000001 and never compares equal to 0, whatever the two variances
    were: a fiducial that has been fused is not an anchor. *)
Theorem Fiducial_update_is_floored
    (f : Fiducial float) (newPose : Transform float) (newVariance : float) :
  (variance (Fiducial_update f newPose newVariance) <? dlit (1 # 1000000))%D = false /\
  (variance (Fiducial_update f newPose newVariance) ==? dlit 0)%D = false.
Proof.
  split.
  - apply dmax_not_below.
  - apply binary64_floored_is_not_zero.
Qed.

(** *** Two variances of 0 *)

Lemma eqb_zero_inv (x : float) :
  PrimFloat.eqb x (Q2float 0) = true -> exists s, Prim2SF x = S754_zero s.
Proof.
  rewrite FloatAxioms.eqb_spec.
  change (Prim2SF (Q2float 0)) with (S754_zero false).
  destruct (Prim2SF x) as [s|s| |s m e]; intros E.
  - now exists s.
  - destruct s; discriminate E.
  - discriminate E.
  - destruct s; discriminate E.
Qed.

Lemma SFmul_zero_r (x : spec_float) (s : bool) :
  zero_or_nan (SFmul prec emax x (S754_zero s)).
Proof. destruct x; exact I. Qed.

Lemma SFadd_zero_or_nan (x y : spec_float) :
  zero_or_nan x -> zero_or_nan y -> zero_or_nan (SFadd prec emax x y).
Proof.
  destruct x as [sx|sx| |sx mx ex], y as [sy|sy| |sy my ey]; simpl; try easy.
  intros _ _. now destruct sx, sy.
Qed.

Lemma SFmul_infinity_r (x : spec_float) (s : bool) :
  zero_or_nan x -> SFmul prec emax x (S754_infinity s) = S754_nan.
Proof. destruct x; simpl; easy. Qed.

Lemma one_over_zero (v1 v2 : float) (s1 s2 : bool) :
  Prim2SF v1 = S754_zero s1 -> Prim2SF v2 = S754_zero s2 ->
  exists s, Prim2SF (Q2float 1 / (v1 + v2))%float = S754_infinity s.
Proof.
  intros E1 E2. rewrite FloatAxioms.div_spec, FloatAxioms.add_spec, E1, E2.
  change (Prim2SF (Q2float 1)) with (S754_finite false 4503599627370496 (-52)).
  simpl. destruct s1, s2; eexists; reflexivity.
Qed.

(** The weighted mean of two coordinates, both weights 0. *)
Lemma blend_zero_variances (x1 x2 v1 v2 : float) :
  PrimFloat.eqb v1 (Q2float 0) = true -> PrimFloat.eqb v2 (Q2float 0) = true ->
  Prim2SF ((x2 * v1 + x1 * v2) * (Q2float 1 / (v1 + v2)))%float = S754_nan.
Proof.
  intros H1 H2.
  apply eqb_zero_inv in H1 as [s1 E1]. apply eqb_zero_inv in H2 as [s2 E2].
  destruct (one_over_zero v1 v2 s1 s2 E1 E2) as [s Einf].
  rewrite FloatAxioms.mul_spec, Einf. apply SFmul_infinity_r.
  rewrite FloatAxioms.add_spec, !FloatAxioms.mul_spec, E1, E2.
  apply SFadd_zero_or_nan; apply SFmul_zero_r.
Qed.

(** X20.  In binary64, [Fiducial::update] on a fiducial whose variance
    compares equal to 0, with a new variance that compares equal to 0,
    leaves a pose whose three coordinates are NaN, whatever the two poses
    were.  [updateMap] and [updatePose] test for a variance of 0 before they
    fuse; the fusion of [autoInit] does not. *)
Theorem Fiducial_update_two_zero_variances
    (f : Fiducial float) (newPose : Transform float) (newVariance : float) :
  (variance f ==? dlit 0)%D = true ->
  (newVariance ==? dlit 0)%D = true ->
  let o := getOrigin (pose (Fiducial_update f newPose newVariance)) in
  Prim2SF (vx o) = S754_nan /\ Prim2SF (vy o) = S754_nan /\ Prim2SF (vz o) = S754_nan.
Proof.
  intros Hf Hv. cbv zeta. repeat split; now apply blend_zero_variances.
Qed.


End FirstSighting.

(** ** The map file, whatever it holds *)

Lemma fgets_split (n : nat) (s : text) :
  fst (fgets n s) ++ snd (fgets n s) = s /\
  (length (fst (fgets n s)) <= n)%nat /\
  ((0 < n)%nat -> s <> [] -> fst (fgets n s) <> []).
Proof.
  revert s. induction n as [|n IH]; intros s.
  - simpl. split; [reflexivity|]. split; [lia|]. intros Hn. lia.
  - destruct s as [|c s]; [simpl; split; [reflexivity|]; split; [lia|congruence]|].
    cbn [fgets]. destruct (c =? NL)%char.
    + simpl. split; [reflexivity|]. split; [lia|discriminate].
    + destruct (IH s) as (Happ & Hlen & _).
      destruct (fgets n s) as [l rest]. cbn [fst snd] in *.
      split; [simpl; now rewrite Happ|]. split; [simpl; lia|discriminate].
Qed.

(** X23.  The loop of [loadMap] reads the whole file, whatever it holds: the
    pieces [fgets] returns, one after the other, are the file, and each has
    one character at least and 2046 at most, so a longer line is read as
    several. *)
Theorem read_lines_loses_nothing (file : text) :
  concat (read_lines (length file) file) = file /\
  Forall (fun linebuf => (0 < length linebuf <= BUFSIZE - 2)%nat)
         (read_lines (length file) file).
Proof.
  assert (Hrounds : forall rounds s,
             (length s <= rounds)%nat ->
             concat (read_lines rounds s) = s /\
             Forall (fun linebuf => (0 < length linebuf <= BUFSIZE - 2)%nat)
                    (read_lines rounds s)).
  { induction rounds as [|rounds IH]; intros s Hlen.
    - destruct s; [now split|simpl in Hlen; lia].
    - cbn [read_lines].
      destruct (fgets_split (BUFSIZE - 2) s) as (Happ & Hl & Hne).
      destruct (fgets (BUFSIZE - 2) s) as [l rest]. cbn [fst snd] in *.
      destruct l as [|c l].
      + destruct s as [|c s]; [now split|].
        exfalso. apply Hne; [unfold BUFSIZE; lia|discriminate|reflexivity].
      + assert (Hrest : (length rest <= rounds)%nat).
        { rewrite <- Happ in Hlen. rewrite length_app in Hlen. simpl in Hlen. lia. }
        destruct (IH rest Hrest) as [Hc Hf].
        split.
        * cbn [concat]. now rewrite Hc.
        * constructor; [|exact Hf]. split; [simpl; lia|exact Hl]. }
  now apply Hrounds.
Qed.

Section AnyFile.
Context {D : Type} `{Scalar D} `{ScalarText D} `{Rotations D}.
Variable indeterminate : Fiducial D.

Lemma loadMap_line_keyed (fids fids' : gmap Z (Fiducial D)) (linebuf : text) :
  loadMap_line indeterminate fids linebuf = Some fids' ->
  (keyed fids -> keyed fids') /\
  (forall k, is_Some (fids !! k) -> is_Some (fids' !! k)).
Proof.
  unfold loadMap_line. destruct (sscanf_record linebuf) as [r|].
  - destruct (read_links _ _) as [l|]; [|discriminate].
    intros [= <-]. split.
    + intros Hk. apply keyed_insert; [reflexivity|exact Hk].
    + intros k Hk. apply lookup_insert_is_Some.
      destruct (decide (f_id r = k)); [now left|now right].
  - intros [= <-]. now split.
Qed.

Lemma loadMap_lines_keyed (lines : list text) (fids fids' : gmap Z (Fiducial D)) :
  loadMap_lines indeterminate lines fids = Some fids' ->
  (keyed fids -> keyed fids') /\
  (forall k, is_Some (fids !! k) -> is_Some (fids' !! k)).
Proof.
  revert fids. induction lines as [|linebuf lines IH]; intros fids Hl; simpl in Hl.
  - injection Hl as <-. now split.
  - destruct (loadMap_line indeterminate fids linebuf) as [fids1|] eqn:E1; [|discriminate].
    destruct (loadMap_line_keyed fids fids1 linebuf E1) as [Hk1 Hs1].
    destruct (IH fids1 Hl) as [Hk Hs]. split; auto.
Qed.

(** *** A saved map loaded into a collection *)

(** X25.  What [loadMap] makes of a saved map, links or no links, into a
    collection that may hold fiducials already: for a map in which every
    fiducial is stored under its id and has a record that fits the line
    buffer, each fiducial with a link is read back, over what the collection
    held under its id, and each fiducial without a link is passed over, the
    collection keeping what it held. *)
Theorem loadMap_saveMap_into (m fids : gmap Z (Fiducial D)) :
  (forall k f, m !! k = Some f ->
     id f = k /\ (length (record_line f) <= BUFSIZE - 2)%nat) ->
  exists fids',
    loadMap indeterminate (saveMap m) fids = Some fids' /\
    forall k,
      fids' !! k
      = match m !! k with
        | Some f => if decide (links f = ∅) then fids !! k else Some (reloaded f)
        | None => fids !! k
        end.
Proof.
  intros Hm. destruct (loadMap_saveMap_foldl indeterminate m fids Hm) as [Hid Hl].
  eexists. split; [exact Hl|].
  intros k. destruct (m !! k) as [f|] eqn:Hk.
  - apply foldl_any_links_lookup; [exact Hid|apply entries_NoDup|].
    now apply elem_of_entries.
  - apply foldl_any_links_other; [exact Hid|].
    intros Hin. apply key_of_entries in Hin as [f Hf]. congruence.
Qed.

(** *** The constructor *)

(** X26.  A map the constructor has loaded from a file that [saveMap] wrote,
    for a collection in which every fiducial is stored under its id and has
    a record that fits the line buffer, and in which some fiducial has a
    link, is tracked from the first frame: the constructor returns, the
    collection it leaves is not empty, every run of frames returns, the
    engine never initialises the map, and every fiducial is stored under its
    id. *)
Theorem constructed_map_is_tracked
    (saved : gmap Z (Fiducial D)) (k0 : Z) (f0 : Fiducial D)
    (frames : list (list (Observation D))) :
  (forall k f, saved !! k = Some f ->
     id f = k /\ (length (record_line f) <= BUFSIZE - 2)%nat) ->
  saved !! k0 = Some f0 ->
  links f0 <> ∅ ->
  exists m,
    Map_construct indeterminate (Some (saveMap saved)) = Some m /\
    fiducials m <> ∅ /\
    exists m', run indeterminate frames m = Returned m' /\
               isInitializingMap m' = false /\ keyed (fiducials m').
Proof.
  intros Hsaved Hk0 Hlinks.
  destruct (loadMap_saveMap_foldl indeterminate saved ∅ Hsaved) as [Hid Hl].
  unfold Map_construct. rewrite Hl.
  set (fids := foldl _ _ _) in *.
  assert (Hf0 : fids !! k0 = Some (reloaded f0)).
  { unfold fids.
    rewrite (foldl_any_links_lookup (entries saved) ∅ k0 f0 Hid (entries_NoDup saved))
      by now apply elem_of_entries.
    now destruct (decide (links f0 = ∅)). }
  assert (Hne : fids <> ∅).
  { intros E. rewrite E, lookup_empty in Hf0. discriminate Hf0. }
  assert (Hk : keyed fids).
  { apply (loadMap_lines_keyed _ ∅ fids Hl).
    intros k f Hf. rewrite lookup_empty in Hf. discriminate. }
  eexists. split; [reflexivity|]. split; [exact Hne|].
  destruct (tracking_run_invariant indeterminate keyed frames (mkMap 0 false fids (-1) []))
    as (m' & Hr & Hm' & _ & Hk'); auto.
  - intros o1 o2 m0. apply updateMap_pair_keyed.
  - now exists m'.
Qed.

(** *** The links a marker shows *)

Lemma links_drawn_spec (fids : gmap Z (Fiducial D)) (f : Fiducial D) (k : Z) :
  k ∈ links_drawn fids f <->
  id f < k /\ is_Some (links f !! k) /\ is_Some (fids !! k).
Proof.
  unfold links_drawn. rewrite list_elem_of_omap. split.
  - intros ([k' v] & Hin & Hk). cbn [fst] in Hk.
    apply elem_of_entries in Hin.
    destruct (Z.ltb_spec (id f) k') as [Hlt|]; [|discriminate].
    destruct (fids !! k') as [g|] eqn:Hg; [|discriminate].
    injection Hk as <-. split; [exact Hlt|]. split; [now exists v|now exists g].
  - intros (Hlt & [v Hv] & [g Hg]). exists (k, v).
    split; [now apply elem_of_entries|]. cbn [fst].
    apply Z.ltb_lt in Hlt. now rewrite Hlt, Hg.
Qed.

Lemma omap_keys_NoDup {A : Type} (g : Z * A -> option Z) (es : list (Z * A)) :
  (forall e k, g e = Some k -> k = fst e) ->
  NoDup es.*1 -> NoDup (omap g es).
Proof.
  intros Hg. induction es as [|e es IH]; intros Hnd; [constructor|].
  cbn [fmap list_fmap] in Hnd. apply NoDup_cons in Hnd as [Hfresh Hnd].
  cbn [omap list_omap]. destruct (g e) as [k|] eqn:Ek; [|now apply IH].
  apply NoDup_cons. split; [|now apply IH].
  intros Hin. apply Hfresh. apply list_elem_of_omap in Hin as (e' & He' & Hk).
  apply Hg in Ek. apply Hg in Hk. subst k.
  apply list_elem_of_fmap. now exists e'.
Qed.

Lemma links_points_length (fids : gmap Z (Fiducial D)) (f : Fiducial D) :
  length (links_points fids f) = (2 * length (links_drawn fids f))%nat.
Proof.
  unfold links_points.
  assert (Hall : Forall (fun k => is_Some (fids !! k)) (links_drawn fids f)).
  { apply Forall_forall. intros k Hk. now apply links_drawn_spec in Hk as (_ & _ & Hk). }
  induction Hall as [|k l [g Hg] _ IH]; [reflexivity|].
  cbn [flat_map]. rewrite Hg. cbn [app length]. rewrite IH. lia.
Qed.

(** X27.  The line of a link is shown from one end only: for two fiducials
    of the map, each stored under its id, the marker of the one with the
    lower id shows the line to the other exactly when it has the link, the
    marker of the one with the higher id never shows the line back, and no
    marker shows a line twice: two points are pushed for each id shown. *)
Theorem link_is_drawn_from_the_lower_id
    (fids : gmap Z (Fiducial D)) (a b : Z) (fa fb : Fiducial D) :
  keyed fids ->
  fids !! a = Some fa -> fids !! b = Some fb -> a < b ->
  (b ∈ links_drawn fids fa <-> is_Some (links fa !! b)) /\
  (a ∉ links_drawn fids fb) /\
  NoDup (links_drawn fids fa) /\
  length (links_points fids fa) = (2 * length (links_drawn fids fa))%nat.
Proof.
  intros Hk Ha Hb Hlt.
  pose proof (Hk a fa Ha) as Ia. pose proof (Hk b fb Hb) as Ib.
  split; [|split; [|split]].
  - rewrite links_drawn_spec, Ia. split; [tauto|].
    intros Hl. split; [exact Hlt|]. split; [exact Hl|now exists fb].
  - rewrite links_drawn_spec, Ib. lia.
  - unfold links_drawn. apply omap_keys_NoDup; [|apply entries_NoDup].
    intros e k. cbv zeta. destruct (id fa <? e.1); [|discriminate].
    destruct (fids !! e.1); [|discriminate]. now intros [= <-].
  - apply links_points_length.
Qed.

End AnyFile.

(** X28.  In binary64, a variance of at most 0.0000005 is written as
    0.000000: after the map is saved and loaded again, the fiducial has a
    variance that compares equal to 0, so it is an anchor from then on. *)
Theorem reloaded_tiny_variance_is_anchor `{Rotations float}
    (f : Fiducial float) (negative : bool) (q : Q) :
  dclass (variance f) = fp_finite negative q ->
  (q <= 1 # 2000000)%Q ->
  (variance (reloaded f) ==? dlit 0)%D = true.
Proof.
  intros Hc Hq. unfold reloaded.
  destruct (getRPY (m_basis (pose f))) as [[rx ry] rz]. cbn [variance].
  unfold reread. rewrite Hc. unfold lf_digits.
  assert (E : round_half_even (q * 1000000) = 0%N).
  { unfold round_half_even. destruct q as [n d]. unfold Qle in Hq. simpl in Hq.
    cbn [Qmult Qnum Qden]. change (Qnum 1000000) with 1000000.
    change (Qden 1000000) with 1%positive. rewrite Pos.mul_1_r.
    assert (Hlt : (Z.to_N (n * 1000000) < N.pos d)%N) by lia.
    destruct (N.div_eucl (Z.to_N (n * 1000000)) (N.pos d)) as [k r] eqn:Ed.
    assert (Ek : k = 0%N).
    { change k with (fst (k, r)). rewrite <- Ed. now apply N.div_small. }
    assert (Er : r = Z.to_N (n * 1000000)).
    { change r with (snd (k, r)). rewrite <- Ed. now apply N.mod_small. }
    subst k. destruct (2 * r ?= N.pos d)%N eqn:Ecmp; try reflexivity.
    apply N.compare_gt_iff in Ecmp. lia. }
  rewrite E. destruct negative; reflexivity.
Qed.

(** ** Initialising frames *)

Section Initialising.
Context {D : Type} `{Scalar D} `{Rotations D}.
Variable indeterminate : Fiducial D.

Lemma anchor_rounds_other_keys (obs l : list (Observation D)) (m : Map D) (k : Z) :
  k <> originFid m ->
  fiducials (fold_left (anchor_round indeterminate obs) l m) !! k = fiducials m !! k.
Proof.
  revert m. induction l as [|x l IH]; intros m Hk; [reflexivity|].
  cbn [fold_left].
  assert (E : originFid (anchor_round indeterminate obs m x) = originFid m
              /\ fiducials (anchor_round indeterminate obs m x) !! k = fiducials m !! k).
  { unfold anchor_round. destruct (obs !! 0%nat) as [o|]; [|easy].
    destruct (fid o =? originFid m); [|easy].
    split; [reflexivity|]. simpl. now rewrite lookup_insert_ne by congruence. }
  destruct E as [Eo Ek]. rewrite IH by congruence. exact Ek.
Qed.

(** X30.  While the map is being initialised and holds a fiducial, a frame
    leaves the stored origin as it was and touches no entry of the map but
    the one under that stored origin: whatever else is seen in these frames
    is not entered. *)
Theorem initialising_frame_touches_only_origin
    (obs : list (Observation D)) (m m' : Map D) (k : Z) :
  isInitializingMap m = true -> fiducials m <> ∅ ->
  update indeterminate obs m = Returned m' ->
  k <> originFid m ->
  originFid m' = originFid m /\ fiducials m' !! k = fiducials m !! k.
Proof.
  intros Hmode Hne Hr Hk. rewrite update_unfold in Hr. cbv zeta in Hr.
  rewrite Hmode in Hr. cbn [orb] in Hr.
  assert (Hsize : (size (fiducials m) =? 0)%nat = false).
  { apply Nat.eqb_neq. intros Hs. now apply map_size_empty_iff in Hs. }
  unfold autoInit, autoInit_origin in Hr. cbn [fiducials] in Hr. rewrite Hsize in Hr.
  set (m0 := mkMap (frameNum m + 1) true (fiducials m) (originFid m) (out m)) in *.
  assert (Hanchor : forall m1,
             originFid m1 = originFid m -> fiducials m1 !! k = fiducials m !! k ->
             originFid (autoInit_anchor indeterminate obs m1) = originFid m /\
             fiducials (autoInit_anchor indeterminate obs m1) !! k = fiducials m !! k).
  { intros m1 Eo Ek. unfold autoInit_anchor. destruct (10 <? frameNum m1); [|easy].
    destruct (anchor_rounds_keep indeterminate obs obs (set_isInitializingMap false m1))
      as [-> _].
    rewrite anchor_rounds_other_keys by (cbn; congruence). easy. }
  destruct obs as [|o rest].
  - injection Hr as <-. now apply Hanchor.
  - destruct (fid o =? originFid m0); injection Hr as <-; apply Hanchor; try easy.
    simpl. now rewrite lookup_insert_ne by congruence.
Qed.

End Initialising.

(** ** Witnesses *)



(** X5 (witness): a new map, a frame that sees nothing and a frame that sees
    fiducial 1. *)
Lemma run_counts_frames_witness :
  exists m',
    run garbage [[]; [sees 1 2 (1 # 100)]] Map_new = Returned m' /\
    frameNum m' = frameNum Map_new + Z.of_nat (length [[]; [sees 1 2 (1 # 100)]]).
Proof.
  eexists. split; [vm_compute; reflexivity|].
  match goal with
  | |- frameNum ?m' = _ =>
      apply (run_counts_frames garbage [[]; [sees 1 2 (1 # 100)]] Map_new m')
  end.
  vm_compute. reflexivity.
Defined.

(** X6 (witness): the first frame of a new map, which sees fiducial 0. *)
Lemma update_mode_witness :
  exists m',
    update garbage [sees 0 1 (1 # 100)] Map_new = Returned m' /\
    isInitializingMap m' = true.
Proof.
  eexists. split; [vm_compute; reflexivity|].
  match goal with
  | |- isInitializingMap ?m' = _ =>
      apply (update_mode garbage [sees 0 1 (1 # 100)] Map_new m')
  end.
  vm_compute. reflexivity.
Defined.

(** X7 (witness): scenario 3. *)
Lemma run_keeps_fiducials_witness :
  exists m',
    run garbage [frame_1_2] anchored_1 = Returned m' /\
    kept (fiducials anchored_1) (fiducials m').
Proof.
  eexists. split; [vm_compute; reflexivity|].
  match goal with
  | |- kept _ (fiducials ?m') =>
      apply (run_keeps_fiducials garbage [frame_1_2] anchored_1 m')
  end.
  vm_compute. reflexivity.
Defined.

Lemma anchored_1_nonempty : fiducials anchored_1 <> ∅.
Proof. apply insert_non_empty. Qed.

(** X8 (witness): scenario 3, and then a frame that sees nothing. *)
Lemma tracking_is_not_left_witness :
  isInitializingMap anchored_1 = false /\ fiducials anchored_1 <> ∅ /\
  exists m',
    run garbage [frame_1_2; []] anchored_1 = Returned m' /\
    isInitializingMap m' = false /\ fiducials m' <> ∅.
Proof.
  split; [reflexivity|]. split; [exact anchored_1_nonempty|].
  exact (tracking_is_not_left garbage [frame_1_2; []] anchored_1 eq_refl
           anchored_1_nonempty).
Defined.

Lemma keyed_two_mapped : keyed (fiducials two_mapped).
Proof. intros k f Hk. unfold two_mapped in Hk. cbn [fiducials] in Hk. by_entries Hk. Qed.

Lemma two_mapped_nonempty : fiducials two_mapped <> ∅.
Proof. apply insert_non_empty. Qed.

(** X9 (witness): fiducials 1 and 2 in the map, and the frame that sees
    both. *)
Lemma tracking_keeps_ids_and_links_witness :
  isInitializingMap two_mapped = false /\ fiducials two_mapped <> ∅ /\
  keyed (fiducials two_mapped) /\ links_symmetric (fiducials two_mapped) /\
  exists m',
    run garbage [frame_exact_1] two_mapped = Returned m' /\
    keyed (fiducials m') /\ links_symmetric (fiducials m').
Proof.
  split; [reflexivity|]. split; [exact two_mapped_nonempty|].
  split; [exact keyed_two_mapped|]. split; [exact links_symmetric_two_mapped|].
  exact (tracking_keeps_ids_and_links garbage [frame_exact_1] two_mapped eq_refl
           two_mapped_nonempty keyed_two_mapped links_symmetric_two_mapped).
Defined.

(** X10 (witness): scenario 3 and fiducial 7, which is not observed. *)
Lemma updateMap_only_observed_witness :
  (forall o, In o frame_1_2 -> fid o <> 7) /\
  fiducials (updateMap garbage frame_1_2 anchored_1) !! 7 = fiducials anchored_1 !! 7.
Proof.
  assert (Hk : forall o, In o frame_1_2 -> fid o <> 7)
    by (intros o [<-|[<-|[]]]; discriminate).
  split; [exact Hk|].
  exact (updateMap_only_observed garbage frame_1_2 anchored_1 7 Hk).
Defined.

(** X11 (witness): fiducials 7 and 8 seen, fiducial 1 alone in the map. *)
Lemma updateMap_nothing_mapped_witness :
  let obs := [sees 7 1 (2 # 100); sees 8 2 (2 # 100)] in
  (forall o, In o obs -> fiducials anchored_1 !! fid o = None) /\
  updateMap garbage obs anchored_1
  = emit_all [WARN_no_map_entry 7; WARN_no_map_entry 8] anchored_1.
Proof.
  cbv zeta.
  assert (Hno : forall o, In o [sees 7 1 (2 # 100); sees 8 2 (2 # 100)] ->
                          fiducials anchored_1 !! fid o = None)
    by (intros o [<-|[<-|[]]]; reflexivity).
  split; [exact Hno|].
  exact (updateMap_nothing_mapped garbage _ anchored_1 Hno).
Defined.

(** X13 (witness): fiducials 1 and 2, with 3 and 4 observations, seen
    together. *)
Lemma updateMap_two_unanchored_witness :
  let oa := sees 1 1 (2 # 100) in
  let ob := sees 2 3 (2 # 100) in
  let fa := mkFiducial 1 3 (at_xyz 0 0 0) (Q2float (1 # 4)) ∅ in
  let fb := mkFiducial 2 4 (at_xyz 5 0 0) (Q2float (1 # 2)) ∅ in
  fid oa <> fid ob /\
  fiducials two_unanchored !! fid oa = Some fa /\
  fiducials two_unanchored !! fid ob = Some fb /\
  (variance fa ==? dlit 0)%D = false /\ (variance fb ==? dlit 0)%D = false /\
  exists ga gb,
    fiducials (updateMap garbage [oa; ob] two_unanchored) !! 1 = Some ga /\
    fiducials (updateMap garbage [oa; ob] two_unanchored) !! 2 = Some gb /\
    numObs ga = 5 /\ numObs gb = 6 /\
    links ga = <[2 := 1]> ∅ /\ links gb = <[1 := 1]> ∅.
Proof.
  cbv zeta.
  assert (Hne : fid (sees 1 1 (2 # 100)) <> fid (sees 2 3 (2 # 100))) by discriminate.
  assert (Ea : fiducials two_unanchored !! fid (sees 1 1 (2 # 100))
               = Some (mkFiducial 1 3 (at_xyz 0 0 0) (Q2float (1 # 4)) ∅)) by reflexivity.
  assert (Eb : fiducials two_unanchored !! fid (sees 2 3 (2 # 100))
               = Some (mkFiducial 2 4 (at_xyz 5 0 0) (Q2float (1 # 2)) ∅)) by reflexivity.
  assert (Hza : (variance (mkFiducial 1 3 (at_xyz 0 0 0) (Q2float (1 # 4)) ∅)
                 ==? dlit 0)%D = false) by reflexivity.
  assert (Hzb : (variance (mkFiducial 2 4 (at_xyz 5 0 0) (Q2float (1 # 2)) ∅)
                 ==? dlit 0)%D = false) by reflexivity.
  split; [exact Hne|]. split; [exact Ea|]. split; [exact Eb|].
  split; [exact Hza|]. split; [exact Hzb|].
  destruct (updateMap_two_unanchored garbage _ _ _ _ _ Hne Ea Eb Hza Hzb) as [Ha Hb].
  do 2 eexists. split; [exact Ha|]. split; [exact Hb|].
  repeat split.
Defined.

(** X14 (witness): fiducial 7, not in the map, seen before fiducial 1. *)
Lemma updatePose_ignores_unmapped_witness :
  let obs := [sees 7 1 (2 # 100); sees 1 1 (2 # 100)] in
  (exists o, In o obs /\ mapped (fiducials anchored_1) o = true) /\
  updatePose_estimate garbage obs anchored_1
  = updatePose_estimate garbage [sees 1 1 (2 # 100)] anchored_1.
Proof.
  cbv zeta.
  assert (Hm : exists o, In o [sees 7 1 (2 # 100); sees 1 1 (2 # 100)]
                         /\ mapped (fiducials anchored_1) o = true).
  { exists (sees 1 1 (2 # 100)). split; [right; now left|reflexivity]. }
  split; [exact Hm|].
  exact (updatePose_ignores_unmapped garbage _ anchored_1 Hm).
Defined.

(** X15 (witness): the first frame of a new map. *)
Lemma initialising_frame_is_silent_witness :
  exists m',
    update garbage [sees 0 1 (1 # 100)] Map_new = Returned m' /\
    out m' = out Map_new.
Proof.
  eexists. split; [vm_compute; reflexivity|].
  match goal with
  | |- out ?m' = _ =>
      apply (initialising_frame_is_silent garbage [sees 0 1 (1 # 100)] Map_new m')
  end.
  - reflexivity.
  - vm_compute. reflexivity.
Defined.

Lemma settled_Map_new : settled Map_new.
Proof. intros Hinit. discriminate Hinit. Qed.

(** X16 (witness): a new map. *)
Lemma update_nothing_seen_witness :
  settled Map_new /\
  update garbage [] Map_new = Returned (mkMap 1 false ∅ (-1) []).
Proof.
  split; [exact settled_Map_new|].
  exact (update_nothing_seen garbage Map_new settled_Map_new).
Defined.

(** X17 (witness): the frame whose first candidate has variance 0. *)
Lemma updatePose_restarts_witness :
  candidates (fiducials two_mapped) frame_exact_1 <> [] /\
  updatePose_estimate garbage frame_exact_1 two_mapped
  = sequentialFusion (restart (candidates (fiducials two_mapped) frame_exact_1)).
Proof.
  assert (Hc : candidates (fiducials two_mapped) frame_exact_1 <> [])
    by (vm_compute; discriminate).
  split; [exact Hc|].
  exact (updatePose_restarts garbage frame_exact_1 two_mapped Hc).
Defined.

(** X18 (witness): a new map and a frame that sees fiducials 5 and 0. *)
Lemma update_first_sighting_witness :
  fiducials Map_new = ∅ /\
  update garbage [sees 5 2 (1 # 100); sees 0 1 (1 # 100)] Map_new
  = Returned
      (mkMap 1 true {[5 := Fiducial_new 5 (at_xyz 2 0 0) (Q2float (1 # 100))]} 0 []).
Proof.
  split; [reflexivity|].
  exact (update_first_sighting garbage (sees 5 2 (1 # 100)) [sees 0 1 (1 # 100)]
           Map_new eq_refl).
Defined.

(** X20 (witness): a fiducial entered with [objectError = 0] and seen again
    with [objectError = 0]. *)
Lemma Fiducial_update_two_zero_variances_witness :
  (variance exact_0 ==? dlit 0)%D = true /\
  (Q2float 0 ==? dlit 0)%D = true /\
  Prim2SF (vx (getOrigin (pose (Fiducial_update exact_0 (at_xyz 2 0 0) (Q2float 0)))))
  = S754_nan.
Proof.
  split; [reflexivity|]. split; [reflexivity|].
  exact (proj1 (Fiducial_update_two_zero_variances exact_0 (at_xyz 2 0 0) (Q2float 0)
                  eq_refl eq_refl)).
Defined.

Lemma keyed_empty : keyed (∅ : gmap Z (@Fiducial float (TranslationsOnly float))).
Proof. intros k f Hk. rewrite lookup_empty in Hk. discriminate Hk. Qed.

Lemma saved_5_12_records (k : Z) (f : Fiducial float) :
  saved_5_12 !! k = Some f ->
  id f = k /\ (length (record_line f) <= BUFSIZE - 2)%nat.
Proof.
  intros Hk. unfold saved_5_12, only_5 in Hk.
  apply lookup_insert_Some in Hk as [[<- <-]|[_ Hk]].
  - split; [reflexivity|]. apply Nat.leb_le. vm_compute. reflexivity.
  - apply lookup_singleton_Some in Hk as [<- <-].
    split; [reflexivity|]. apply Nat.leb_le. vm_compute. reflexivity.
Qed.

(** X25 (witness): the map of fiducial 5, which has links, and fiducial 12,
    which has none, loaded into an empty collection. *)
Lemma loadMap_saveMap_into_witness :
  (forall k f, saved_5_12 !! k = Some f ->
     id f = k /\ (length (record_line f) <= BUFSIZE - 2)%nat) /\
  exists fids',
    loadMap garbage (saveMap saved_5_12) ∅ = Some fids' /\
    fids' !! 5 = Some (reloaded fiducial_5) /\ fids' !! 12 = None.
Proof.
  split; [exact saved_5_12_records|].
  destruct (loadMap_saveMap_into garbage saved_5_12 ∅ saved_5_12_records)
    as (fids' & Hl & Hk).
  exists fids'. split; [exact Hl|]. split.
  - exact (Hk 5).
  - rewrite (Hk 12). reflexivity.
Defined.

(** X26 (witness): the file of the map of fiducials 5 and 12, of which the
    first has links, and a frame that sees fiducial 5. *)
Lemma constructed_map_is_tracked_witness :
  (forall k f, saved_5_12 !! k = Some f ->
     id f = k /\ (length (record_line f) <= BUFSIZE - 2)%nat) /\
  saved_5_12 !! 5 = Some fiducial_5 /\
  links fiducial_5 <> ∅ /\
  exists m,
    Map_construct garbage (Some (saveMap saved_5_12)) = Some m /\
    fiducials m <> ∅ /\
    exists m', run garbage [[sees 5 1 (1 # 100)]] m = Returned m' /\
               isInitializingMap m' = false /\ keyed (fiducials m').
Proof.
  assert (Hl : links fiducial_5 <> ∅) by (vm_compute; discriminate).
  split; [exact saved_5_12_records|]. split; [reflexivity|]. split; [exact Hl|].
  exact (constructed_map_is_tracked garbage saved_5_12 5 fiducial_5
           [[sees 5 1 (1 # 100)]] saved_5_12_records eq_refl Hl).
Defined.

Lemma keyed_linked_pair : keyed linked_pair.
Proof. intros k f Hk. unfold linked_pair in Hk. by_entries Hk. Qed.

(** X27 (witness): fiducials 1 and 2, linked to each other. *)
Lemma link_is_drawn_from_the_lower_id_witness :
  keyed linked_pair /\
  linked_pair !! 1 = Some linked_1 /\ linked_pair !! 2 = Some linked_2 /\ 1 < 2 /\
  (2 ∈ links_drawn linked_pair linked_1 <-> is_Some (links linked_1 !! 2)) /\
  (1 ∉ links_drawn linked_pair linked_2).
Proof.
  assert (Hlt : 1 < 2) by lia.
  assert (H1 : linked_pair !! 1 = Some linked_1) by reflexivity.
  assert (H2 : linked_pair !! 2 = Some linked_2) by reflexivity.
  split; [exact keyed_linked_pair|]. split; [exact H1|]. split; [exact H2|].
  split; [exact Hlt|].
  destruct (link_is_drawn_from_the_lower_id linked_pair 1 2 linked_1 linked_2
              keyed_linked_pair H1 H2 Hlt) as (Hdrawn & Hback & _).
  split; [exact Hdrawn|exact Hback].
Defined.

(** X28 (witness): fiducial 5 with a variance of 0.0000001. *)
Lemma reloaded_tiny_variance_is_anchor_witness :
  exists negative q,
    dclass (variance fiducial_5_tight) = fp_finite negative q /\
    (q <= 1 # 2000000)%Q /\
    (variance (reloaded fiducial_5_tight) ==? dlit 0)%D = true.
Proof.
  do 2 eexists.
  split; [vm_compute; reflexivity|].
  split; [vm_compute; discriminate|].
  eapply (reloaded_tiny_variance_is_anchor fiducial_5_tight);
    [vm_compute; reflexivity|vm_compute; discriminate].
Defined.

(** X30 (witness): the second frame of a map initialised from fiducial 0,
    which sees fiducials 0 and 3. *)
Lemma initialising_frame_touches_only_origin_witness :
  let m := mkMap 1 true {[0 := Fiducial_new 0 (at_xyz 1 0 0) (Q2float (1 # 100))]} 0 [] in
  isInitializingMap m = true /\ fiducials m <> ∅ /\ 3 <> originFid m /\
  exists m',
    update garbage [sees 0 1 (1 # 100); sees 3 2 (1 # 100)] m = Returned m' /\
    originFid m' = originFid m /\ fiducials m' !! 3 = fiducials m !! 3.
Proof.
  cbv zeta.
  split; [reflexivity|].
  assert (Hne : ({[0 := Fiducial_new 0 (at_xyz 1 0 0) (Q2float (1 # 100))]}
                 : gmap Z (Fiducial float)) <> ∅)
    by (intros E; apply (f_equal (fun fids => fids !! 0)) in E; discriminate E).
  split; [exact Hne|].
  assert (Hk : 3 <> 0) by discriminate.
  split; [exact Hk|].
  eexists. split; [vm_compute; reflexivity|].
  match goal with
  | |- originFid ?m' = _ /\ _ =>
      apply (initialising_frame_touches_only_origin garbage
               [sees 0 1 (1 # 100); sees 3 2 (1 # 100)]
               (mkMap 1 true {[0 := Fiducial_new 0 (at_xyz 1 0 0) (Q2float (1 # 100))]} 0 [])
               m' 3 eq_refl Hne);
        [vm_compute; reflexivity|exact Hk]
  end.
Defined.
